(** * Mojibake repair (fix-encoding.py): model and verified properties

    The Python program reverses text that was produced as UTF-8, decoded
    as Windows-1252 or Latin-1 and encoded again as UTF-8.  This file embeds
    its functions and proves properties of them.

    Conventions of the embedding:
    - a Python [str] is a list of code points ([N]); a [bytes] value is a
      list of byte values ([N] below 256);
    - [str.encode] and [bytes.decode] return [option]: [None] stands for
      the [UnicodeEncodeError] / [UnicodeDecodeError] that the program
      catches;
    - console output is a list of structured messages ([msg]), one per
      [print] call the properties talk about;
    - the file system is a finite map from paths to file bytes; the module
      [OS] has it with directories and permissions, for the properties
      that depend on what the operating system refuses. *)

From stdpp Require Import gmap strings list fin_maps.
From Stdlib Require Import NArith Lia.

Local Open Scope N_scope.

(** ** Text and bytes *)

Abbreviation str := (list N) (only parsing).
Abbreviation bytes := (list N) (only parsing).

(** The line separator ['\n']. *)
Definition NL : N := 0x0A.
Definition CR : N := 0x0D.

(** ** Codecs of the Python runtime *)

Inductive codec := cp1252 | latin_1.

Global Instance codec_eq_dec : EqDecision codec.
Proof. solve_decision. Defined.

(** [encodings/cp1252.py]: bytes 0x00-0x7F and 0xA0-0xFF are the code points
    of the same value; 27 of the bytes 0x80-0x9F carry punctuation and
    letters from elsewhere, listed here as (byte, code point); 0x81, 0x8D,
    0x8F, 0x90 and 0x9D are undefined, so U+0080-U+009F cannot be encoded
    at all. *)
Definition cp1252_high : list (N * N) :=
  [ (0x80, 0x20AC); (0x82, 0x201A); (0x83, 0x0192); (0x84, 0x201E);
    (0x85, 0x2026); (0x86, 0x2020); (0x87, 0x2021); (0x88, 0x02C6);
    (0x89, 0x2030); (0x8A, 0x0160); (0x8B, 0x2039); (0x8C, 0x0152);
    (0x8E, 0x017D); (0x91, 0x2018); (0x92, 0x2019); (0x93, 0x201C);
    (0x94, 0x201D); (0x95, 0x2022); (0x96, 0x2013); (0x97, 0x2014);
    (0x98, 0x02DC); (0x99, 0x2122); (0x9A, 0x0161); (0x9B, 0x203A);
    (0x9C, 0x0153); (0x9E, 0x017E); (0x9F, 0x0178) ].

(** The byte of a code point in such a table. *)
Fixpoint byte_of (table : list (N * N)) (c : N) : option N :=
  match table with
  | [] => None
  | (b, c') :: table' => if c =? c' then Some b else byte_of table' c
  end.

Definition cp1252_encode_char (c : N) : option N :=
  if c <? 0x80 then Some c
  else if (0xA0 <=? c) && (c <=? 0xFF) then Some c
  else byte_of cp1252_high c.

(** Latin-1: the code points below 256 are their own byte. *)
Definition latin_1_encode_char (c : N) : option N :=
  if c <? 0x100 then Some c else None.

Definition encode_char (cd : codec) : N → option N :=
  match cd with
  | cp1252 => cp1252_encode_char
  | latin_1 => latin_1_encode_char
  end.

(** [text.encode(codec)] with the default [errors='strict']. *)
Definition encode (cd : codec) (text : str) : option bytes :=
  mapM (encode_char cd) text.

(** A continuation byte of UTF-8. *)
Definition is_cont (b : N) : bool := (0x80 <=? b) && (b <=? 0xBF).

(** The code points that two, three and four bytes of UTF-8 carry. *)
Definition cp2 (b0 b1 : N) : N := (b0 - 0xC0) * 0x40 + (b1 - 0x80).
Definition cp3 (b0 b1 b2 : N) : N :=
  ((b0 - 0xE0) * 0x40 + (b1 - 0x80)) * 0x40 + (b2 - 0x80).
Definition cp4 (b0 b1 b2 b3 : N) : N :=
  (((b0 - 0xF0) * 0x40 + (b1 - 0x80)) * 0x40 + (b2 - 0x80)) * 0x40 + (b3 - 0x80).

Definition is_surrogate (c : N) : bool := (0xD800 <=? c) && (c <=? 0xDFFF).

(** [data.decode('utf-8')], strict: shortest form only, no surrogates,
    nothing above U+10FFFF. *)
Fixpoint utf8_decode (bs : bytes) : option str :=
  match bs with
  | [] => Some []
  | b0 :: r0 =>
    if b0 <? 0x80 then cons b0 <$> utf8_decode r0
    else if (0xC2 <=? b0) && (b0 <=? 0xDF) then
      match r0 with
      | b1 :: r1 =>
        if is_cont b1 then cons (cp2 b0 b1) <$> utf8_decode r1 else None
      | _ => None
      end
    else if (0xE0 <=? b0) && (b0 <=? 0xEF) then
      match r0 with
      | b1 :: b2 :: r2 =>
        if is_cont b1 && is_cont b2 && (0x800 <=? cp3 b0 b1 b2)
           && negb (is_surrogate (cp3 b0 b1 b2))
        then cons (cp3 b0 b1 b2) <$> utf8_decode r2
        else None
      | _ => None
      end
    else if (0xF0 <=? b0) && (b0 <=? 0xF4) then
      match r0 with
      | b1 :: b2 :: b3 :: r3 =>
        if is_cont b1 && is_cont b2 && is_cont b3
           && (0x10000 <=? cp4 b0 b1 b2 b3) && (cp4 b0 b1 b2 b3 <=? 0x10FFFF)
        then cons (cp4 b0 b1 b2 b3) <$> utf8_decode r3
        else None
      | _ => None
      end
    else None
  end.

(** A code point that UTF-8 can carry: up to U+10FFFF and no surrogate. *)
Definition scalar (c : N) : bool :=
  (c <=? 0x10FFFF) && negb (is_surrogate c).

Definition utf8_encode_char (c : N) : option bytes :=
  if c <? 0x80 then Some [c]
  else if c <? 0x800 then Some [0xC0 + c / 0x40; 0x80 + c mod 0x40]
  else if c <? 0x10000 then
    if is_surrogate c then None
    else Some [0xE0 + c / 0x1000; 0x80 + (c / 0x40) mod 0x40; 0x80 + c mod 0x40]
  else if c <=? 0x10FFFF then
    Some [0xF0 + c / 0x40000; 0x80 + (c / 0x1000) mod 0x40;
          0x80 + (c / 0x40) mod 0x40; 0x80 + c mod 0x40]
  else None.

(** [text.encode('utf-8')]. *)
Definition utf8_encode (text : str) : option bytes :=
  @concat N <$> mapM utf8_encode_char text.

(** [text.encode(codec).decode('utf-8')]: one codec reversal. *)
Definition reverse_codec (cd : codec) (text : str) : option str :=
  encode cd text ≫= utf8_decode.

(** ** fix_mojibake_segment *)

(** The [for codec in ['cp1252', 'latin-1']] loop: a codec whose reversal
    raises is skipped ([continue]); the first one that succeeds returns. *)
Fixpoint fix_mojibake_segment_loop (codecs : list codec) (text : str) : str :=
  match codecs with
  | [] => text
  | cd :: codecs' =>
    match reverse_codec cd text with
    | Some fixed =>
      match reverse_codec cd fixed with
      | Some fixed2 =>
        if bool_decide (fixed2 ≠ fixed) && (length fixed2 <? length fixed)%nat
        then fixed2 else fixed
      | None => fixed
      end
    | None => fix_mojibake_segment_loop codecs' text
    end
  end.

Definition fix_mojibake_segment (text : str) : str :=
  fix_mojibake_segment_loop [cp1252; latin_1] text.

(** ** Methods of [str] used by the program *)

(** [s.startswith(p)]. *)
Fixpoint starts_with (p s : str) : bool :=
  match p, s with
  | [], _ => true
  | a :: p', b :: s' => (a =? b) && starts_with p' s'
  | _ :: _, [] => false
  end.

(** [p in s]. *)
Fixpoint contains (p s : str) : bool :=
  starts_with p s ||
  match s with
  | [] => false
  | _ :: s' => contains p s'
  end.

(** [s.count(p)]: occurrences found from the left, none overlapping.  Each
    step drops at least one character, so [length s] steps are enough. *)
Fixpoint count_from (fuel : nat) (p s : str) : nat :=
  match fuel, s with
  | S fuel', _ :: s' =>
    if starts_with p s then S (count_from fuel' p (drop (length p) s))
    else count_from fuel' p s'
  | _, _ => 0%nat
  end.

Definition count (p s : str) : nat :=
  match p with
  | [] => S (length s)
  | _ :: _ => count_from (length s) p s
  end.

(** [s.replace(old, new)]: the occurrences that [count] counts are
    replaced. *)
Fixpoint replace_from (fuel : nat) (old new s : str) : str :=
  match fuel, s with
  | S fuel', c :: s' =>
    if starts_with old s then new ++ replace_from fuel' old new (drop (length old) s)
    else c :: replace_from fuel' old new s'
  | _, _ => s
  end.

Definition replace (old new s : str) : str :=
  match old with
  | [] => new ++ flat_map (λ c, c :: new) s
  | _ :: _ => replace_from (length s) old new s
  end.

(** [s.split(sep)] for a separator of one character. *)
Fixpoint split (sep : N) (s : str) : list str :=
  match s with
  | [] => [[]]
  | c :: s' =>
    if c =? sep then [] :: split sep s'
    else match split sep s' with
         | piece :: pieces => (c :: piece) :: pieces
         | [] => [[c]]
         end
  end.

(** [sep.join(pieces)]. *)
Fixpoint join (sep : N) (pieces : list str) : str :=
  match pieces with
  | [] => []
  | [piece] => piece
  | piece :: pieces' => piece ++ sep :: join sep pieces'
  end.

(** ** fix_line_segments *)

(** The inner loop [while j < len(line) and ord(line[j]) >= 0x80: j += 1]. *)
Fixpoint scan_segment (fuel : nat) (line : str) (j : nat) : nat :=
  match fuel with
  | O => j
  | S fuel' =>
    match line !! j with
    | Some c => if 0x80 <=? c then scan_segment fuel' line (S j) else j
    | None => j
    end
  end.

(** The outer loop, on the index [i] and the list [result]; [line[i:j]] is
    [take (j - i) (drop i line)].  Every round moves [i] forward, so
    [length line] rounds reach the end of the line. *)
Fixpoint fix_line_segments_loop (fuel : nat) (line : str) (i : nat)
    (result : list str) : list str :=
  match fuel with
  | O => result
  | S fuel' =>
    match line !! i with
    | None => result
    | Some c =>
      if 0xC0 <=? c then
        let j := scan_segment (length line) line i in
        let segment := take (j - i) (drop i line) in
        let fixed := fix_mojibake_segment segment in
        fix_line_segments_loop fuel' line j (result ++ [fixed])
      else fix_line_segments_loop fuel' line (S i) (result ++ [[c]])
    end
  end.

Definition fix_line_segments (line : str) : str :=
  concat (fix_line_segments_loop (length line) line 0 []).

(** ** Console messages *)

Inductive msg :=
| MethodFullFile (cd : codec)
| MethodLineByLine (changes : nat)
| Replaced (desc : string) (count : nat)
| FallbackTotal (total : nat)
| ControlCharFix (correct : list N) (count : nat)
| Pass2Left (total : nat)
| FileNotFound (filepath : string)
| Processing (filepath : string)
| NoIssuesFound
| CharactersCollapsed (len_diff : Z)
| FileSize (original_len fixed_len : nat)
| GarbledRemain (total : nat) (found : list (list N * nat))
| DryRunNoChanges
| BackupWritten (backup_path : string)
| FixedSuccessfully
| Usage
| DryRunMode
| AllDone
| SomeFilesHadErrors.

(** ** fix_encoding *)

(** Strategy 1, the loop over both codecs: the first reversal of the whole
    content that is strictly shorter is returned. *)
Fixpoint full_file_fix (codecs : list codec) (content : str)
    : option (codec * str) :=
  match codecs with
  | [] => None
  | cd :: codecs' =>
    match reverse_codec cd content with
    | Some full_fix =>
      match utf8_encode full_fix with
      | Some _ =>
        if (length full_fix <? length content)%nat then Some (cd, full_fix)
        else full_file_fix codecs' content
      | None => full_file_fix codecs' content
      end
    | None => full_file_fix codecs' content
    end
  end.

(** Strategy 2 on one line, the loop over both codecs: [Some (fixed_line,
    changed)] at a [break], [None] when [fixed_line] is still [None]. *)
Fixpoint line_fix (codecs : list codec) (line : str) : option (str * bool) :=
  match codecs with
  | [] => None
  | cd :: codecs' =>
    match reverse_codec cd line with
    | Some candidate =>
      if bool_decide (candidate ≠ line) then Some (candidate, true)
      else Some (line, false)
    | None => line_fix codecs' line
    end
  end.

(** One round of [for line in lines], with the step to Strategy 3. *)
Definition fix_one_line (line : str) : str * bool :=
  match line_fix [cp1252; latin_1] line with
  | Some r => r
  | None =>
    let fixed_line := fix_line_segments line in
    (fixed_line, bool_decide (fixed_line ≠ line))
  end.

Fixpoint fix_lines (lines : list str) (fixed_lines : list str) (changes : nat)
    : list str * nat :=
  match lines with
  | [] => (fixed_lines, changes)
  | line :: lines' =>
    let '(fixed_line, changed) := fix_one_line line in
    fix_lines lines' (fixed_lines ++ [fixed_line])
              (if changed then S changes else changes)
  end.

Definition fix_encoding (content : str) : str * list msg :=
  match full_file_fix [cp1252; latin_1] content with
  | Some (cd, full_fix) => (full_fix, [MethodFullFile cd])
  | None =>
    let lines := split NL content in
    let '(fixed_lines, changes) := fix_lines lines [] 0 in
    (join NL fixed_lines,
     if (0 <? changes)%nat then [MethodLineByLine changes] else [])
  end.

(** ** apply_known_replacements *)

(** The table [replacements]: (garbled string, correct character,
    description). *)
Definition replacements : list (list N * list N * string) :=
  [ ([0xE2; 0x153; 0x201C], [0x2713], "checkmark"%string);
    ([0xE2; 0x153; 0x2022], [0x2715], "X mark"%string);
    ([0xE2; 0x153; 0x201D], [0x2713], "checkmark variant"%string);
    ([0xE2; 0x2013; 0xB6], [0x25B6], "triangle right"%string);
    ([0xE2; 0x2020; 0x2019], [0x2192], "right arrow"%string);
    ([0xE2; 0x2020; 0x90], [0x2190], "left arrow"%string);
    ([0xE2; 0x20AC; 0x201C], [0x2013], "en dash"%string);
    ([0xE2; 0x20AC; 0x201D], [0x2014], "em dash"%string);
    ([0xE2; 0x20AC; 0x2122], [0x2019], "right single quote"%string);
    ([0xE2; 0x20AC; 0x2DC], [0x2018], "left single quote"%string);
    ([0xE2; 0x20AC; 0x153], [0x201C], "left double quote"%string);
    ([0xE2; 0x20AC; 0x9D], [0x201D], "right double quote"%string);
    ([0xE2; 0x20AC; 0xA2], [0x2022], "bullet"%string);
    ([0xE2; 0x20AC; 0xA6], [0x2026], "ellipsis"%string);
    ([0xC2; 0xA3], [0xA3], "pound sign"%string) ].

(** [for garbled, correct, desc in replacements], on [result], [total] and
    the lines printed so far. *)
Fixpoint replacements_loop (table : list (list N * list N * string))
    (result : str) (total : nat) (out : list msg) : str * nat * list msg :=
  match table with
  | [] => (result, total, out)
  | (garbled, correct, desc) :: table' =>
    if contains garbled result then
      let n := count garbled result in
      replacements_loop table' (replace garbled correct result) (total + n)
                        (out ++ [Replaced desc n])
    else replacements_loop table' result total out
  end.

Definition apply_known_replacements (content : str) : str * list msg :=
  let '(result, total, out) := replacements_loop replacements content 0 [] in
  (result, if (0 <? total)%nat then out ++ [FallbackTotal total] else out).

(** ** scan_remaining_issues *)

Definition known_garbled : list (list N) :=
  [ [0xE2; 0x153]; [0xE2; 0x20AC]; [0xE2; 0x2013];
    [0xE2; 0x2020]; [0xC2; 0xA3]; [0xC3; 0xA2];
    [0xC3; 0xA9]; [0xC3; 0xA8];
    [0xC3; 0x192]; [0xC3; 0x201A] ].

Fixpoint scan_loop (patterns : list (list N)) (content : str)
    (found : list (list N * nat)) : list (list N * nat) :=
  match patterns with
  | [] => found
  | pattern :: patterns' =>
    if contains pattern content
    then scan_loop patterns' content (found ++ [(pattern, count pattern content)])
    else scan_loop patterns' content found
  end.

Definition scan_remaining_issues (content : str) : list (list N * nat) :=
  scan_loop known_garbled content [].

(** ** The three passes of fix_file over the text *)

(** The dict [control_char_fixes], in insertion order. *)
Definition control_char_fixes : list (list N * list N) :=
  [ ([0xE2; 0x2020; 0x90], [0x2190]);
    ([0xE2; 0x153; 0x8F; 0xEF; 0xB8; 0x8F], [0x270F; 0xFE0F]);
    ([0xE2; 0x153; 0x8F], [0x270F]);
    ([0xE2; 0x161; 0xA0], [0x26A0]);
    ([0xE2; 0x161; 0xA1], [0x26A1]);
    ([0xE2; 0x178; 0xB3], [0x27F3]) ].

Fixpoint control_char_loop (table : list (list N * list N)) (fixed : str)
    (out : list msg) : str * list msg :=
  match table with
  | [] => (fixed, out)
  | (garbled, correct) :: table' =>
    if contains garbled fixed then
      let n := count garbled fixed in
      control_char_loop table' (replace garbled correct fixed)
                        (out ++ [ControlCharFix correct n])
    else control_char_loop table' fixed out
  end.

(** [sum(c for _, c in remaining)]. *)
Definition sum_counts (found : list (list N * nat)) : nat :=
  foldr (λ pc acc, (pc.2 + acc)%nat) 0%nat found.

(** Passes 1 to 3 of [fix_file]: from [content] to [fixed], with the lines
    they print. *)
Definition repair (content : str) : str * list msg :=
  let '(fixed, out1) := fix_encoding content in
  let '(fixed, out2) := control_char_loop control_char_fixes fixed [] in
  let remaining := scan_remaining_issues fixed in
  match remaining with
  | [] => (fixed, out1 ++ out2)
  | _ :: _ =>
    let '(fixed, out3) := apply_known_replacements fixed in
    (fixed, out1 ++ out2 ++ [Pass2Left (sum_counts remaining)] ++ out3)
  end.

(** ** Files, console and exceptions *)

Record world := World {
  files : gmap string (list N);
  console : list msg
}.

Inductive exn :=
| UnicodeDecodeError
| UnicodeEncodeError
| FileNotFoundError
| SystemExit (status : N)
| OSError.

Inductive outcome (A : Type) :=
| Val (a : A)
| Exc (e : exn).
Arguments Val {A} a.
Arguments Exc {A} e.

(** A command runs in a world and ends with a value or an exception; what
    it did to the world before the exception stays done. *)
Definition cmd (A : Type) : Type := world → outcome A * world.

Global Instance cmd_ret : MRet cmd := λ A (a : A) w, (Val a, w).
Global Instance cmd_bind : MBind cmd := λ A B (f : A → cmd B) (m : cmd A) w,
  match m w with
  | (Val a, w') => f a w'
  | (Exc e, w') => (Exc e, w')
  end.

Definition raise {A} (e : exn) : cmd A := λ w, (Exc e, w).

Definition print (m : msg) : cmd unit :=
  λ w, (Val (), World (files w) (console w ++ [m])).

Definition print_all (ms : list msg) : cmd unit :=
  λ w, (Val (), World (files w) (console w ++ ms)).

(** [os.path.exists]. *)
Definition path_exists (path : string) : cmd bool :=
  λ w, (Val (bool_decide (is_Some (files w !! path))), w).

(** Reading in text mode turns ['\r\n'] and ['\r'] into ['\n']. *)
Fixpoint universal_newlines (s : str) : str :=
  match s with
  | [] => []
  | c :: s' =>
    if c =? CR then
      NL :: match s' with
            | d :: s'' => if d =? NL then universal_newlines s''
                          else universal_newlines s'
            | [] => []
            end
    else c :: universal_newlines s'
  end.

(** [open(path, 'r', encoding='utf-8').read()]. *)
Definition read_text (path : string) : cmd str :=
  λ w, match files w !! path with
       | None => (Exc FileNotFoundError, w)
       | Some data =>
         match utf8_decode data with
         | None => (Exc UnicodeDecodeError, w)
         | Some s => (Val (universal_newlines s), w)
         end
       end.

(** [shutil.copy2(src, dst)], as far as file contents go. *)
Definition copy2 (src dst : string) : cmd unit :=
  λ w, match files w !! src with
       | None => (Exc FileNotFoundError, w)
       | Some data => (Val (), World (<[dst := data]> (files w)) (console w))
       end.

(** [open(path, 'w', encoding='utf-8').write(text)], with ['\n'] as the
    line separator of the platform: opening truncates the file, writing
    encodes the text. *)
Definition write_text (path : string) (text : str) : cmd unit :=
  λ w, match utf8_encode text with
       | None => (Exc UnicodeEncodeError, World (<[path := []]> (files w)) (console w))
       | Some data => (Val (), World (<[path := data]> (files w)) (console w))
       end.

(** ** fix_file *)

(** The lines of [show_sample_changes] are left out of the console: they
    touch no file and no status. *)
Definition fix_file (filepath : string) (dry_run : bool) : cmd bool :=
  found ← path_exists filepath;
  if negb found then
    print (FileNotFound filepath);; mret false
  else
    print (Processing filepath);;
    content ← read_text filepath;
    let original_len := length content in
    let '(fixed, out) := repair content in
    print_all out;;
    if bool_decide (content = fixed) then
      print NoIssuesFound;; mret true
    else
      print (CharactersCollapsed (Z.of_nat original_len - Z.of_nat (length fixed)));;
      print (FileSize original_len (length fixed));;
      let final_remaining := scan_remaining_issues fixed in
      match final_remaining with
      | [] => (mret () : cmd unit)
      | _ :: _ => print (GarbledRemain (sum_counts final_remaining) final_remaining)
      end;;
      if dry_run then
        print DryRunNoChanges;; mret true
      else
        let backup_path := filepath +:+ ".backup" in
        copy2 filepath backup_path;;
        print (BackupWritten backup_path);;
        write_text filepath fixed;;
        print FixedSuccessfully;; mret true.

(** ** main *)

(** [list.remove]: the first occurrence goes. *)
Fixpoint remove_first (x : string) (l : list string) : list string :=
  match l with
  | [] => []
  | y :: l' => if bool_decide (x = y) then l' else y :: remove_first x l'
  end.

Fixpoint files_loop (args : list string) (dry_run success : bool) : cmd bool :=
  match args with
  | [] => mret success
  | filepath :: args' =>
    ok ← fix_file filepath dry_run;
    files_loop args' dry_run (if negb ok then false else success)
  end.

(** [args] is [sys.argv[1:]]. *)
Definition main (args : list string) : cmd unit :=
  match args with
  | [] => print Usage;; raise (SystemExit 1)
  | _ :: _ =>
    let dry_run := bool_decide ("--check"%string ∈ args) in
    let args := if dry_run then remove_first "--check" args else args in
    (if dry_run then print DryRunMode else (mret () : cmd unit));;
    success ← files_loop args dry_run true;
    print (if success : bool then AllDone else SomeFilesHadErrors)
  end.


(** * The program on a file system that can refuse

    In the model above the process has every right: a path of [files] is a
    regular file that it may read and write, and it may create a file at
    any path.  The module [OS] holds the same program on a file system with
    directories and permissions, where [open] and [shutil.copy2] raise
    [OSError] when the system refuses.  [OSError] stands for its
    subclasses [IsADirectoryError] and [PermissionError] and for
    [shutil.SameFileError].  The system refuses when a file is opened; an
    operation that has begun is carried out, and standard output takes
    every line, as it does in UTF-8.  Where nothing is refused the two
    models agree (lemmas [fix_file_granted] and [main_granted]). *)

(** ** Paths *)

(** What [shutil.copy2] uses of [os.path], for POSIX. *)
Module posixpath.

(** The separator ['/'], character 47. *)
Definition sep : Ascii.ascii := Ascii.ascii_of_nat 47.

Definition is_sep (c : Ascii.ascii) : bool := Ascii.eqb c sep.

(** ['/' in p]. *)
Fixpoint has_sep (p : string) : bool :=
  match p with
  | EmptyString => false
  | String c p' => is_sep c || has_sep p'
  end.

(** [os.path.basename]: what follows the last ['/']. *)
Fixpoint basename (p : string) : string :=
  match p with
  | EmptyString => EmptyString
  | String c p' =>
    if has_sep p' then basename p'
    else if is_sep c then p' else p
  end.

(** [p.endswith('/')]. *)
Fixpoint ends_with_sep (p : string) : bool :=
  match p with
  | EmptyString => false
  | String c EmptyString => is_sep c
  | String _ p' => ends_with_sep p'
  end.

(** [os.path.join(a, b)]. *)
Definition join (a b : string) : string :=
  match b with
  | String c _ =>
    if is_sep c then b
    else if bool_decide (a = EmptyString) || ends_with_sep a then a +:+ b
    else a +:+ "/" +:+ b
  | EmptyString =>
    if bool_decide (a = EmptyString) || ends_with_sep a then a +:+ b
    else a +:+ "/" +:+ b
  end.

End posixpath.

Module OS.

(** ** Files, directories and permissions *)

(** What a path names: a regular file, with its bytes and with what the
    process may do with it, or a directory. *)
Inductive node :=
| File (data : list N) (readable writable : bool)
| Directory.

(** [no_create] holds the paths at which the process cannot create a file:
    the directory is missing, or the process may not write to it. *)
Record world := World {
  nodes : gmap string node;
  no_create : gset string;
  console : list msg
}.

Definition cmd (A : Type) : Type := world → outcome A * world.

Global Instance cmd_ret : MRet cmd := λ A (a : A) w, (Val a, w).
Global Instance cmd_bind : MBind cmd := λ A B (f : A → cmd B) (m : cmd A) w,
  match m w with
  | (Val a, w') => f a w'
  | (Exc e, w') => (Exc e, w')
  end.

Definition raise {A} (e : exn) : cmd A := λ w, (Exc e, w).

Definition print (m : msg) : cmd unit :=
  λ w, (Val (), World (nodes w) (no_create w) (console w ++ [m])).

Definition print_all (ms : list msg) : cmd unit :=
  λ w, (Val (), World (nodes w) (no_create w) (console w ++ ms)).

(** The world with the node [n] at [path]. *)
Definition put (path : string) (n : node) (w : world) : world :=
  World (<[path := n]> (nodes w)) (no_create w) (console w).

(** [os.path.exists]: true of files and of directories. *)
Definition path_exists (path : string) : cmd bool :=
  λ w, (Val (bool_decide (is_Some (nodes w !! path))), w).

(** [open(path, 'r', encoding='utf-8').read()]: [open] raises on a
    directory and on a file that the process may not read, [read] on bytes
    that are not UTF-8. *)
Definition read_text (path : string) : cmd str :=
  λ w, match nodes w !! path with
       | None => (Exc FileNotFoundError, w)
       | Some Directory => (Exc OSError, w)
       | Some (File data readable _) =>
         if readable then
           match utf8_decode data with
           | None => (Exc UnicodeDecodeError, w)
           | Some s => (Val (universal_newlines s), w)
           end
         else (Exc OSError, w)
       end.

(** Whether [path] can be opened for writing: a file that the process may
    write, or no node yet where the process can create a file. *)
Definition can_write (path : string) (w : world) : bool :=
  match nodes w !! path with
  | None => negb (bool_decide (path ∈ no_create w))
  | Some (File _ _ writable) => writable
  | Some Directory => false
  end.

(** Where [shutil.copy2(src, dst)] writes: into [dst] when it is a
    directory, under the base name of [src]. *)
Definition target (src dst : string) (w : world) : string :=
  match nodes w !! dst with
  | Some Directory => posixpath.join dst (posixpath.basename src)
  | _ => dst
  end.

(** [shutil.copy2(src, dst)]: the bytes and, with the metadata, the
    permissions of [src] go to the target. *)
Definition copy2 (src dst : string) : cmd unit :=
  λ w, let dst := target src dst w in
       match nodes w !! src with
       | None => (Exc FileNotFoundError, w)
       | Some Directory => (Exc OSError, w)
       | Some (File data readable writable) =>
         if bool_decide (src = dst) then (Exc OSError, w)
         else if negb readable then (Exc OSError, w)
         else if can_write dst w
         then (Val (), put dst (File data readable writable) w)
         else (Exc OSError, w)
       end.

(** The permissions of the file at [path]; a file that the process creates
    is its own. *)
Definition permissions (path : string) (w : world) : bool * bool :=
  match nodes w !! path with
  | Some (File _ readable writable) => (readable, writable)
  | _ => (true, true)
  end.

(** [open(path, 'w', encoding='utf-8').write(text)]: [open] raises when the
    path cannot be opened for writing, and truncates the file when it can;
    [write] encodes the text. *)
Definition write_text (path : string) (text : str) : cmd unit :=
  λ w, if can_write path w then
         let '(readable, writable) := permissions path w in
         match utf8_encode text with
         | None => (Exc UnicodeEncodeError, put path (File [] readable writable) w)
         | Some data => (Val (), put path (File data readable writable) w)
         end
       else (Exc OSError, w).

(** ** fix_file *)

(** As above, the lines of [show_sample_changes] are left out of the
    console. *)
Definition fix_file (filepath : string) (dry_run : bool) : cmd bool :=
  found ← path_exists filepath;
  if negb found then
    print (FileNotFound filepath);; mret false
  else
    print (Processing filepath);;
    content ← read_text filepath;
    let original_len := length content in
    let '(fixed, out) := repair content in
    print_all out;;
    if bool_decide (content = fixed) then
      print NoIssuesFound;; mret true
    else
      print (CharactersCollapsed (Z.of_nat original_len - Z.of_nat (length fixed)));;
      print (FileSize original_len (length fixed));;
      let final_remaining := scan_remaining_issues fixed in
      match final_remaining with
      | [] => (mret () : cmd unit)
      | _ :: _ => print (GarbledRemain (sum_counts final_remaining) final_remaining)
      end;;
      if dry_run then
        print DryRunNoChanges;; mret true
      else
        let backup_path := filepath +:+ ".backup" in
        copy2 filepath backup_path;;
        print (BackupWritten backup_path);;
        write_text filepath fixed;;
        print FixedSuccessfully;; mret true.

(** ** main *)

Fixpoint files_loop (args : list string) (dry_run success : bool) : cmd bool :=
  match args with
  | [] => mret success
  | filepath :: args' =>
    ok ← fix_file filepath dry_run;
    files_loop args' dry_run (if negb ok then false else success)
  end.

Definition main (args : list string) : cmd unit :=
  match args with
  | [] => print Usage;; raise (SystemExit 1)
  | _ :: _ =>
    let dry_run := bool_decide ("--check"%string ∈ args) in
    let args := if dry_run then remove_first "--check" args else args in
    (if dry_run then print DryRunMode else (mret () : cmd unit));;
    success ← files_loop args dry_run true;
    print (if success : bool then AllDone else SomeFilesHadErrors)
  end.

End OS.

(** The world of the first model as a world of [OS]: every path of [files]
    is a file that the process may read and write, and a file can be
    created anywhere. *)
Definition granted (w : world) : OS.world :=
  OS.World ((λ data, OS.File data true true) <$> files w) ∅ (console w).

(** * Notions used to state the properties *)

(** The number of occurrences of the character [x]. *)
Fixpoint occurrences (x : N) (s : list N) : nat :=
  match s with
  | [] => 0
  | c :: s' => if c =? x then S (occurrences x s') else occurrences x s'
  end.

(** [first_reversal text cd once]: [cd] is the first of Windows-1252 and
    Latin-1, in that order, with which [text] can be encoded and the bytes
    decoded as UTF-8, and [once] is what the decoding gives. *)
Inductive first_reversal (text : list N) : codec → list N → Prop :=
| first_reversal_cp1252 once :
    reverse_codec cp1252 text = Some once →
    first_reversal text cp1252 once
| first_reversal_latin_1 once :
    reverse_codec cp1252 text = None →
    reverse_codec latin_1 text = Some once →
    first_reversal text latin_1 once.

(** [collapses cd once twice]: the second round on [once] succeeds with
    [twice], which differs from [once] and is strictly shorter. *)
Definition collapses (cd : codec) (once twice : list N) : Prop :=
  reverse_codec cd once = Some twice ∧ twice ≠ once ∧
  (length twice < length once)%nat.

(** The length of the longest prefix of characters from U+0080 up. *)
Fixpoint run_length (l : list N) : nat :=
  match l with
  | c :: l' => if 0x80 <=? c then S (run_length l') else 0
  | [] => 0
  end.

(** [fix_line_segments] told on the rest of the line instead of an index:
    a character from U+00C0 up opens a segment that takes the whole run of
    characters from U+0080 up; any other character is kept. *)
Fixpoint splice (fuel : nat) (l : list N) : list N :=
  match fuel, l with
  | S fuel', c :: l' =>
    if 0xC0 <=? c then
      fix_mojibake_segment (take (run_length l) l)
        ++ splice fuel' (drop (run_length l) l)
    else c :: splice fuel' l'
  | _, _ => []
  end.

(** [s * n] of Python: [n] copies of [s] in a row. *)
Definition times (n : nat) (s : list N) : list N := concat (replicate n s).

(** [diverge p g]: [p] and [g] differ at a position that both have. *)
Fixpoint diverge (p g : list N) : bool :=
  match p, g with
  | x :: p', y :: g' => negb (x =? y) || diverge p' g'
  | _, _ => false
  end.

(** [never_in p g]: a test on two strings that is enough for [p] to occur
    in no repetition of [g].  The first character of [p] is not in the tail
    of [g], and either it is not the head of [g] or the tails diverge. *)
Definition never_in (p g : list N) : bool :=
  match p, g with
  | a :: p', b :: g' =>
    negb (bool_decide (a ∈ g')) && (negb (a =? b) || diverge p' g')
  | _, _ => false
  end.

(** The sum of a list of numbers. *)
Definition total (l : list nat) : nat := foldr Nat.add 0%nat l.

(** What the entries of both replacement tables have in common: the garbled
    string is not empty, it and the correct string are made of characters
    from U+0080 up, and the correct string can be written as UTF-8. *)
Definition entry_ok (garbled correct : list N) : bool :=
  match garbled with
  | [] => false
  | _ :: _ =>
    forallb (λ c, 0x80 <=? c) garbled
    && forallb (λ c, (0x80 <=? c) && scalar c) correct
  end.

(** [accepted content cd candidate]: Strategy 1 can take [candidate] from
    the codec [cd]: it is the reversal of the whole content, done once, and
    it is strictly shorter than the content. *)
Definition accepted (content : list N) (cd : codec) (candidate : list N) : Prop :=
  reverse_codec cd content = Some candidate ∧
  (length candidate < length content)%nat.

(** The lines that [fix_file] prints about a changed file before it
    writes. *)
Definition change_report (content fixed : list N) : list msg :=
  [CharactersCollapsed (Z.of_nat (length content) - Z.of_nat (length fixed));
   FileSize (length content) (length fixed)]
  ++ match scan_remaining_issues fixed with
     | [] => []
     | found => [GarbledRemain (sum_counts found) found]
     end.

(** What the three passes print on [n] copies of the garbled string of a
    table entry, by the description of the entry: the control-character
    pass repairs and counts the left arrow, the known-replacement pass
    repairs and counts the right double quote, and the reversal of the
    whole content with Windows-1252 repairs the others without a count. *)
Definition expected_report (desc : string) (correct : list N) (n : nat)
    : list msg :=
  if String.eqb desc "left arrow" then [ControlCharFix correct n]
  else if String.eqb desc "right double quote"
  then [Pass2Left n; Replaced desc n; FallbackTotal n]
  else [MethodFullFile cp1252].

(** The characters below U+0080 of a text, in their order. *)
Definition ascii_part (s : list N) : list N := filter (λ c, c < 0x80) s.

(** * Notions used to state further properties *)

(** [shrunk s s']: [s'] is [s] itself or a strictly shorter string. *)
Definition shrunk (s s' : list N) : Prop :=
  s' = s ∨ (length s' < length s)%nat.

(** The correct string of a table entry is shorter than the garbled one. *)
Definition entry_shorter (garbled correct : list N) : bool :=
  (length correct <? length garbled)%nat.

(** The lines of [content] that Strategy 2 and 3 change. *)
Definition changed_lines (content : list N) : list (list N) :=
  filter (λ line, (fix_one_line line).1 ≠ line) (split NL content).

(** The code point of a byte in a table of (byte, code point). *)
Fixpoint char_of (table : list (N * N)) (b : N) : option N :=
  match table with
  | [] => None
  | (b', c) :: table' => if b =? b' then Some c else char_of table' b
  end.

(** [data.decode('cp1252')] on one byte: the five undefined bytes raise. *)
Definition cp1252_decode_byte (b : N) : option N :=
  if b <? 0x80 then Some b
  else if (0xA0 <=? b) && (b <=? 0xFF) then Some b
  else char_of cp1252_high b.

Definition latin_1_decode_byte (b : N) : option N :=
  if b <? 0x100 then Some b else None.

Definition decode_byte (cd : codec) : N → option N :=
  match cd with
  | cp1252 => cp1252_decode_byte
  | latin_1 => latin_1_decode_byte
  end.

(** [data.decode(codec)], strict. *)
Definition decode (cd : codec) (data : list N) : option (list N) :=
  mapM (decode_byte cd) data.

(** The problem that the program is written for, as its docstring tells
    it: the UTF-8 bytes of a text were read with a legacy codec.  (The
    garbled text was then written as UTF-8, which is how the program reads
    it.) *)
Definition garble (cd : codec) (text : list N) : option (list N) :=
  utf8_encode text ≫= decode cd.

(** [sparse s]: no two characters from U+0080 up stand next to each other
    in [s], as in text whose accented letters are correct already. *)
Fixpoint sparse (s : list N) : bool :=
  match s with
  | a :: (b :: _) as s' => negb ((0x80 <=? a) && (0x80 <=? b)) && sparse s'
  | _ => true
  end.

(** [two_high p]: [p] starts with two characters from U+0080 up. *)
Definition two_high (p : list N) : bool :=
  match p with
  | a :: b :: _ => (0x80 <=? a) && (0x80 <=? b)
  | _ => false
  end.

(** The lines "Replaced desc: xn" of a list of (description, count), and
    the line of the total after them when there are any. *)
Definition replaced_report (counts : list (string * nat)) : list msg :=
  ((λ dn, Replaced dn.1 dn.2) <$> counts)
  ++ match counts with
     | [] => []
     | _ :: _ => [FallbackTotal (total (snd <$> counts))]
     end.

(** ** show_sample_changes *)

(** What [show_sample_changes] prints: the three lines "Line n:", "WAS:"
    and "NOW:" of a sample as one message, and the two closing lines. *)
Inductive sample_msg :=
| SampleLine (number : nat) (was now : list N)
| MoreLinesChanged (n : nat)
| LinesChangedTotal (n : nat).

(** [c.isspace()] for one character: the white space of Unicode. *)
Definition is_space (c : N) : bool :=
  ((0x09 <=? c) && (c <=? 0x0D)) || ((0x1C <=? c) && (c <=? 0x20))
  || (c =? 0x85) || (c =? 0xA0) || (c =? 0x1680)
  || ((0x2000 <=? c) && (c <=? 0x200A))
  || (c =? 0x2028) || (c =? 0x2029) || (c =? 0x202F) || (c =? 0x205F)
  || (c =? 0x3000).

(** [s.lstrip()] and [s.strip()]. *)
Fixpoint lstrip (s : list N) : list N :=
  match s with
  | c :: s' => if is_space c then lstrip s' else s
  | [] => []
  end.

Definition strip (s : list N) : list N :=
  reverse (lstrip (reverse (lstrip s))).

Definition max_show : nat := 10.

(** The loop [for i in range(min(len(orig_lines), len(fixed_lines)))], on
    the lines that are left, the index [i], [shown] and the lines
    printed; [s[:80]] is [take 80 s]. *)
Fixpoint sample_loop (i : nat) (orig_lines fixed_lines : list (list N))
    (shown : nat) (out : list sample_msg) : nat * list sample_msg :=
  match orig_lines, fixed_lines with
  | orig_line :: orig_lines', fixed_line :: fixed_lines' =>
    if bool_decide (orig_line ≠ fixed_line) then
      if (S shown <=? max_show)%nat then
        let orig_stripped := take 80 (strip orig_line) in
        let fixed_stripped := take 80 (strip fixed_line) in
        match orig_stripped, fixed_stripped with
        | _ :: _, _ :: _ =>
          sample_loop (S i) orig_lines' fixed_lines' (S shown)
            (out ++ [SampleLine (S i) orig_stripped fixed_stripped])
        | _, _ => sample_loop (S i) orig_lines' fixed_lines' (S shown) out
        end
      else sample_loop (S i) orig_lines' fixed_lines' (S shown) out
    else sample_loop (S i) orig_lines' fixed_lines' shown out
  | _, _ => (shown, out)
  end.

Definition show_sample_changes (original fixed : list N) : list sample_msg :=
  let orig_lines := split NL original in
  let fixed_lines := split NL fixed in
  let '(shown, out) := sample_loop 0 orig_lines fixed_lines 0 [] in
  if (max_show <? shown)%nat then out ++ [MoreLinesChanged (shown - max_show)]
  else if (0 <? shown)%nat then out ++ [LinesChangedTotal shown]
  else out.

(** The number of positions at which two lists of lines differ, as far as
    both go. *)
Definition differing (orig_lines fixed_lines : list (list N)) : nat :=
  length (filter (λ p, p.1 ≠ p.2) (zip orig_lines fixed_lines)).

(** [sample_at i orig_lines fixed_lines m]: the message [m] is the sample
    of a position at which the lines differ, numbered from [i + 1], with
    both lines stripped, cut at 80 characters and not empty. *)
Definition sample_at (i : nat) (orig_lines fixed_lines : list (list N))
    (m : sample_msg) : Prop :=
  ∃ n o f,
    orig_lines !! n = Some o ∧ fixed_lines !! n = Some f ∧ o ≠ f ∧
    m = SampleLine (S (i + n)) (take 80 (strip o)) (take 80 (strip f)) ∧
    take 80 (strip o) ≠ [] ∧ take 80 (strip f) ≠ [].

(** The closing line for [k] lines changed. *)
Definition summary (k : nat) : list sample_msg :=
  if (max_show <? k)%nat then [MoreLinesChanged (k - max_show)]
  else if (0 <? k)%nat then [LinesChangedTotal k]
  else [].

(** [replaced_in table content result counts]: going through [table] in
    its order, an entry whose garbled string does not occur in the text as
    it then is leaves the text and adds nothing to [counts]; an entry whose
    garbled string occurs has every occurrence replaced and adds its
    description with the number of occurrences; [result] is the text at the
    end. *)
Inductive replaced_in :
    list (list N * list N * string) → list N → list N → list (string * nat)
    → Prop :=
| replaced_in_nil content :
    replaced_in [] content content []
| replaced_in_absent garbled correct desc table content result counts :
    contains garbled content = false →
    replaced_in table content result counts →
    replaced_in ((garbled, correct, desc) :: table) content result counts
| replaced_in_present garbled correct desc table content result counts :
    contains garbled content = true →
    replaced_in table (replace garbled correct content) result counts →
    replaced_in ((garbled, correct, desc) :: table) content result
                ((desc, count garbled content) :: counts).

(** ** Notions for the file system that can refuse *)









(** * Properties *)

(** ** Tactics for the boolean tests of the model *)

Ltac unbool :=
  repeat match goal with
  | H : (_ && _) = true |- _ => apply andb_true_iff in H; destruct H
  | H : negb _ = true |- _ => apply negb_true_iff in H
  | H : negb _ = false |- _ => apply negb_false_iff in H
  | H : (_ <=? _) = true |- _ => apply N.leb_le in H
  | H : (_ <=? _) = false |- _ => apply N.leb_gt in H
  | H : (_ <? _) = true |- _ => apply N.ltb_lt in H
  | H : (_ <? _) = false |- _ => apply N.ltb_ge in H
  | H : (_ =? _) = true |- _ => apply N.eqb_eq in H
  | H : (_ =? _) = false |- _ => apply N.eqb_neq in H
  end.

(** Case analysis on the numeric tests that occur in the goal. *)
Ltac split_tests :=
  repeat match goal with
  | |- context [?a <=? ?b] => destruct (N.leb_spec a b)
  | |- context [?a <? ?b] => destruct (N.ltb_spec a b)
  | |- context [?a =? ?b] => destruct (N.eqb_spec a b)
  end.

(** ** The UTF-8 decoder *)

(** Induction along the way the decoder reads its input: one character of
    one to four bytes at a time. *)
Lemma utf8_decode_ind (P : list N → list N → Prop) :
  P [] [] →
  (∀ b0 r s, b0 < 0x80 → utf8_decode r = Some s → P r s →
     P (b0 :: r) (b0 :: s)) →
  (∀ b0 b1 r s, 0xC2 ≤ b0 ≤ 0xDF → is_cont b1 = true →
     utf8_decode r = Some s → P r s →
     P (b0 :: b1 :: r) (cp2 b0 b1 :: s)) →
  (∀ b0 b1 b2 r s, 0xE0 ≤ b0 ≤ 0xEF → is_cont b1 = true → is_cont b2 = true →
     0x800 ≤ cp3 b0 b1 b2 → is_surrogate (cp3 b0 b1 b2) = false →
     utf8_decode r = Some s → P r s →
     P (b0 :: b1 :: b2 :: r) (cp3 b0 b1 b2 :: s)) →
  (∀ b0 b1 b2 b3 r s, 0xF0 ≤ b0 ≤ 0xF4 →
     is_cont b1 = true → is_cont b2 = true → is_cont b3 = true →
     0x10000 ≤ cp4 b0 b1 b2 b3 ≤ 0x10FFFF →
     utf8_decode r = Some s → P r s →
     P (b0 :: b1 :: b2 :: b3 :: r) (cp4 b0 b1 b2 b3 :: s)) →
  ∀ bs s, utf8_decode bs = Some s → P bs s.
Proof.
  intros H0 H1 H2 H3 H4 bs.
  remember (length bs) as n eqn:Hn. revert bs Hn.
  induction n as [n IH] using lt_wf_ind. intros bs Hn s Hs.
  destruct bs as [|b0 r0]; simpl in Hs.
  { injection Hs as <-. exact H0. }
  destruct (b0 <? 0x80) eqn:E1.
  { apply fmap_Some in Hs as (s' & Hs' & ->). unbool.
    apply H1; auto. eapply IH; [|reflexivity|exact Hs']. subst n; simpl; lia. }
  destruct ((0xC2 <=? b0) && (b0 <=? 0xDF)) eqn:E2.
  { destruct r0 as [|b1 r1]; [discriminate|].
    destruct (is_cont b1) eqn:C1; [|discriminate].
    apply fmap_Some in Hs as (s' & Hs' & ->). unbool.
    apply H2; auto. eapply IH; [|reflexivity|exact Hs']. subst n; simpl; lia. }
  destruct ((0xE0 <=? b0) && (b0 <=? 0xEF)) eqn:E3.
  { destruct r0 as [|b1 [|b2 r2]]; try discriminate.
    destruct (is_cont b1 && is_cont b2 && (0x800 <=? cp3 b0 b1 b2)
              && negb (is_surrogate (cp3 b0 b1 b2))) eqn:C; [|discriminate].
    apply fmap_Some in Hs as (s' & Hs' & ->). unbool.
    apply H3; auto. eapply IH; [|reflexivity|exact Hs']. subst n; simpl; lia. }
  destruct ((0xF0 <=? b0) && (b0 <=? 0xF4)) eqn:E4; [|discriminate].
  destruct r0 as [|b1 [|b2 [|b3 r3]]]; try discriminate.
  destruct (is_cont b1 && is_cont b2 && is_cont b3
            && (0x10000 <=? cp4 b0 b1 b2 b3) && (cp4 b0 b1 b2 b3 <=? 0x10FFFF)) eqn:C;
    [|discriminate].
  apply fmap_Some in Hs as (s' & Hs' & ->). unbool.
  apply H4; auto. eapply IH; [|reflexivity|exact Hs']. subst n; simpl; lia.
Qed.

Lemma is_cont_range b : is_cont b = true → 0x80 ≤ b ≤ 0xBF.
Proof. unfold is_cont. intros. unbool. lia. Qed.

(** Decoding reads a valid prefix without regard to what follows. *)
Lemma utf8_decode_app bs s :
  utf8_decode bs = Some s →
  ∀ bs', utf8_decode (bs ++ bs') = (s ++.) <$> utf8_decode bs'.
Proof.
  revert bs s. apply (utf8_decode_ind
    (λ bs s, ∀ bs', utf8_decode (bs ++ bs') = (s ++.) <$> utf8_decode bs')).
  - intros bs'. simpl. by destruct (utf8_decode bs').
  - intros b0 r s Hb _ IH bs'. simpl.
    apply N.ltb_lt in Hb. rewrite Hb, IH. by destruct (utf8_decode bs').
  - intros b0 b1 r s Hb C1 _ IH bs'. simpl.
    replace (b0 <? 0x80) with false by (symmetry; apply N.ltb_ge; lia).
    replace ((0xC2 <=? b0) && (b0 <=? 0xDF)) with true
      by (symmetry; apply andb_true_iff; split; apply N.leb_le; lia).
    rewrite C1, IH. by destruct (utf8_decode bs').
  - intros b0 b1 b2 r s Hb C1 C2 Hc Hs _ IH bs'. simpl.
    replace (b0 <? 0x80) with false by (symmetry; apply N.ltb_ge; lia).
    replace ((0xC2 <=? b0) && (b0 <=? 0xDF)) with false
      by (symmetry; apply andb_false_iff; right; apply N.leb_gt; lia).
    replace ((0xE0 <=? b0) && (b0 <=? 0xEF)) with true
      by (symmetry; apply andb_true_iff; split; apply N.leb_le; lia).
    apply N.leb_le in Hc. rewrite C1, C2, Hc, Hs, IH. simpl.
    by destruct (utf8_decode bs').
  - intros b0 b1 b2 b3 r s Hb C1 C2 C3 [Hc1 Hc2] _ IH bs'. simpl.
    replace (b0 <? 0x80) with false by (symmetry; apply N.ltb_ge; lia).
    replace ((0xC2 <=? b0) && (b0 <=? 0xDF)) with false
      by (symmetry; apply andb_false_iff; right; apply N.leb_gt; lia).
    replace ((0xE0 <=? b0) && (b0 <=? 0xEF)) with false
      by (symmetry; apply andb_false_iff; right; apply N.leb_gt; lia).
    replace ((0xF0 <=? b0) && (b0 <=? 0xF4)) with true
      by (symmetry; apply andb_true_iff; split; apply N.leb_le; lia).
    apply N.leb_le in Hc1, Hc2. rewrite C1, C2, C3, Hc1, Hc2, IH. simpl.
    by destruct (utf8_decode bs').
Qed.

(** What the decoder returns can be encoded again: no surrogate, nothing
    above U+10FFFF. *)
Lemma utf8_decode_scalar bs s :
  utf8_decode bs = Some s → Forall (λ c, scalar c = true) s.
Proof.
  revert bs s. apply utf8_decode_ind.
  - constructor.
  - intros b0 r s Hb _ IH. constructor; [|done].
    unfold scalar, is_surrogate. split_tests; simpl; try done; lia.
  - intros b0 b1 r s Hb C1 _ IH. constructor; [|done].
    apply is_cont_range in C1. unfold scalar, is_surrogate, cp2.
    split_tests; simpl; try done; lia.
  - intros b0 b1 b2 r s Hb C1 C2 Hc Hs _ IH. constructor; [|done].
    apply is_cont_range in C1, C2. unfold scalar. rewrite Hs.
    unfold cp3 in *. split_tests; simpl; try done; lia.
  - intros b0 b1 b2 b3 r s Hb C1 C2 C3 Hc _ IH. constructor; [|done].
    unfold scalar, is_surrogate. split_tests; simpl; try done; lia.
Qed.

Lemma utf8_encode_char_scalar c :
  scalar c = true → is_Some (utf8_encode_char c).
Proof.
  unfold scalar, utf8_encode_char. intros H. unbool.
  rewrite H0. split_tests; eauto; lia.
Qed.

Lemma utf8_encode_scalar s :
  Forall (λ c, scalar c = true) s → is_Some (utf8_encode s).
Proof.
  intros H. unfold utf8_encode.
  assert (Hm : is_Some (mapM utf8_encode_char s)).
  { apply mapM_is_Some. eapply Forall_impl; [exact H|].
    intros c Hc. by apply utf8_encode_char_scalar. }
  destruct Hm as [l ->]. by eexists.
Qed.

(** ** Counting one character *)

Lemma occurrences_app x s t :
  occurrences x (s ++ t) = (occurrences x s + occurrences x t)%nat.
Proof. induction s as [|c s IH]; simpl; [done|]. destruct (c =? x); lia. Qed.

Lemma occurrences_0 x s : occurrences x s = 0%nat ↔ x ∉ s.
Proof.
  induction s as [|c s IH]; simpl.
  - split; [intros _; apply not_elem_of_nil|done].
  - rewrite not_elem_of_cons. destruct (N.eqb_spec c x); split.
    + discriminate.
    + intros [? _]. congruence.
    + intros. split; [congruence|]. by apply IH.
    + intros [_ ?]. by apply IH.
Qed.

(** ** Encoding with a legacy codec *)

Lemma byte_of_elem table c b : byte_of table c = Some b → (b, c) ∈ table.
Proof.
  induction table as [|[b' c'] table IH]; simpl; [done|].
  destruct (N.eqb_spec c c') as [->|_].
  - intros [= ->]. left.
  - intros. right. auto.
Qed.

Lemma cp1252_high_range b c :
  (b, c) ∈ cp1252_high → 0x80 ≤ b ≤ 0x9F ∧ 0x100 ≤ c.
Proof.
  intros H. unfold cp1252_high in H.
  repeat (apply elem_of_cons in H as [[= -> ->]|H]; [lia|]).
  by apply elem_of_nil in H.
Qed.

(** ASCII is its own byte in both codecs. *)
Lemma encode_char_ascii cd c : c < 0x80 → encode_char cd c = Some c.
Proof.
  intros H. destruct cd; simpl.
  - unfold cp1252_encode_char. apply N.ltb_lt in H. by rewrite H.
  - unfold latin_1_encode_char.
    replace (c <? 0x100) with true; [done|]. symmetry. apply N.ltb_lt. lia.
Qed.

(** Everything else becomes a byte from 0x80 up. *)
Lemma encode_char_high cd c b :
  encode_char cd c = Some b → 0x80 ≤ c → 0x80 ≤ b ≤ 0xFF.
Proof.
  destruct cd; simpl.
  - unfold cp1252_encode_char. intros H Hc.
    destruct (N.ltb_spec c 0x80); [lia|].
    destruct ((0xA0 <=? c) && (c <=? 0xFF)) eqn:E.
    + injection H as <-. unbool. lia.
    + apply byte_of_elem, cp1252_high_range in H. lia.
  - unfold latin_1_encode_char. intros H Hc.
    destruct (N.ltb_spec c 0x100); [|done]. injection H as <-. lia.
Qed.

Lemma encode_cons cd c s :
  encode cd (c :: s) = b ← encode_char cd c; bs ← encode cd s; Some (b :: bs).
Proof. reflexivity. Qed.

Lemma encode_app cd s t :
  encode cd (s ++ t) = bs ← encode cd s; bt ← encode cd t; Some (bs ++ bt).
Proof.
  induction s as [|c s IH].
  - simpl. by destruct (encode cd t).
  - rewrite <- app_comm_cons, !encode_cons, IH. destruct (encode_char cd c); simpl; [|done].
    destruct (encode cd s); simpl; [|done]. by destruct (encode cd t).
Qed.

Lemma encode_Some_inv cd c s bs :
  encode cd (c :: s) = Some bs →
  ∃ b bs', encode_char cd c = Some b ∧ encode cd s = Some bs' ∧ bs = b :: bs'.
Proof.
  rewrite encode_cons. destruct (encode_char cd c) as [b|]; simpl; [|done].
  destruct (encode cd s) as [bs'|]; simpl; [|done].
  intros [= <-]. eauto.
Qed.

(** A character that the codec cannot encode makes the whole call fail. *)
Lemma encode_None cd s c :
  c ∈ s → encode_char cd c = None → encode cd s = None.
Proof.
  intros Hin Hc. apply mapM_None, Exists_exists. eauto.
Qed.

Lemma encode_occurrences cd x s bs :
  x < 0x80 → encode cd s = Some bs → occurrences x bs = occurrences x s.
Proof.
  intros Hx. revert bs. induction s as [|c s IH]; intros bs H.
  - by injection H as <-.
  - apply encode_Some_inv in H as (b & bs' & Hb & Hs & ->). simpl.
    rewrite (IH _ Hs). destruct (N.ltb_spec c 0x80) as [Hc|Hc].
    + rewrite encode_char_ascii in Hb by done. by injection Hb as <-.
    + apply encode_char_high in Hb; [|done].
      destruct (N.eqb_spec b x); [lia|]. destruct (N.eqb_spec c x); [lia|done].
Qed.

Lemma encode_ascii cd s : Forall (λ c, c < 0x80) s → encode cd s = Some s.
Proof.
  induction 1 as [|c s Hc _ IH]; [done|].
  by rewrite encode_cons, encode_char_ascii, IH.
Qed.

Lemma encode_high cd s bs :
  encode cd s = Some bs → Forall (λ c, 0x80 ≤ c) s → Forall (λ b, 0x80 ≤ b) bs.
Proof.
  revert bs. induction s as [|c s IH]; intros bs H Hs.
  - injection H as <-. constructor.
  - apply encode_Some_inv in H as (b & bs' & Hb & Hs' & ->).
    inversion Hs; subst. constructor; [|by apply IH].
    apply encode_char_high in Hb; [lia|done].
Qed.

(** ** More on the UTF-8 codec *)

(** ASCII characters are exactly the ASCII bytes: decoding neither makes
    nor loses one. *)
Lemma utf8_decode_occurrences x bs s :
  x < 0x80 → utf8_decode bs = Some s → occurrences x s = occurrences x bs.
Proof.
  intros Hx. revert bs s. apply utf8_decode_ind.
  - done.
  - intros b0 r s _ _ IH. simpl. by rewrite IH.
  - intros b0 b1 r s Hb C1 _ IH. apply is_cont_range in C1. simpl.
    rewrite IH. unfold cp2. split_tests; try done; lia.
  - intros b0 b1 b2 r s Hb C1 C2 Hc _ _ IH. apply is_cont_range in C1, C2.
    simpl. rewrite IH. split_tests; try done; lia.
  - intros b0 b1 b2 b3 r s Hb C1 C2 C3 Hc _ IH.
    apply is_cont_range in C1, C2, C3.
    simpl. rewrite IH. split_tests; try done; lia.
Qed.

Lemma utf8_decode_high bs s :
  utf8_decode bs = Some s →
  Forall (λ b, 0x80 ≤ b) bs → Forall (λ c, 0x80 ≤ c) s.
Proof.
  revert bs s. apply (utf8_decode_ind
    (λ bs s, Forall (λ b, 0x80 ≤ b) bs → Forall (λ c, 0x80 ≤ c) s)).
  - done.
  - intros b0 r s Hb _ _ H. inversion H; subst. lia.
  - intros b0 b1 r s Hb C1 _ IH H. apply is_cont_range in C1.
    do 2 (apply Forall_cons in H as [_ H]).
    constructor; [unfold cp2; lia|auto].
  - intros b0 b1 b2 r s Hb C1 C2 Hc _ _ IH H.
    do 3 (apply Forall_cons in H as [_ H]). constructor; [lia|auto].
  - intros b0 b1 b2 b3 r s Hb C1 C2 C3 Hc _ IH H.
    do 4 (apply Forall_cons in H as [_ H]). constructor; [lia|auto].
Qed.

Lemma utf8_decode_ascii bs :
  Forall (λ b, b < 0x80) bs → utf8_decode bs = Some bs.
Proof.
  induction 1 as [|b bs Hb _ IH]; [done|].
  simpl. apply N.ltb_lt in Hb. by rewrite Hb, IH.
Qed.

(** Decoding never makes the text longer than the bytes. *)
Lemma utf8_decode_length bs s :
  utf8_decode bs = Some s → (length s ≤ length bs)%nat.
Proof.
  revert bs s. apply utf8_decode_ind; intros; simpl; lia.
Qed.

Lemma div_0x1000 c : c / 0x1000 = c / 0x40 / 0x40.
Proof. by rewrite N.Div0.div_div. Qed.

Lemma div_0x40000 c : c / 0x40000 = c / 0x40 / 0x40 / 0x40.
Proof. by rewrite !N.Div0.div_div. Qed.

Ltac div_facts c :=
  pose proof (N.div_mod c 0x40 ltac:(done));
  pose proof (N.mod_lt c 0x40 ltac:(done)).

(** [lia] is to know division by a constant in the next proof. *)
Ltac Zify.zify_post_hook ::= Z.div_mod_to_equations.

(** Decoding takes back what encoding one character wrote. *)
Lemma utf8_decode_encode_char c cb rest :
  utf8_encode_char c = Some cb →
  utf8_decode (cb ++ rest) = (c ::.) <$> utf8_decode rest.
Proof.
  unfold utf8_encode_char.
  destruct (N.ltb_spec c 0x80) as [H1|H1].
  { intros [= <-]. simpl. apply N.ltb_lt in H1. by rewrite H1. }
  destruct (N.ltb_spec c 0x800) as [H2|H2].
  { intros [= <-]. div_facts c.
    assert (E : cp2 (0xC0 + c / 0x40) (0x80 + c mod 0x40) = c)
      by (unfold cp2; lia).
    simpl. unfold is_cont. rewrite E.
    replace (0xC0 + c / 0x40 <? 0x80) with false
      by (symmetry; apply N.ltb_ge; lia).
    replace ((0xC2 <=? 0xC0 + c / 0x40) && (0xC0 + c / 0x40 <=? 0xDF)) with true
      by (symmetry; apply andb_true_iff; split; apply N.leb_le; lia).
    replace ((0x80 <=? 0x80 + c mod 0x40) && (0x80 + c mod 0x40 <=? 0xBF)) with true
      by (symmetry; apply andb_true_iff; split; apply N.leb_le; lia).
    done. }
  destruct (N.ltb_spec c 0x10000) as [H3|H3].
  { destruct (is_surrogate c) eqn:Hs; [done|]. intros [= <-].
    rewrite div_0x1000. div_facts c. div_facts (c / 0x40).
    assert (E : cp3 (0xE0 + c / 0x40 / 0x40) (0x80 + (c / 0x40) mod 0x40)
                    (0x80 + c mod 0x40) = c) by (unfold cp3; lia).
    simpl. unfold is_cont. rewrite E, Hs.
    replace (0xE0 + c / 0x40 / 0x40 <? 0x80) with false
      by (symmetry; apply N.ltb_ge; lia).
    replace ((0xC2 <=? 0xE0 + c / 0x40 / 0x40) && (0xE0 + c / 0x40 / 0x40 <=? 0xDF))
      with false by (symmetry; apply andb_false_iff; right; apply N.leb_gt; lia).
    replace ((0xE0 <=? 0xE0 + c / 0x40 / 0x40) && (0xE0 + c / 0x40 / 0x40 <=? 0xEF))
      with true by (symmetry; apply andb_true_iff; split; apply N.leb_le; lia).
    replace ((0x80 <=? 0x80 + (c / 0x40) mod 0x40) && (0x80 + (c / 0x40) mod 0x40 <=? 0xBF))
      with true by (symmetry; apply andb_true_iff; split; apply N.leb_le; lia).
    replace ((0x80 <=? 0x80 + c mod 0x40) && (0x80 + c mod 0x40 <=? 0xBF)) with true
      by (symmetry; apply andb_true_iff; split; apply N.leb_le; lia).
    replace (0x800 <=? c) with true by (symmetry; apply N.leb_le; lia).
    done. }
  destruct (N.leb_spec c 0x10FFFF) as [H4|H4]; [|done].
  intros [= <-].
  rewrite div_0x40000, div_0x1000.
  div_facts c. div_facts (c / 0x40). div_facts (c / 0x40 / 0x40).
  assert (E : cp4 (0xF0 + c / 0x40 / 0x40 / 0x40)
                  (0x80 + (c / 0x40 / 0x40) mod 0x40)
                  (0x80 + (c / 0x40) mod 0x40) (0x80 + c mod 0x40) = c)
    by (unfold cp4; lia).
  simpl. unfold is_cont. rewrite E.
  replace (0xF0 + c / 0x40 / 0x40 / 0x40 <? 0x80) with false
    by (symmetry; apply N.ltb_ge; lia).
  replace ((0xC2 <=? 0xF0 + c / 0x40 / 0x40 / 0x40)
           && (0xF0 + c / 0x40 / 0x40 / 0x40 <=? 0xDF))
    with false by (symmetry; apply andb_false_iff; right; apply N.leb_gt; lia).
  replace ((0xE0 <=? 0xF0 + c / 0x40 / 0x40 / 0x40)
           && (0xF0 + c / 0x40 / 0x40 / 0x40 <=? 0xEF))
    with false by (symmetry; apply andb_false_iff; right; apply N.leb_gt; lia).
  replace ((0xF0 <=? 0xF0 + c / 0x40 / 0x40 / 0x40)
           && (0xF0 + c / 0x40 / 0x40 / 0x40 <=? 0xF4))
    with true by (symmetry; apply andb_true_iff; split; apply N.leb_le; lia).
  replace ((0x80 <=? 0x80 + (c / 0x40 / 0x40) mod 0x40)
           && (0x80 + (c / 0x40 / 0x40) mod 0x40 <=? 0xBF))
    with true by (symmetry; apply andb_true_iff; split; apply N.leb_le; lia).
  replace ((0x80 <=? 0x80 + (c / 0x40) mod 0x40) && (0x80 + (c / 0x40) mod 0x40 <=? 0xBF))
    with true by (symmetry; apply andb_true_iff; split; apply N.leb_le; lia).
  replace ((0x80 <=? 0x80 + c mod 0x40) && (0x80 + c mod 0x40 <=? 0xBF)) with true
    by (symmetry; apply andb_true_iff; split; apply N.leb_le; lia).
  replace (0x10000 <=? c) with true by (symmetry; apply N.leb_le; lia).
  replace (c <=? 0x10FFFF) with true by (symmetry; apply N.leb_le; lia).
  done.
Qed.

Ltac Zify.zify_post_hook ::= idtac.

(** A file written by [write_text] reads back as the text written. *)
Lemma utf8_decode_encode s bs :
  utf8_encode s = Some bs → utf8_decode bs = Some s.
Proof.
  unfold utf8_encode. revert bs. induction s as [|c s IH]; intros bs H.
  - by injection H as <-.
  - apply fmap_Some in H as (l & Hl & ->).
    change (mapM utf8_encode_char (c :: s))
      with (cb ← utf8_encode_char c; k ← mapM utf8_encode_char s; Some (cb :: k)) in Hl.
    destruct (utf8_encode_char c) as [cb|] eqn:Hc; simpl in Hl; [|done].
    destruct (mapM utf8_encode_char s) as [k|] eqn:Hk; simpl in Hl; [|done].
    injection Hl as <-. simpl.
    rewrite (utf8_decode_encode_char _ _ _ Hc), (IH (concat k)); done.
Qed.

(** ** One codec reversal *)

Lemma reverse_codec_Some cd s s' :
  reverse_codec cd s = Some s' ↔
  ∃ bs, encode cd s = Some bs ∧ utf8_decode bs = Some s'.
Proof. unfold reverse_codec. apply bind_Some. Qed.

Lemma reverse_codec_occurrences cd x s s' :
  x < 0x80 → reverse_codec cd s = Some s' →
  occurrences x s' = occurrences x s.
Proof.
  intros Hx (bs & He & Hd)%reverse_codec_Some.
  rewrite (utf8_decode_occurrences _ _ _ Hx Hd). by eapply encode_occurrences.
Qed.

Lemma reverse_codec_scalar cd s s' :
  reverse_codec cd s = Some s' → Forall (λ c, scalar c = true) s'.
Proof.
  intros (bs & _ & Hd)%reverse_codec_Some. by eapply utf8_decode_scalar.
Qed.

Lemma reverse_codec_high cd s s' :
  reverse_codec cd s = Some s' →
  Forall (λ c, 0x80 ≤ c) s → Forall (λ c, 0x80 ≤ c) s'.
Proof.
  intros (bs & He & Hd)%reverse_codec_Some Hs.
  eapply utf8_decode_high; [done|]. by eapply encode_high.
Qed.

Lemma reverse_codec_ascii cd s :
  Forall (λ c, c < 0x80) s → reverse_codec cd s = Some s.
Proof.
  intros H. unfold reverse_codec. rewrite encode_ascii by done. simpl.
  by apply utf8_decode_ascii.
Qed.

Lemma reverse_codec_app cd s t s' t' :
  reverse_codec cd s = Some s' → reverse_codec cd t = Some t' →
  reverse_codec cd (s ++ t) = Some (s' ++ t').
Proof.
  intros (bs & Hes & Hds)%reverse_codec_Some (bt & Het & Hdt)%reverse_codec_Some.
  unfold reverse_codec. rewrite encode_app, Hes, Het. simpl.
  by rewrite (utf8_decode_app _ _ Hds), Hdt.
Qed.

Lemma reverse_codec_length cd s s' :
  reverse_codec cd s = Some s' → (length s' ≤ length s)%nat.
Proof.
  intros (bs & He & Hd)%reverse_codec_Some.
  apply length_mapM in He. apply utf8_decode_length in Hd. lia.
Qed.

Lemma reverse_codec_None cd s c :
  c ∈ s → encode_char cd c = None → reverse_codec cd s = None.
Proof.
  intros Hin Hc. unfold reverse_codec. by rewrite (encode_None _ _ _ Hin Hc).
Qed.

(** ** fix_mojibake_segment *)

(** The second round of [fix_mojibake_segment], on a first result. *)
Lemma collapse_taken cd once twice :
  collapses cd once twice →
  (match reverse_codec cd once with
   | Some fixed2 =>
     if bool_decide (fixed2 ≠ once) && (length fixed2 <? length once)%nat
     then fixed2 else once
   | None => once
   end) = twice.
Proof.
  intros (-> & Hne & Hlen). rewrite bool_decide_true by done.
  apply Nat.ltb_lt in Hlen. by rewrite Hlen.
Qed.

Lemma collapse_not_taken cd once :
  (¬ ∃ twice, collapses cd once twice) →
  (match reverse_codec cd once with
   | Some fixed2 =>
     if bool_decide (fixed2 ≠ once) && (length fixed2 <? length once)%nat
     then fixed2 else once
   | None => once
   end) = once.
Proof.
  intros Hno. destruct (reverse_codec cd once) as [fixed2|] eqn:E; [|done].
  destruct (bool_decide (fixed2 ≠ once) && (length fixed2 <? length once)%nat)
    eqn:C; [|done].
  apply andb_true_iff in C as [C1 C2].
  apply bool_decide_eq_true in C1. apply Nat.ltb_lt in C2.
  exfalso. apply Hno. exists fixed2. by split.
Qed.

(** C1.  The segment repair primitive tries Windows-1252, then Latin-1.  With
    the first codec for which encoding the text and decoding the bytes as
    UTF-8 both succeed, it returns the result of the second round exactly
    when that round succeeds too, differs from the first result and is
    strictly shorter, and the first result otherwise.  When neither codec
    applies it returns its input. *)
Theorem fix_mojibake_segment_spec (text : list N) :
  (∀ cd once, first_reversal text cd once →
     (∀ twice, collapses cd once twice → fix_mojibake_segment text = twice) ∧
     ((¬ ∃ twice, collapses cd once twice) → fix_mojibake_segment text = once) ∧
     (fix_mojibake_segment text ≠ once →
        collapses cd once (fix_mojibake_segment text))) ∧
  (reverse_codec cp1252 text = None → reverse_codec latin_1 text = None →
     fix_mojibake_segment text = text).
Proof.
  unfold fix_mojibake_segment. split.
  - intros cd once Hfirst.
    assert (Hrun : fix_mojibake_segment_loop [cp1252; latin_1] text =
                   match reverse_codec cd once with
                   | Some fixed2 =>
                     if bool_decide (fixed2 ≠ once)
                        && (length fixed2 <? length once)%nat
                     then fixed2 else once
                   | None => once
                   end).
    { destruct Hfirst as [once H1|once H1 H2]; simpl.
      - by rewrite H1.
      - by rewrite H1, H2. }
    rewrite Hrun. split; [|split].
    + apply collapse_taken.
    + apply collapse_not_taken.
    + intros Hne. destruct (reverse_codec cd once) as [fixed2|] eqn:E; [|done].
      destruct (bool_decide (fixed2 ≠ once) && (length fixed2 <? length once)%nat)
        eqn:C; [|done].
      apply andb_true_iff in C as [C1 C2].
      apply bool_decide_eq_true in C1. apply Nat.ltb_lt in C2. by split.
  - intros H1 H2. simpl. by rewrite H1, H2.
Qed.

(** The theorem at a text garbled twice and at one that Windows-1252
    cannot encode. *)
Lemma fix_mojibake_segment_spec_witness :
  fix_mojibake_segment [0xC3; 0x192; 0xC2; 0xA9] = [0xE9] ∧
  fix_mojibake_segment [0xC3; 0x81] = [0xC1] ∧
  fix_mojibake_segment [0x81; 0x20AC] = [0x81; 0x20AC].
Proof.
  split; [|split].
  - apply (fix_mojibake_segment_spec [0xC3; 0x192; 0xC2; 0xA9])
      with (cd := cp1252) (once := [0xC3; 0xA9]).
    + by constructor.
    + split; [reflexivity|]. split; [discriminate|]. simpl. lia.
  - apply (fix_mojibake_segment_spec [0xC3; 0x81])
      with (cd := latin_1) (once := [0xC1]).
    + by constructor.
    + intros (twice & Hr & _). vm_compute in Hr. discriminate.
  - apply (fix_mojibake_segment_spec [0x81; 0x20AC]); reflexivity.
Defined.

(** ** fix_line_segments *)

Lemma run_length_le l : (run_length l ≤ length l)%nat.
Proof. induction l as [|c l IH]; simpl; [lia|]. destruct (0x80 <=? c); simpl; lia. Qed.

(** The inner loop stops at the end of the run that starts at [j]. *)
Lemma scan_segment_run fuel line j :
  (length line - j ≤ fuel)%nat →
  scan_segment fuel line j = (j + run_length (drop j line))%nat.
Proof.
  revert j. induction fuel as [|fuel IH]; intros j Hfuel; simpl.
  - rewrite drop_ge by lia. simpl. lia.
  - destruct (line !! j) as [c|] eqn:E.
    + rewrite (drop_S _ _ _ E). simpl. destruct (0x80 <=? c); [|lia].
      rewrite IH; [lia|]. apply lookup_lt_Some in E. lia.
    + apply lookup_ge_None in E. rewrite drop_ge by lia. simpl. lia.
Qed.

Lemma splice_open fuel c l :
  (0xC0 <=? c) = true →
  splice (S fuel) (c :: l)
  = fix_mojibake_segment (take (run_length (c :: l)) (c :: l))
      ++ splice fuel (drop (run_length (c :: l)) (c :: l)).
Proof. intros H. cbn [splice]. by rewrite H. Qed.

Lemma splice_keep fuel c l :
  (0xC0 <=? c) = false → splice (S fuel) (c :: l) = c :: splice fuel l.
Proof. intros H. cbn [splice]. by rewrite H. Qed.

(** The loop on indices computes [splice] on the rest of the line. *)
Lemma fix_line_segments_loop_splice fuel line i result :
  concat (fix_line_segments_loop fuel line i result)
  = concat result ++ splice fuel (drop i line).
Proof.
  revert i result. induction fuel as [|fuel IH]; intros i result.
  - simpl. by rewrite app_nil_r.
  - cbn [fix_line_segments_loop]. destruct (line !! i) as [c|] eqn:E.
    + pose proof (drop_S _ _ _ E) as Hd.
      destruct (0xC0 <=? c) eqn:Hc.
      * rewrite IH, concat_app. simpl concat. rewrite app_nil_r, <- app_assoc.
        rewrite scan_segment_run by lia.
        replace (i + run_length (drop i line) - i)%nat
          with (run_length (drop i line)) by lia.
        rewrite <- drop_drop, !Hd. by rewrite splice_open.
      * rewrite IH, concat_app. simpl concat. rewrite Hd.
        rewrite splice_keep by done. by rewrite <- app_assoc.
    + apply lookup_ge_None in E. rewrite drop_ge by lia.
      simpl. by rewrite app_nil_r.
Qed.

(** Fuel beyond the length of the rest changes nothing. *)
Lemma splice_fuel f1 f2 l :
  (length l ≤ f1)%nat → (length l ≤ f2)%nat → splice f1 l = splice f2 l.
Proof.
  revert f2 l. induction f1 as [|f1 IH]; intros f2 l H1 H2.
  - destruct l; simpl in *; [|lia]. by destruct f2.
  - destruct l as [|c l]; [by destruct f2|].
    destruct f2 as [|f2]; simpl in H1, H2; [lia|].
    simpl. destruct (N.leb_spec 0xC0 c) as [Hc|Hc].
    + replace (0x80 <=? c) with true by (symmetry; apply N.leb_le; lia).
      f_equal. apply IH; simpl; rewrite ?length_drop; lia.
    + f_equal. apply IH; lia.
Qed.

Lemma fix_line_segments_splice line :
  fix_line_segments line = splice (length line) line.
Proof. unfold fix_line_segments. by rewrite fix_line_segments_loop_splice. Qed.

(** The loop has rounds to spare: more of them give the same result. *)
Lemma fix_line_segments_fuel fuel line :
  (length line ≤ fuel)%nat →
  concat (fix_line_segments_loop fuel line 0 []) = fix_line_segments line.
Proof.
  intros H. rewrite fix_line_segments_splice, fix_line_segments_loop_splice.
  simpl. by apply splice_fuel.
Qed.

Lemma fix_line_segments_nil : fix_line_segments [] = [].
Proof. reflexivity. Qed.

Lemma fix_line_segments_keep c rest :
  c < 0xC0 → fix_line_segments (c :: rest) = c :: fix_line_segments rest.
Proof.
  intros Hc. rewrite !fix_line_segments_splice. simpl.
  replace (0xC0 <=? c) with false by (symmetry; apply N.leb_gt; lia). done.
Qed.

Lemma run_length_run seg rest :
  Forall (λ c, 0x80 ≤ c) seg →
  (∀ d rest', rest = d :: rest' → d < 0x80) →
  run_length (seg ++ rest) = length seg.
Proof.
  intros Hseg Hrest. induction Hseg as [|c seg Hc _ IH]; simpl.
  - destruct rest as [|d rest']; [done|]. simpl.
    specialize (Hrest d rest' eq_refl).
    replace (0x80 <=? d) with false by (symmetry; apply N.leb_gt; lia). done.
  - apply N.leb_le in Hc. by rewrite Hc, IH.
Qed.

Lemma fix_line_segments_segment c seg rest :
  0xC0 ≤ c → Forall (λ d, 0x80 ≤ d) seg →
  (∀ d rest', rest = d :: rest' → d < 0x80) →
  fix_line_segments (c :: seg ++ rest)
  = fix_mojibake_segment (c :: seg) ++ fix_line_segments rest.
Proof.
  intros Hc Hseg Hrest. rewrite !fix_line_segments_splice.
  assert (Hrun : run_length ((c :: seg) ++ rest) = length (c :: seg)).
  { apply run_length_run; [|done]. constructor; [lia|done]. }
  change (c :: seg ++ rest) with ((c :: seg) ++ rest).
  remember (c :: seg) as s eqn:Hs.
  assert (Hlen : length (s ++ rest) = S (length seg + length rest)).
  { subst s. simpl. by rewrite length_app. }
  rewrite Hlen. subst s. cbn [splice app].
  replace (0xC0 <=? c) with true by (symmetry; apply N.leb_le; lia).
  change (c :: seg ++ rest) with ((c :: seg) ++ rest). rewrite Hrun.
  rewrite take_app_length, drop_app_length. f_equal.
  apply splice_fuel; lia.
Qed.

(** The primitive keeps a run of characters from U+0080 up such a run. *)
Lemma fix_mojibake_segment_high s :
  Forall (λ c, 0x80 ≤ c) s → Forall (λ c, 0x80 ≤ c) (fix_mojibake_segment s).
Proof.
  intros Hs. unfold fix_mojibake_segment.
  assert (Hround : ∀ cd once, reverse_codec cd s = Some once →
    Forall (λ c, 0x80 ≤ c)
      (match reverse_codec cd once with
       | Some fixed2 =>
         if bool_decide (fixed2 ≠ once) && (length fixed2 <? length once)%nat
         then fixed2 else once
       | None => once
       end)).
  { intros cd once H1. pose proof (reverse_codec_high _ _ _ H1 Hs) as Ho.
    destruct (reverse_codec cd once) as [fixed2|] eqn:H2; [|done].
    pose proof (reverse_codec_high _ _ _ H2 Ho).
    by destruct (bool_decide (fixed2 ≠ once) && (length fixed2 <? length once)%nat). }
  simpl. destruct (reverse_codec cp1252 s) eqn:E1; [by eapply Hround|].
  destruct (reverse_codec latin_1 s) eqn:E2; [by eapply Hround|done].
Qed.

Lemma run_length_take l : Forall (λ c, 0x80 ≤ c) (take (run_length l) l).
Proof.
  induction l as [|c l IH]; simpl; [constructor|].
  destruct (N.leb_spec 0x80 c); simpl; by constructor.
Qed.

Lemma filter_high_nil (s : list N) :
  Forall (λ c, 0x80 ≤ c) s → filter (λ c, c < 0x80) s = [].
Proof.
  induction 1 as [|c s Hc _ IH]; [done|].
  rewrite filter_cons_False by lia. done.
Qed.

(** The ASCII characters of the line are those of the result, in order. *)
Lemma splice_ascii fuel l :
  (length l ≤ fuel)%nat →
  filter (λ c, c < 0x80) (splice fuel l) = filter (λ c, c < 0x80) l.
Proof.
  revert l. induction fuel as [|fuel IH]; intros l Hl.
  - destruct l; simpl in *; [done|lia].
  - destruct l as [|c l]; [done|]. cbn [splice].
    destruct (N.leb_spec 0xC0 c) as [Hc|Hc].
    + rewrite filter_app, IH.
      2:{ rewrite length_drop. simpl in *.
          replace (0x80 <=? c) with true by (symmetry; apply N.leb_le; lia).
          lia. }
      rewrite (filter_high_nil (fix_mojibake_segment _))
        by apply fix_mojibake_segment_high, run_length_take.
      rewrite <- (take_drop (run_length (c :: l)) (c :: l)) at 3.
      rewrite filter_app, (filter_high_nil (take _ _)) by apply run_length_take.
      done.
    + rewrite !filter_cons. rewrite IH by (simpl in *; lia). done.
Qed.

Lemma fix_line_segments_ascii line :
  filter (λ c, c < 0x80) (fix_line_segments line) = filter (λ c, c < 0x80) line.
Proof. rewrite fix_line_segments_splice. by apply splice_ascii. Qed.

(** C3, amended.  In [fix_line_segments] a segment opens at a character
    from U+00C0 up and takes the whole run of characters from U+0080 up
    that follows; the segment is replaced by what the segment repair
    primitive returns.  A character below U+00C0 outside a segment is kept
    as it is, so every character below U+0080 is kept, and those characters
    stay in their order. *)
Theorem fix_line_segments_spec :
  fix_line_segments [] = [] ∧
  (∀ c rest, c < 0xC0 →
     fix_line_segments (c :: rest) = c :: fix_line_segments rest) ∧
  (∀ c seg rest, 0xC0 ≤ c → Forall (λ d, 0x80 ≤ d) seg →
     (∀ d rest', rest = d :: rest' → d < 0x80) →
     fix_line_segments (c :: seg ++ rest)
     = fix_mojibake_segment (c :: seg) ++ fix_line_segments rest) ∧
  (∀ line, filter (λ c, c < 0x80) (fix_line_segments line)
           = filter (λ c, c < 0x80) line).
Proof.
  split; [apply fix_line_segments_nil|].
  split; [apply fix_line_segments_keep|].
  split; [apply fix_line_segments_segment|].
  apply fix_line_segments_ascii.
Qed.

(** The theorem on the line [a £ Ã © b]: the pound sign is kept, the
    segment starts at [Ã]. *)
Lemma fix_line_segments_spec_witness :
  fix_line_segments [0x61; 0xA3; 0xC3; 0xA9; 0x62] = [0x61; 0xA3; 0xE9; 0x62].
Proof.
  destruct fix_line_segments_spec as (Hnil & Hkeep & Hseg & _).
  rewrite (Hkeep 0x61) by lia. rewrite (Hkeep 0xA3) by lia.
  change [0xC3; 0xA9; 0x62] with (0xC3 :: [0xA9] ++ [0x62]).
  rewrite (Hseg 0xC3 [0xA9] [0x62]).
  - rewrite (Hkeep 0x62) by lia. by rewrite Hnil.
  - lia.
  - repeat constructor; lia.
  - intros d rest' [= <- <-]. lia.
Defined.

(** C3 as stated fails: the run [£ Ã ©] is a maximal run of characters from
    U+0080 up, the primitive leaves it as it is, and [fix_line_segments]
    returns [£ é]. *)
Lemma fix_line_segments_run_counterexample :
  Forall (λ c, 0x80 ≤ c) [0xA3; 0xC3; 0xA9] ∧
  fix_mojibake_segment [0xA3; 0xC3; 0xA9] = [0xA3; 0xC3; 0xA9] ∧
  fix_line_segments [0xA3; 0xC3; 0xA9] = [0xA3; 0xE9] ∧
  fix_line_segments [0xA3; 0xC3; 0xA9] ≠ fix_mojibake_segment [0xA3; 0xC3; 0xA9].
Proof.
  split; [repeat constructor; lia|]. by vm_compute.
Qed.

(** ** Searching, counting and replacing *)

Lemma starts_with_app p s : starts_with p (p ++ s) = true.
Proof.
  induction p as [|a p IH]; simpl; [by destruct s|].
  by rewrite N.eqb_refl, IH.
Qed.

Lemma starts_with_head a p b s : a ≠ b → starts_with (a :: p) (b :: s) = false.
Proof. intros H. simpl. apply N.eqb_neq in H. by rewrite H. Qed.

Lemma starts_with_inv p s :
  starts_with p s = true → s = p ++ drop (length p) s.
Proof.
  revert s. induction p as [|a p IH]; intros s H; [done|].
  destruct s as [|b s]; [done|]. simpl in H.
  apply andb_true_iff in H as [->%N.eqb_eq H]. simpl. f_equal. by apply IH.
Qed.

Lemma contains_nil a p : contains (a :: p) [] = false.
Proof. reflexivity. Qed.

Lemma contains_cons p c s :
  contains p (c :: s) = starts_with p (c :: s) || contains p s.
Proof. reflexivity. Qed.

Lemma contains_prefix a p s : contains (a :: p) ((a :: p) ++ s) = true.
Proof.
  change ((a :: p) ++ s) with (a :: (p ++ s)).
  rewrite contains_cons.
  change (a :: (p ++ s)) with ((a :: p) ++ s). by rewrite starts_with_app.
Qed.

(** A string without the first character of the pattern has no room for
    the pattern. *)
Lemma contains_skip a p x s :
  a ∉ x → contains (a :: p) (x ++ s) = contains (a :: p) s.
Proof.
  induction x as [|c x IH]; intros H; [done|].
  apply not_elem_of_cons in H as [Hc Hx].
  rewrite <- app_comm_cons, contains_cons, starts_with_head by done.
  by apply IH.
Qed.

Lemma contains_absent a p s : a ∉ s → contains (a :: p) s = false.
Proof.
  intros H. rewrite <- (app_nil_r s). by rewrite contains_skip.
Qed.

(** *** count *)

Lemma count_from_fuel f1 f2 a p s :
  (length s ≤ f1)%nat → (length s ≤ f2)%nat →
  count_from f1 (a :: p) s = count_from f2 (a :: p) s.
Proof.
  revert f2 s. induction f1 as [|f1 IH]; intros f2 s H1 H2.
  - destruct s; simpl in *; [|lia]. by destruct f2.
  - destruct s as [|c s]; [by destruct f2|].
    destruct f2 as [|f2]; simpl in H1, H2; [lia|].
    cbn [count_from]. destruct (starts_with (a :: p) (c :: s)).
    + f_equal. apply IH; simpl; rewrite length_drop; lia.
    + apply IH; lia.
Qed.

Lemma count_nil a p : count (a :: p) [] = 0%nat.
Proof. reflexivity. Qed.

Lemma count_from_match f q l :
  l ≠ [] → starts_with q l = true →
  count_from (S f) q l = S (count_from f q (drop (length q) l)).
Proof. destruct l; [done|]. intros _ H. cbn [count_from]. by rewrite H. Qed.

Lemma count_match a p s :
  count (a :: p) ((a :: p) ++ s) = S (count (a :: p) s).
Proof.
  unfold count. rewrite length_app. cbn [length Nat.add].
  rewrite count_from_match, drop_app_length by (done || apply starts_with_app).
  f_equal. apply count_from_fuel; lia.
Qed.

Lemma count_cons_skip a p c s :
  starts_with (a :: p) (c :: s) = false →
  count (a :: p) (c :: s) = count (a :: p) s.
Proof. intros H. unfold count. cbn [length count_from]. by rewrite H. Qed.

Lemma count_skip a p x s :
  a ∉ x → count (a :: p) (x ++ s) = count (a :: p) s.
Proof.
  induction x as [|c x IH]; intros H; [done|].
  apply not_elem_of_cons in H as [Hc Hx].
  rewrite <- app_comm_cons, count_cons_skip by (by apply starts_with_head).
  by apply IH.
Qed.

(** *** replace *)

Lemma replace_from_fuel f1 f2 a p new s :
  (length s ≤ f1)%nat → (length s ≤ f2)%nat →
  replace_from f1 (a :: p) new s = replace_from f2 (a :: p) new s.
Proof.
  revert f2 s. induction f1 as [|f1 IH]; intros f2 s H1 H2.
  - destruct s; simpl in *; [|lia]. by destruct f2.
  - destruct s as [|c s]; [by destruct f2|].
    destruct f2 as [|f2]; simpl in H1, H2; [lia|].
    cbn [replace_from]. destruct (starts_with (a :: p) (c :: s)).
    + f_equal. apply IH; simpl; rewrite length_drop; lia.
    + f_equal. apply IH; lia.
Qed.

Lemma replace_nil a p new : replace (a :: p) new [] = [].
Proof. reflexivity. Qed.

Lemma replace_from_match f q new l :
  l ≠ [] → starts_with q l = true →
  replace_from (S f) q new l = new ++ replace_from f q new (drop (length q) l).
Proof. destruct l; [done|]. intros _ H. cbn [replace_from]. by rewrite H. Qed.

Lemma replace_match a p new s :
  replace (a :: p) new ((a :: p) ++ s) = new ++ replace (a :: p) new s.
Proof.
  unfold replace. rewrite length_app. cbn [length Nat.add].
  rewrite replace_from_match, drop_app_length by (done || apply starts_with_app).
  f_equal. apply replace_from_fuel; lia.
Qed.

Lemma replace_cons_skip a p new c s :
  starts_with (a :: p) (c :: s) = false →
  replace (a :: p) new (c :: s) = c :: replace (a :: p) new s.
Proof. intros H. unfold replace. cbn [length replace_from]. by rewrite H. Qed.

(** Induction on a text the way [replace] and [count] walk through it. *)
Lemma scan_ind a p (P : list N → Prop) :
  P [] →
  (∀ s, P s → P ((a :: p) ++ s)) →
  (∀ c s, starts_with (a :: p) (c :: s) = false → P s → P (c :: s)) →
  ∀ s, P s.
Proof.
  intros Hnil Hmatch Hskip s.
  remember (length s) as n eqn:Hn. revert s Hn.
  induction n as [n IH] using lt_wf_ind. intros s Hn.
  destruct s as [|c s]; [done|].
  destruct (starts_with (a :: p) (c :: s)) eqn:E.
  - rewrite (starts_with_inv _ _ E). apply Hmatch.
    eapply IH; [|reflexivity]. subst n. simpl. rewrite length_drop. lia.
  - apply Hskip; [done|]. eapply IH; [|reflexivity]. subst n. simpl. lia.
Qed.

(** Replacing keeps the number of occurrences of a character that is
    neither in the old nor in the new string. *)
Lemma replace_occurrences x a p new s :
  x ∉ a :: p → x ∉ new →
  occurrences x (replace (a :: p) new s) = occurrences x s.
Proof.
  intros Hold%occurrences_0 Hnew%occurrences_0.
  induction s as [|s IH|c s Hc IH] using (scan_ind a p).
  - done.
  - rewrite replace_match, !occurrences_app, IH. lia.
  - rewrite replace_cons_skip by done. cbn [occurrences]. by rewrite IH.
Qed.

Lemma replace_Forall (P : N → Prop) a p new s :
  Forall P new → Forall P s → Forall P (replace (a :: p) new s).
Proof.
  intros Hnew. induction s as [|s IH|c s Hc IH] using (scan_ind a p).
  - done.
  - intros [_ H]%Forall_app. rewrite replace_match.
    apply Forall_app. auto.
  - intros [Hc' H]%Forall_cons. rewrite replace_cons_skip by done.
    constructor; auto.
Qed.

(** *** Repetitions of one string *)

Lemma times_S n s : times (S n) s = s ++ times n s.
Proof. reflexivity. Qed.

Lemma times_length n s : length (times n s) = (n * length s)%nat.
Proof.
  induction n as [|n IH]; [done|]. rewrite times_S, length_app, IH. lia.
Qed.

Lemma times_elem x n s : x ∈ times n s → x ∈ s.
Proof.
  induction n as [|n IH]; [by intros ?%elem_of_nil|].
  rewrite times_S. intros [?|?]%elem_of_app; auto.
Qed.

Lemma times_elem_S x n s : x ∈ s → x ∈ times (S n) s.
Proof. intros H. rewrite times_S. apply elem_of_app. by left. Qed.

Lemma count_times a p t n :
  a ∉ t → count (a :: p) (times n ((a :: p) ++ t)) = n.
Proof.
  intros Ht. induction n as [|n IH]; [done|].
  rewrite times_S, <- app_assoc, count_match, count_skip by done.
  by rewrite IH.
Qed.

Lemma count_times_self a p n : count (a :: p) (times n (a :: p)) = n.
Proof.
  rewrite <- (app_nil_r (a :: p)) at 2.
  apply count_times, not_elem_of_nil.
Qed.

Lemma replace_times a p new n :
  replace (a :: p) new (times n (a :: p)) = times n new.
Proof.
  induction n as [|n IH]; [done|].
  by rewrite !times_S, replace_match, IH.
Qed.

Lemma contains_times a p t n :
  contains (a :: p) (times (S n) ((a :: p) ++ t)) = true.
Proof. rewrite times_S, <- app_assoc. apply contains_prefix. Qed.

Lemma contains_times_self a p n :
  contains (a :: p) (times (S n) (a :: p)) = true.
Proof. rewrite times_S. apply contains_prefix. Qed.

Lemma diverge_starts_with p g s :
  diverge p g = true → starts_with p (g ++ s) = false.
Proof.
  revert g. induction p as [|x p IH]; intros [|y g] H; try done.
  simpl in *. destruct (N.eqb_spec x y); [|done]. simpl in *. by apply IH.
Qed.

Lemma never_in_times p g n :
  never_in p g = true → contains p (times n g) = false.
Proof.
  destruct p as [|a p], g as [|b g]; try done. simpl.
  intros [Hin Hdiv]%andb_true_iff.
  apply negb_true_iff, bool_decide_eq_false in Hin.
  induction n as [|n IH]; [done|].
  rewrite times_S, <- app_comm_cons, contains_cons, contains_skip, IH by done.
  rewrite orb_false_r. simpl.
  destruct (N.eqb_spec a b); [|done]. simpl in *.
  by apply diverge_starts_with.
Qed.

(** ** split and join *)

Lemma split_nonempty sep s : split sep s ≠ [].
Proof.
  destruct s as [|c s]; simpl; [done|].
  destruct (c =? sep); [done|]. by destruct (split sep s).
Qed.

Lemma split_cons_sep sep s : split sep (sep :: s) = [] :: split sep s.
Proof. simpl. by rewrite N.eqb_refl. Qed.

Lemma split_cons_other sep c s :
  c ≠ sep →
  ∃ piece pieces, split sep s = piece :: pieces ∧
                  split sep (c :: s) = (c :: piece) :: pieces.
Proof.
  intros H. simpl. apply N.eqb_neq in H. rewrite H.
  pose proof (split_nonempty sep s).
  destruct (split sep s) as [|piece pieces]; [done|]. eauto.
Qed.

(** Joining the pieces gives the text back. *)
Lemma join_split sep s : join sep (split sep s) = s.
Proof.
  induction s as [|c s IH]; [done|].
  destruct (N.eqb_spec c sep) as [->|Hc].
  - rewrite split_cons_sep. pose proof (split_nonempty sep s).
    simpl. destruct (split sep s); [done|]. by rewrite <- IH.
  - destruct (split_cons_other sep c s Hc) as (piece & pieces & E1 & E2).
    rewrite E2. rewrite E1 in IH. rewrite <- IH.
    by destruct pieces.
Qed.

Lemma split_Forall (P : N → Prop) sep s :
  Forall P s → Forall (Forall P) (split sep s).
Proof.
  induction 1 as [|c s Hc Hs IH]; [by repeat constructor|].
  destruct (N.eqb_spec c sep) as [->|Hne].
  - rewrite split_cons_sep. by constructor.
  - destruct (split_cons_other sep c s Hne) as (piece & pieces & E1 & E2).
    rewrite E2. rewrite E1 in IH. inversion IH; subst.
    constructor; [by constructor|done].
Qed.

Lemma join_Forall (P : N → Prop) sep pieces :
  P sep → Forall (Forall P) pieces → Forall P (join sep pieces).
Proof.
  intros Hsep. induction 1 as [|piece pieces Hp Hps IH]; [done|].
  simpl. destruct pieces; [done|].
  apply Forall_app. split; [done|]. by constructor.
Qed.

Lemma split_no_sep sep s : sep ∉ s → split sep s = [s].
Proof.
  induction s as [|c s IH]; [done|].
  intros [Hc Hs]%not_elem_of_cons.
  destruct (split_cons_other sep c s) as (piece & pieces & E1 & E2); [done|].
  rewrite E2. rewrite IH in E1 by done. by injection E1 as <- <-.
Qed.

(** What a character counts in a joined text: its occurrences in the pieces,
    and the separators when it is the separator. *)
Lemma occurrences_join x sep pieces :
  occurrences x (join sep pieces)
  = (total (occurrences x <$> pieces)
     + if (sep =? x)%N then pred (length pieces) else 0)%nat.
Proof.
  induction pieces as [|piece pieces IH]; [by destruct (sep =? x)|].
  simpl. destruct pieces as [|piece' pieces].
  - simpl. destruct (sep =? x); lia.
  - rewrite occurrences_app. cbn [occurrences]. rewrite IH.
    simpl. destruct (sep =? x); lia.
Qed.

(** ** Characters that fix_mojibake_segment and fix_line_segments keep *)

Lemma fix_mojibake_segment_cases text :
  fix_mojibake_segment text = text ∨
  (∃ cd, reverse_codec cd text = Some (fix_mojibake_segment text)) ∨
  (∃ cd once, reverse_codec cd text = Some once ∧
              reverse_codec cd once = Some (fix_mojibake_segment text)).
Proof.
  unfold fix_mojibake_segment.
  assert (Hround : ∀ cd once, reverse_codec cd text = Some once →
    let r := match reverse_codec cd once with
             | Some fixed2 =>
               if bool_decide (fixed2 ≠ once) && (length fixed2 <? length once)%nat
               then fixed2 else once
             | None => once
             end in
    r = text ∨ (∃ cd, reverse_codec cd text = Some r) ∨
    (∃ cd once, reverse_codec cd text = Some once ∧ reverse_codec cd once = Some r)).
  { intros cd once H1. simpl.
    destruct (reverse_codec cd once) as [fixed2|] eqn:H2; [|by eauto].
    destruct (bool_decide (fixed2 ≠ once) && (length fixed2 <? length once)%nat);
      eauto 6. }
  simpl. destruct (reverse_codec cp1252 text) eqn:E1; [by eapply Hround|].
  destruct (reverse_codec latin_1 text) eqn:E2; [by eapply Hround|by left].
Qed.

Lemma fix_mojibake_segment_occurrences x text :
  x < 0x80 → occurrences x (fix_mojibake_segment text) = occurrences x text.
Proof.
  intros Hx.
  destruct (fix_mojibake_segment_cases text)
    as [->|[(cd & H)|(cd & once & H1 & H2)]]; [done|..].
  - by eapply reverse_codec_occurrences.
  - rewrite (reverse_codec_occurrences _ _ _ _ Hx H2).
    by eapply reverse_codec_occurrences.
Qed.

Lemma fix_mojibake_segment_scalar text :
  Forall (λ c, scalar c = true) text →
  Forall (λ c, scalar c = true) (fix_mojibake_segment text).
Proof.
  intros Ht.
  destruct (fix_mojibake_segment_cases text)
    as [->|[(cd & H)|(cd & once & H1 & H2)]]; [done|..];
    by eapply reverse_codec_scalar.
Qed.

Lemma occurrences_filter_ascii x s :
  x < 0x80 → occurrences x (filter (λ c, c < 0x80) s) = occurrences x s.
Proof.
  intros Hx. induction s as [|c s IH]; [done|].
  rewrite filter_cons. destruct (decide (c < 0x80)); simpl; rewrite IH; [done|].
  destruct (N.eqb_spec c x); [lia|done].
Qed.

Lemma fix_line_segments_occurrences x line :
  x < 0x80 → occurrences x (fix_line_segments line) = occurrences x line.
Proof.
  intros Hx.
  rewrite <- (occurrences_filter_ascii x (fix_line_segments line)) by done.
  rewrite fix_line_segments_ascii. by apply occurrences_filter_ascii.
Qed.

Lemma splice_scalar fuel l :
  Forall (λ c, scalar c = true) l → Forall (λ c, scalar c = true) (splice fuel l).
Proof.
  revert l. induction fuel as [|fuel IH]; intros l Hl; [by destruct l|].
  destruct l as [|c l]; [done|]. cbn [splice].
  destruct (0xC0 <=? c).
  - apply Forall_app. split.
    + by apply fix_mojibake_segment_scalar, Forall_take.
    + by apply IH, Forall_drop.
  - apply Forall_cons in Hl as [Hc Hl]. constructor; auto.
Qed.

Lemma fix_line_segments_scalar line :
  Forall (λ c, scalar c = true) line →
  Forall (λ c, scalar c = true) (fix_line_segments line).
Proof. rewrite fix_line_segments_splice. apply splice_scalar. Qed.

(** ** fix_encoding *)

(** Strategy 2 on a line: a reversal, the line itself, or Strategy 3. *)
Lemma fix_one_line_cases line :
  (fix_one_line line).1 = line ∨
  (∃ cd, reverse_codec cd line = Some (fix_one_line line).1) ∨
  (fix_one_line line).1 = fix_line_segments line.
Proof.
  unfold fix_one_line. simpl.
  destruct (reverse_codec cp1252 line) as [c1|] eqn:E1.
  { destruct (bool_decide (c1 ≠ line)); simpl; eauto. }
  destruct (reverse_codec latin_1 line) as [c2|] eqn:E2.
  { destruct (bool_decide (c2 ≠ line)); simpl; eauto. }
  simpl. auto.
Qed.

Lemma fix_one_line_occurrences x line :
  x < 0x80 → occurrences x (fix_one_line line).1 = occurrences x line.
Proof.
  intros Hx. destruct (fix_one_line_cases line) as [->|[(cd & H)| ->]].
  - done.
  - by eapply reverse_codec_occurrences.
  - by apply fix_line_segments_occurrences.
Qed.

Lemma fix_one_line_scalar line :
  Forall (λ c, scalar c = true) line →
  Forall (λ c, scalar c = true) (fix_one_line line).1.
Proof.
  intros Hl. destruct (fix_one_line_cases line) as [->|[(cd & H)| ->]].
  - done.
  - by eapply reverse_codec_scalar.
  - by apply fix_line_segments_scalar.
Qed.

Lemma fix_one_line_ascii line :
  Forall (λ c, c < 0x80) line → fix_one_line line = (line, false).
Proof.
  intros H. unfold fix_one_line. simpl.
  rewrite reverse_codec_ascii by done. by rewrite bool_decide_false by auto.
Qed.

(** The loop over the lines fixes each line on its own, in order. *)
Lemma fix_lines_fst lines fixed_lines changes :
  (fix_lines lines fixed_lines changes).1
  = fixed_lines ++ ((λ line, (fix_one_line line).1) <$> lines).
Proof.
  revert fixed_lines changes.
  induction lines as [|line lines IH]; intros fixed_lines changes; simpl.
  - by rewrite app_nil_r.
  - destruct (fix_one_line line) as [fixed_line changed] eqn:E.
    rewrite IH, <- app_assoc. simpl. done.
Qed.

Lemma fix_lines_ascii lines fixed_lines changes :
  Forall (Forall (λ c, c < 0x80)) lines →
  fix_lines lines fixed_lines changes = (fixed_lines ++ lines, changes).
Proof.
  intros H. revert fixed_lines.
  induction H as [|line lines Hl _ IH]; intros fixed_lines; simpl.
  - by rewrite app_nil_r.
  - rewrite fix_one_line_ascii by done. by rewrite IH, <- app_assoc.
Qed.

(** Strategy 1 accepts a candidate: the reversal with some codec, strictly
    shorter than the content. *)
Lemma full_file_fix_Some codecs content cd full_fix :
  full_file_fix codecs content = Some (cd, full_fix) →
  reverse_codec cd content = Some full_fix ∧
  (length full_fix < length content)%nat.
Proof.
  induction codecs as [|cd' codecs IH]; simpl; [done|].
  destruct (reverse_codec cd' content) as [f|] eqn:E; [|done].
  destruct (utf8_encode f); [|done].
  destruct (Nat.ltb_spec (length f) (length content)); [|done].
  by intros [= <- <-].
Qed.

(** The other way round, for the codec at the head of the list: the check
    [full_fix.encode('utf-8')] never fails. *)
Lemma full_file_fix_head cd codecs content full_fix :
  reverse_codec cd content = Some full_fix →
  (length full_fix < length content)%nat →
  full_file_fix (cd :: codecs) content = Some (cd, full_fix).
Proof.
  intros H Hlen. simpl. rewrite H.
  destruct (utf8_encode_scalar full_fix) as [bs ->].
  { by eapply reverse_codec_scalar. }
  apply Nat.ltb_lt in Hlen. by rewrite Hlen.
Qed.

Lemma full_file_fix_skip cd codecs content :
  (∀ full_fix, reverse_codec cd content = Some full_fix →
               (length content ≤ length full_fix)%nat) →
  full_file_fix (cd :: codecs) content = full_file_fix codecs content.
Proof.
  intros H. simpl. destruct (reverse_codec cd content) as [f|]; [|done].
  specialize (H f eq_refl). destruct (utf8_encode f); [|done].
  destruct (Nat.ltb_spec (length f) (length content)); [lia|done].
Qed.

Lemma fix_encoding_lines content :
  full_file_fix [cp1252; latin_1] content = None →
  (fix_encoding content).1
  = join NL ((λ line, (fix_one_line line).1) <$> split NL content).
Proof.
  intros H. unfold fix_encoding. rewrite H.
  pose proof (fix_lines_fst (split NL content) [] 0) as Hf.
  destruct (fix_lines (split NL content) [] 0) as [fixed_lines changes].
  simpl in *. by rewrite Hf.
Qed.

Lemma total_cons n l : total (n :: l) = (n + total l)%nat.
Proof. reflexivity. Qed.

Lemma total_occurrences_fix_lines x lines :
  x < 0x80 →
  total (occurrences x <$> ((λ line, (fix_one_line line).1) <$> lines))
  = total (occurrences x <$> lines).
Proof.
  intros Hx. induction lines as [|line lines IH]; [done|].
  rewrite !fmap_cons, !total_cons, IH. by rewrite fix_one_line_occurrences.
Qed.

(** Pass 1 keeps every ASCII character, the line ends among them. *)
Lemma fix_encoding_occurrences x content :
  x < 0x80 → occurrences x (fix_encoding content).1 = occurrences x content.
Proof.
  intros Hx.
  destruct (full_file_fix [cp1252; latin_1] content) as [[cd f]|] eqn:E.
  - unfold fix_encoding. rewrite E. simpl.
    apply full_file_fix_Some in E as [E _].
    by eapply reverse_codec_occurrences.
  - rewrite fix_encoding_lines by done.
    rewrite <- (join_split NL content) at 2.
    rewrite !occurrences_join, total_occurrences_fix_lines by done.
    by rewrite length_fmap.
Qed.

Lemma fix_encoding_scalar content :
  Forall (λ c, scalar c = true) content →
  Forall (λ c, scalar c = true) (fix_encoding content).1.
Proof.
  intros Hc.
  destruct (full_file_fix [cp1252; latin_1] content) as [[cd f]|] eqn:E.
  - unfold fix_encoding. rewrite E. simpl.
    apply full_file_fix_Some in E as [E _]. by eapply reverse_codec_scalar.
  - rewrite fix_encoding_lines by done. apply join_Forall; [done|].
    apply Forall_fmap. eapply Forall_impl; [by apply split_Forall|].
    intros line Hl. by apply fix_one_line_scalar.
Qed.

Lemma fix_encoding_ascii content :
  Forall (λ c, c < 0x80) content → fix_encoding content = (content, []).
Proof.
  intros H. unfold fix_encoding.
  rewrite !full_file_fix_skip.
  2,3: intros f; rewrite reverse_codec_ascii by done; by intros [= <-].
  simpl. rewrite fix_lines_ascii by (by apply split_Forall).
  simpl. by rewrite join_split.
Qed.

(** ** The replacement tables *)

Lemma entry_ok_inv garbled correct :
  entry_ok garbled correct = true →
  ∃ a p, garbled = a :: p ∧ 0x80 ≤ a ∧
         Forall (λ c, 0x80 ≤ c) garbled ∧
         Forall (λ c, 0x80 ≤ c) correct ∧
         Forall (λ c, scalar c = true) correct.
Proof.
  unfold entry_ok. destruct garbled as [|a p]; [done|].
  intros [Hg Hc]%andb_true_iff. exists a, p.
  pose proof (proj1 (forallb_forall _ _) Hg) as Hg'.
  pose proof (proj1 (forallb_forall _ _) Hc) as Hc'.
  assert (Ha : 0x80 ≤ a) by (apply N.leb_le, Hg'; by left).
  repeat split; [done|..]; apply Forall_forall; intros c Hin%list_elem_of_In.
  - by apply N.leb_le, Hg'.
  - apply Hc' in Hin. apply andb_true_iff in Hin as [H _]. by apply N.leb_le.
  - apply Hc' in Hin. by apply andb_true_iff in Hin as [_ H].
Qed.

Lemma control_char_fixes_ok :
  Forall (λ e, entry_ok e.1 e.2 = true) control_char_fixes.
Proof. repeat constructor. Qed.

Lemma replacements_ok :
  Forall (λ e, entry_ok e.1.1 e.1.2 = true) replacements.
Proof. repeat constructor. Qed.

Lemma known_garbled_ok :
  Forall (λ pattern, entry_ok pattern [] = true) known_garbled.
Proof. repeat constructor. Qed.

Lemma high_not_ascii x (s : list N) :
  x < 0x80 → Forall (λ c, 0x80 ≤ c) s → x ∉ s.
Proof.
  intros Hx Hs Hin. rewrite Forall_forall in Hs. apply Hs in Hin. lia. 
Qed.

Lemma ascii_not_high a (s : list N) :
  0x80 ≤ a → Forall (λ c, c < 0x80) s → a ∉ s.
Proof.
  intros Ha Hs Hin. rewrite Forall_forall in Hs. apply Hs in Hin. lia.
Qed.

(** An entry of a table finds nothing in ASCII text. *)
Lemma entry_ok_ascii garbled correct s :
  entry_ok garbled correct = true → Forall (λ c, c < 0x80) s →
  contains garbled s = false.
Proof.
  intros (a & p & -> & Ha & _)%entry_ok_inv Hs.
  by apply contains_absent, ascii_not_high.
Qed.

Lemma entry_ok_occurrences x garbled correct s :
  x < 0x80 → entry_ok garbled correct = true →
  occurrences x (replace garbled correct s) = occurrences x s.
Proof.
  intros Hx (a & p & -> & _ & Hg & Hc & _)%entry_ok_inv.
  apply replace_occurrences; by apply high_not_ascii.
Qed.

Lemma entry_ok_scalar garbled correct s :
  entry_ok garbled correct = true →
  Forall (λ c, scalar c = true) s →
  Forall (λ c, scalar c = true) (replace garbled correct s).
Proof.
  intros (a & p & -> & _ & _ & _ & Hc)%entry_ok_inv Hs.
  by apply replace_Forall.
Qed.

(** *** The control-character pass *)

Lemma control_char_loop_occurrences x table fixed out :
  x < 0x80 → Forall (λ e, entry_ok e.1 e.2 = true) table →
  occurrences x (control_char_loop table fixed out).1 = occurrences x fixed.
Proof.
  intros Hx Htable. revert fixed out.
  induction Htable as [|[garbled correct] table He _ IH]; intros fixed out;
    [done|].
  simpl. destruct (contains garbled fixed); [|by apply IH].
  rewrite IH. by apply entry_ok_occurrences.
Qed.

Lemma control_char_loop_scalar table fixed out :
  Forall (λ e, entry_ok e.1 e.2 = true) table →
  Forall (λ c, scalar c = true) fixed →
  Forall (λ c, scalar c = true) (control_char_loop table fixed out).1.
Proof.
  intros Htable. revert fixed out.
  induction Htable as [|[garbled correct] table He _ IH]; intros fixed out Hf;
    [done|].
  simpl. destruct (contains garbled fixed); [|by apply IH].
  apply IH. by apply entry_ok_scalar.
Qed.

Lemma control_char_loop_none table fixed out :
  Forall (λ e, contains e.1 fixed = false) table →
  control_char_loop table fixed out = (fixed, out).
Proof.
  induction 1 as [|[garbled correct] table He _ IH]; [done|].
  simpl in *. by rewrite He.
Qed.

(** *** The known-replacement pass *)

Lemma replacements_loop_occurrences x table result total out :
  x < 0x80 → Forall (λ e, entry_ok e.1.1 e.1.2 = true) table →
  occurrences x (replacements_loop table result total out).1.1
  = occurrences x result.
Proof.
  intros Hx Htable. revert result total out.
  induction Htable as [|[[garbled correct] desc] table He _ IH];
    intros result total out; [done|].
  simpl. destruct (contains garbled result); [|by apply IH].
  rewrite IH. by apply entry_ok_occurrences.
Qed.

Lemma replacements_loop_scalar table result total out :
  Forall (λ e, entry_ok e.1.1 e.1.2 = true) table →
  Forall (λ c, scalar c = true) result →
  Forall (λ c, scalar c = true) (replacements_loop table result total out).1.1.
Proof.
  intros Htable. revert result total out.
  induction Htable as [|[[garbled correct] desc] table He _ IH];
    intros result total out Hr; [done|].
  simpl. destruct (contains garbled result); [|by apply IH].
  apply IH. by apply entry_ok_scalar.
Qed.

Lemma replacements_loop_none table result total out :
  Forall (λ e, contains e.1.1 result = false) table →
  replacements_loop table result total out = (result, total, out).
Proof.
  induction 1 as [|[[garbled correct] desc] table He _ IH]; [done|].
  simpl in *. by rewrite He.
Qed.

Lemma apply_known_replacements_fst content :
  (apply_known_replacements content).1
  = (replacements_loop replacements content 0 []).1.1.
Proof.
  unfold apply_known_replacements.
  by destruct (replacements_loop replacements content 0 []) as [[? ?] ?].
Qed.

(** *** The residual scan *)

Lemma scan_loop_none patterns content found :
  Forall (λ pattern, contains pattern content = false) patterns →
  scan_loop patterns content found = found.
Proof.
  induction 1 as [|pattern patterns Hp _ IH]; [done|].
  simpl. by rewrite Hp.
Qed.

(** ** The three passes together *)

Lemma repair_fst content :
  (repair content).1 =
  let fixed := (control_char_loop control_char_fixes
                  (fix_encoding content).1 []).1 in
  match scan_remaining_issues fixed with
  | [] => fixed
  | _ :: _ => (apply_known_replacements fixed).1
  end.
Proof.
  unfold repair. cbv zeta.
  destruct (fix_encoding content) as [f1 out1]. cbn [fst].
  destruct (control_char_loop control_char_fixes f1 []) as [f2 out2]. cbn [fst].
  destruct (scan_remaining_issues f2); [done|].
  by destruct (apply_known_replacements f2).
Qed.

Lemma repair_occurrences x content :
  x < 0x80 → occurrences x (repair content).1 = occurrences x content.
Proof.
  intros Hx. rewrite repair_fst. cbv zeta.
  assert (H2 : occurrences x
      (control_char_loop control_char_fixes (fix_encoding content).1 []).1
      = occurrences x content).
  { rewrite control_char_loop_occurrences
      by (done || apply control_char_fixes_ok).
    by apply fix_encoding_occurrences. }
  destruct (scan_remaining_issues _); [done|].
  rewrite apply_known_replacements_fst.
  by rewrite replacements_loop_occurrences by (done || apply replacements_ok).
Qed.

Lemma repair_scalar content :
  Forall (λ c, scalar c = true) content →
  Forall (λ c, scalar c = true) (repair content).1.
Proof.
  intros Hc. rewrite repair_fst. cbv zeta.
  assert (H2 : Forall (λ c, scalar c = true)
      (control_char_loop control_char_fixes (fix_encoding content).1 []).1).
  { apply control_char_loop_scalar; [apply control_char_fixes_ok|].
    by apply fix_encoding_scalar. }
  destruct (scan_remaining_issues _); [done|].
  rewrite apply_known_replacements_fst.
  by apply replacements_loop_scalar; [apply replacements_ok|].
Qed.

Lemma repair_ascii content :
  Forall (λ c, c < 0x80) content → repair content = (content, []).
Proof.
  intros H. unfold repair. rewrite fix_encoding_ascii by done.
  rewrite control_char_loop_none.
  2:{ eapply Forall_impl; [apply control_char_fixes_ok|].
      intros [g c] Hok. simpl in *. by apply (entry_ok_ascii g c). }
  unfold scan_remaining_issues. rewrite scan_loop_none; [done|].
  eapply Forall_impl; [apply known_garbled_ok|].
  intros p Hok. by apply (entry_ok_ascii p []).
Qed.

(** ** Strategy 1 of fix_encoding *)

Lemma fix_encoding_cp1252 content candidate :
  accepted content cp1252 candidate →
  fix_encoding content = (candidate, [MethodFullFile cp1252]).
Proof.
  intros [H Hlen]. unfold fix_encoding.
  by rewrite (full_file_fix_head _ _ _ _ H Hlen).
Qed.

Lemma fix_encoding_latin_1 content candidate :
  (∀ c, ¬ accepted content cp1252 c) → accepted content latin_1 candidate →
  fix_encoding content = (candidate, [MethodFullFile latin_1]).
Proof.
  intros Hno [H Hlen]. unfold fix_encoding.
  rewrite full_file_fix_skip.
  - by rewrite (full_file_fix_head _ _ _ _ H Hlen).
  - intros f Hf. destruct (Nat.le_gt_cases (length content) (length f)); [done|].
    exfalso. by apply (Hno f).
Qed.

Lemma full_file_fix_none content :
  (∀ cd c, ¬ accepted content cd c) →
  full_file_fix [cp1252; latin_1] content = None.
Proof.
  intros Hno. rewrite !full_file_fix_skip; [done|..];
    intros f Hf; destruct (Nat.le_gt_cases (length content) (length f));
    try done; exfalso; by eapply Hno.
Qed.

(** C2, amended.  Strategy 1 of [fix_encoding] reverses the whole content
    once with Windows-1252, then with Latin-1, without the second round of
    the segment repair primitive.  It accepts the first reversal that is
    strictly shorter than the content; such a reversal is always valid
    UTF-8.  An accepted candidate is the result of [fix_encoding], with the
    full-file method as the only line printed; when no candidate is accepted
    the result is made line by line. *)
Theorem fix_encoding_strategy_1 (content candidate : list N) :
  (accepted content cp1252 candidate →
     fix_encoding content = (candidate, [MethodFullFile cp1252])) ∧
  ((∀ c, ¬ accepted content cp1252 c) → accepted content latin_1 candidate →
     fix_encoding content = (candidate, [MethodFullFile latin_1])) ∧
  (∀ cd, accepted content cd candidate → is_Some (utf8_encode candidate)) ∧
  (∀ cd, fix_encoding content = (candidate, [MethodFullFile cd]) →
     accepted content cd candidate) ∧
  ((∀ cd c, ¬ accepted content cd c) →
     (fix_encoding content).1
     = join NL ((λ line, (fix_one_line line).1) <$> split NL content)).
Proof.
  split; [apply fix_encoding_cp1252|].
  split; [apply fix_encoding_latin_1|].
  split; [|split].
  - intros cd [H _]. apply utf8_encode_scalar. by eapply reverse_codec_scalar.
  - intros cd. unfold fix_encoding.
    destruct (full_file_fix [cp1252; latin_1] content) as [[cd' f]|] eqn:E.
    + intros [= -> ->]. by apply full_file_fix_Some in E.
    + destruct (fix_lines (split NL content) [] 0) as [fl ch].
      by destruct (0 <? ch)%nat.
  - intros Hno. by apply fix_encoding_lines, full_file_fix_none.
Qed.

(** The theorem on the garbled right single quote. *)
Lemma fix_encoding_strategy_1_witness :
  accepted [0xE2; 0x20AC; 0x2122] cp1252 [0x2019] ∧
  fix_encoding [0xE2; 0x20AC; 0x2122] = ([0x2019], [MethodFullFile cp1252]).
Proof.
  assert (H : accepted [0xE2; 0x20AC; 0x2122] cp1252 [0x2019]).
  { split; [reflexivity|simpl; lia]. }
  split; [exact H|].
  by apply (fix_encoding_strategy_1 [0xE2; 0x20AC; 0x2122] [0x2019]).
Defined.

(** C2 as stated fails on [é] garbled twice: the segment repair primitive
    with its second round gives [é], valid UTF-8 and strictly shorter than
    the content, while [fix_encoding] returns the first reversal [Ã ©]. *)
Lemma fix_encoding_collapse_counterexample :
  fix_mojibake_segment [0xC3; 0x192; 0xC2; 0xA9] = [0xE9] ∧
  is_Some (utf8_encode [0xE9]) ∧
  (length [0xE9] < length [0xC3; 0x192; 0xC2; 0xA9])%nat ∧
  fix_encoding [0xC3; 0x192; 0xC2; 0xA9] = ([0xC3; 0xA9], [MethodFullFile cp1252]) ∧
  (fix_encoding [0xC3; 0x192; 0xC2; 0xA9]).1
    ≠ fix_mojibake_segment [0xC3; 0x192; 0xC2; 0xA9].
Proof.
  split; [reflexivity|]. split; [by eexists|]. split; [simpl; lia|].
  split; [reflexivity|]. by vm_compute.
Qed.

(** ** The scenarios of the specification *)

(** C6.  The three passes turn [It’s great] with the quote garbled into
    [It’s great] with U+2019, and [wait—then] with the dash garbled into
    [wait—then] with U+2014. *)
Theorem repair_scenarios :
  (repair ([0x49; 0x74] ++ [0xE2; 0x20AC; 0x2122]
           ++ [0x73; 0x20; 0x67; 0x72; 0x65; 0x61; 0x74])).1
  = [0x49; 0x74] ++ [0x2019] ++ [0x73; 0x20; 0x67; 0x72; 0x65; 0x61; 0x74] ∧
  (repair ([0x77; 0x61; 0x69; 0x74] ++ [0xE2; 0x20AC; 0x201D]
           ++ [0x74; 0x68; 0x65; 0x6E])).1
  = [0x77; 0x61; 0x69; 0x74] ++ [0x2014] ++ [0x74; 0x68; 0x65; 0x6E].
Proof. split; by vm_compute. Qed.

(** ** The ASCII part of the text *)

Lemma ascii_part_cons_ascii c s :
  c < 0x80 → ascii_part (c :: s) = c :: ascii_part s.
Proof. intros H. unfold ascii_part. by rewrite filter_cons_True. Qed.

Lemma ascii_part_cons_high c s :
  0x80 ≤ c → ascii_part (c :: s) = ascii_part s.
Proof. intros H. unfold ascii_part. rewrite filter_cons_False; [done|lia]. Qed.

Lemma ascii_part_app s t : ascii_part (s ++ t) = ascii_part s ++ ascii_part t.
Proof. apply filter_app. Qed.

Lemma ascii_part_high s : Forall (λ c, 0x80 ≤ c) s → ascii_part s = [].
Proof. apply filter_high_nil. Qed.

Lemma encode_ascii_part cd s bs :
  encode cd s = Some bs → ascii_part bs = ascii_part s.
Proof.
  revert bs. induction s as [|c s IH]; intros bs H.
  - by injection H as <-.
  - apply encode_Some_inv in H as (b & bs' & Hb & Hs & ->).
    destruct (N.ltb_spec c 0x80) as [Hc|Hc].
    + rewrite encode_char_ascii in Hb by done. injection Hb as <-.
      rewrite !ascii_part_cons_ascii by done. by rewrite (IH _ Hs).
    + apply encode_char_high in Hb; [|done].
      rewrite !ascii_part_cons_high by lia. by apply IH.
Qed.

Lemma utf8_decode_ascii_part bs s :
  utf8_decode bs = Some s → ascii_part s = ascii_part bs.
Proof.
  revert bs s. apply utf8_decode_ind.
  - done.
  - intros b0 r s Hb _ IH. rewrite !ascii_part_cons_ascii by done.
    by rewrite IH.
  - intros b0 b1 r s Hb C1 _ IH. apply is_cont_range in C1.
    rewrite !ascii_part_cons_high by (unfold cp2; lia). done.
  - intros b0 b1 b2 r s Hb C1 C2 Hc _ _ IH. apply is_cont_range in C1, C2.
    rewrite !ascii_part_cons_high by lia. done.
  - intros b0 b1 b2 b3 r s Hb C1 C2 C3 Hc _ IH.
    apply is_cont_range in C1, C2, C3.
    rewrite !ascii_part_cons_high by lia. done.
Qed.

Lemma reverse_codec_ascii_part cd s s' :
  reverse_codec cd s = Some s' → ascii_part s' = ascii_part s.
Proof.
  intros (bs & He & Hd)%reverse_codec_Some.
  rewrite (utf8_decode_ascii_part _ _ Hd). by eapply encode_ascii_part.
Qed.

Lemma fix_one_line_ascii_part line :
  ascii_part (fix_one_line line).1 = ascii_part line.
Proof.
  destruct (fix_one_line_cases line) as [->|[(cd & H)| ->]].
  - done.
  - by eapply reverse_codec_ascii_part.
  - apply fix_line_segments_ascii.
Qed.

Lemma ascii_part_join pieces :
  ascii_part (join NL pieces) = join NL (ascii_part <$> pieces).
Proof.
  induction pieces as [|piece pieces IH]; [done|].
  destruct pieces as [|piece' pieces]; [done|].
  change (join NL (piece :: piece' :: pieces))
    with (piece ++ NL :: join NL (piece' :: pieces)).
  rewrite ascii_part_app, ascii_part_cons_ascii by (unfold NL; lia).
  by rewrite IH.
Qed.

Lemma ascii_part_split s :
  split NL (ascii_part s) = ascii_part <$> split NL s.
Proof.
  induction s as [|c s IH]; [done|].
  destruct (N.eqb_spec c NL) as [->|Hc].
  - rewrite ascii_part_cons_ascii by (unfold NL; lia).
    by rewrite !split_cons_sep, IH.
  - destruct (split_cons_other NL c s Hc) as (piece & pieces & E1 & E2).
    rewrite E2. rewrite E1 in IH. rewrite !fmap_cons in *.
    destruct (N.ltb_spec c 0x80) as [Ha|Ha].
    + rewrite !ascii_part_cons_ascii by done.
      destruct (split_cons_other NL c (ascii_part s) Hc)
        as (piece1 & pieces1 & E3 & E4).
      rewrite E4. rewrite E3 in IH. by injection IH as -> ->.
    + by rewrite !ascii_part_cons_high by done.
Qed.

Lemma fix_encoding_ascii_part content :
  ascii_part (fix_encoding content).1 = ascii_part content.
Proof.
  destruct (full_file_fix [cp1252; latin_1] content) as [[cd f]|] eqn:E.
  - unfold fix_encoding. rewrite E. simpl.
    apply full_file_fix_Some in E as [E _].
    by eapply reverse_codec_ascii_part.
  - rewrite fix_encoding_lines by done.
    rewrite <- (join_split NL content) at 2.
    rewrite !ascii_part_join. f_equal.
    rewrite <- list_fmap_compose. apply list_fmap_ext.
    intros i line _. apply fix_one_line_ascii_part.
Qed.

Lemma replace_ascii_part a p new s :
  Forall (λ c, 0x80 ≤ c) (a :: p) → Forall (λ c, 0x80 ≤ c) new →
  ascii_part (replace (a :: p) new s) = ascii_part s.
Proof.
  intros Hold Hnew.
  induction s as [|s IH|c s Hc IH] using (scan_ind a p).
  - done.
  - rewrite replace_match, !ascii_part_app, IH.
    by rewrite (ascii_part_high (a :: p)), (ascii_part_high new) by done.
  - rewrite replace_cons_skip by done.
    destruct (N.ltb_spec c 0x80).
    + rewrite !ascii_part_cons_ascii by done. by rewrite IH.
    + by rewrite !ascii_part_cons_high by done.
Qed.

Lemma entry_ok_ascii_part garbled correct s :
  entry_ok garbled correct = true →
  ascii_part (replace garbled correct s) = ascii_part s.
Proof.
  intros (a & p & -> & _ & Hg & Hc & _)%entry_ok_inv.
  by apply replace_ascii_part.
Qed.

Lemma control_char_loop_ascii_part table fixed out :
  Forall (λ e, entry_ok e.1 e.2 = true) table →
  ascii_part (control_char_loop table fixed out).1 = ascii_part fixed.
Proof.
  intros Htable. revert fixed out.
  induction Htable as [|[garbled correct] table He _ IH]; intros fixed out;
    [done|].
  simpl. destruct (contains garbled fixed); [|by apply IH].
  rewrite IH. by apply entry_ok_ascii_part.
Qed.

Lemma replacements_loop_ascii_part table result total out :
  Forall (λ e, entry_ok e.1.1 e.1.2 = true) table →
  ascii_part (replacements_loop table result total out).1.1
  = ascii_part result.
Proof.
  intros Htable. revert result total out.
  induction Htable as [|[[garbled correct] desc] table He _ IH];
    intros result total out; [done|].
  simpl. destruct (contains garbled result); [|by apply IH].
  rewrite IH. by apply entry_ok_ascii_part.
Qed.

(** The three passes keep the characters below U+0080, in their order. *)
Lemma repair_ascii_part content :
  ascii_part (repair content).1 = ascii_part content.
Proof.
  rewrite repair_fst. cbv zeta.
  assert (H2 : ascii_part
      (control_char_loop control_char_fixes (fix_encoding content).1 []).1
      = ascii_part content).
  { rewrite control_char_loop_ascii_part by apply control_char_fixes_ok.
    apply fix_encoding_ascii_part. }
  destruct (scan_remaining_issues _); [done|].
  rewrite apply_known_replacements_fst.
  by rewrite replacements_loop_ascii_part by apply replacements_ok.
Qed.

(** ** Line ends *)

Lemma split_length sep s : length (split sep s) = S (occurrences sep s).
Proof.
  induction s as [|c s IH]; [done|].
  destruct (N.eqb_spec c sep) as [->|Hc].
  - rewrite split_cons_sep. simpl. by rewrite N.eqb_refl, IH.
  - destruct (split_cons_other sep c s Hc) as (piece & pieces & E1 & E2).
    rewrite E2. rewrite E1 in IH. cbn [occurrences].
    apply N.eqb_neq in Hc. by rewrite Hc.
Qed.

(** C10.  The repaired content has exactly as many line ends (U+000A) as the
    input, hence as many lines; and line by line, in the order of the input,
    the characters below U+0080 of the output line are those of the input
    line. *)
Theorem repair_line_count (content : list N) :
  occurrences NL (repair content).1 = occurrences NL content ∧
  length (split NL (repair content).1) = length (split NL content) ∧
  ascii_part <$> split NL (repair content).1
  = ascii_part <$> split NL content.
Proof.
  assert (H : occurrences NL (repair content).1 = occurrences NL content)
    by (by apply repair_occurrences).
  split; [done|]. split; [by rewrite !split_length, H|].
  by rewrite <- !ascii_part_split, repair_ascii_part.
Qed.

(** ** Reading and writing files *)

Lemma universal_newlines_Forall (P : N → Prop) s :
  P NL → Forall P s → Forall P (universal_newlines s).
Proof.
  intros HNL. remember (length s) as n eqn:Hn. revert s Hn.
  induction n as [n IH] using lt_wf_ind. intros s Hn Hs.
  destruct s as [|c s]; [done|]. apply Forall_cons in Hs as [Hc Hs].
  simpl. destruct (c =? CR).
  - constructor; [done|]. destruct s as [|d s]; [done|].
    apply Forall_cons in Hs as [Hd Hs].
    destruct (d =? NL).
    + eapply IH; [|reflexivity|done]. subst n. simpl. lia.
    + eapply IH; [|reflexivity|by constructor]. subst n. simpl. lia.
  - constructor; [done|]. eapply IH; [|reflexivity|done]. subst n. simpl. lia.
Qed.

Lemma string_length_append (a b : string) :
  String.length (a +:+ b) = (String.length a + String.length b)%nat.
Proof. induction a as [|c a IH]; [done|]. simpl. by rewrite IH. Qed.


(** ** fix_file, case by case *)

Lemma fix_file_missing filepath dry_run w :
  files w !! filepath = None →
  fix_file filepath dry_run w
  = (Val false, World (files w) (console w ++ [FileNotFound filepath])).
Proof.
  intros H. unfold fix_file, mbind, cmd_bind, path_exists. simpl.
  rewrite H. rewrite bool_decide_false by (by intros [? ?]). done.
Qed.

Lemma fix_file_undecodable filepath dry_run w data :
  files w !! filepath = Some data → utf8_decode data = None →
  fix_file filepath dry_run w
  = (Exc UnicodeDecodeError,
     World (files w) (console w ++ [Processing filepath])).
Proof.
  intros H Hd. unfold fix_file, mbind, cmd_bind, path_exists, read_text. simpl.
  rewrite H. rewrite bool_decide_true by eauto. simpl. by rewrite H, Hd.
Qed.

Lemma fix_file_unchanged filepath dry_run w data text :
  files w !! filepath = Some data → utf8_decode data = Some text →
  (repair (universal_newlines text)).1 = universal_newlines text →
  fix_file filepath dry_run w
  = (Val true,
     World (files w)
           (((console w ++ [Processing filepath])
             ++ (repair (universal_newlines text)).2) ++ [NoIssuesFound])).
Proof.
  intros H Hd Hr.
  unfold fix_file, mbind, cmd_bind, path_exists, read_text. simpl.
  rewrite H. rewrite bool_decide_true by eauto. simpl. rewrite H, Hd.
  destruct (repair (universal_newlines text)) as [fixed out]. simpl in *.
  subst fixed. by rewrite bool_decide_true by done.
Qed.

Lemma fix_file_dry_run filepath w data text :
  files w !! filepath = Some data → utf8_decode data = Some text →
  (repair (universal_newlines text)).1 ≠ universal_newlines text →
  fix_file filepath true w
  = (Val true,
     World (files w)
           ((((console w ++ [Processing filepath])
              ++ (repair (universal_newlines text)).2)
             ++ change_report (universal_newlines text)
                  (repair (universal_newlines text)).1)
            ++ [DryRunNoChanges])).
Proof.
  intros H Hd Hr.
  unfold fix_file, mbind, cmd_bind, path_exists, read_text. simpl.
  rewrite H. rewrite bool_decide_true by eauto. simpl. rewrite H, Hd.
  unfold change_report.
  destruct (repair (universal_newlines text)) as [fixed out]. simpl in *.
  rewrite bool_decide_false by done. simpl.
  destruct (scan_remaining_issues fixed); simpl; by rewrite <- !app_assoc.
Qed.

Lemma fix_file_written filepath w data text fixed_data :
  files w !! filepath = Some data → utf8_decode data = Some text →
  (repair (universal_newlines text)).1 ≠ universal_newlines text →
  utf8_encode (repair (universal_newlines text)).1 = Some fixed_data →
  fix_file filepath false w
  = (Val true,
     World (<[filepath := fixed_data]>
              (<[filepath +:+ ".backup" := data]> (files w)))
           ((((console w ++ [Processing filepath])
              ++ (repair (universal_newlines text)).2)
             ++ change_report (universal_newlines text)
                  (repair (universal_newlines text)).1)
            ++ [BackupWritten (filepath +:+ ".backup"); FixedSuccessfully])).
Proof.
  intros H Hd Hr He.
  unfold fix_file, mbind, cmd_bind, path_exists, read_text, copy2, write_text.
  simpl. rewrite H. rewrite bool_decide_true by eauto. simpl. rewrite H, Hd.
  unfold change_report.
  destruct (repair (universal_newlines text)) as [fixed out]. simpl in *.
  rewrite bool_decide_false by done. simpl.
  destruct (scan_remaining_issues fixed); simpl; rewrite H, He; simpl;
    by rewrite <- !app_assoc.
Qed.

(** What [repair] gets from a file is text that can be written back. *)
Lemma read_scalar data text :
  utf8_decode data = Some text →
  Forall (λ c, scalar c = true) (universal_newlines text).
Proof.
  intros H. apply universal_newlines_Forall; [done|].
  by eapply utf8_decode_scalar.
Qed.

Lemma repair_encodable data text :
  utf8_decode data = Some text →
  is_Some (utf8_encode (repair (universal_newlines text)).1).
Proof.
  intros H. by eapply utf8_encode_scalar, repair_scalar, read_scalar.
Qed.

(** ** Clean input *)

(** C4.  A string of characters below U+0080 comes out of the three passes
    unchanged, with nothing printed; [fix_file] on a file of such content
    reports that there are no issues and leaves every file as it is: nothing
    written, no backup. *)
Theorem clean_input_unchanged :
  (∀ content, Forall (λ c, c < 0x80) content → repair content = (content, [])) ∧
  (∀ filepath dry_run w data,
     files w !! filepath = Some data → Forall (λ b, b < 0x80) data →
     fix_file filepath dry_run w
     = (Val true,
        World (files w) (console w ++ [Processing filepath; NoIssuesFound]))).
Proof.
  split; [apply repair_ascii|].
  intros filepath dry_run w data H Hdata.
  assert (Hu : Forall (λ c, c < 0x80) (universal_newlines data)).
  { apply universal_newlines_Forall; [unfold NL; lia|done]. }
  rewrite (fix_file_unchanged filepath dry_run w data data H).
  - rewrite repair_ascii by done. simpl. by rewrite app_nil_r, <- app_assoc.
  - by apply utf8_decode_ascii.
  - by rewrite repair_ascii.
Qed.

(** The theorem on the file [hi] with a line end. *)
Lemma clean_input_unchanged_witness :
  repair [0x68; 0x69; 0x0A] = ([0x68; 0x69; 0x0A], []) ∧
  fix_file "a.txt" false (World {[ "a.txt"%string := [0x68; 0x69; 0x0A] ]} [])
  = (Val true,
     World {[ "a.txt"%string := [0x68; 0x69; 0x0A] ]}
           [Processing "a.txt"; NoIssuesFound]).
Proof.
  destruct clean_input_unchanged as [Hrepair Hfile]. split.
  - apply Hrepair. repeat constructor; lia.
  - rewrite (Hfile "a.txt"%string false
               (World {[ "a.txt"%string := [0x68; 0x69; 0x0A] ]} [])
               [0x68; 0x69; 0x0A]).
    + reflexivity.
    + apply lookup_singleton_eq.
    + repeat constructor; lia.
Defined.

(** ** Backup and write *)



(** ** Dry run *)

Lemma fix_file_dry_run_files filepath w :
  files (fix_file filepath true w).2 = files w.
Proof.
  destruct (files w !! filepath) as [data|] eqn:H.
  2:{ by rewrite fix_file_missing. }
  destruct (utf8_decode data) as [text|] eqn:Hd.
  2:{ by rewrite (fix_file_undecodable _ _ _ data). }
  destruct (decide ((repair (universal_newlines text)).1 = universal_newlines text))
    as [Hr|Hr].
  - by rewrite (fix_file_unchanged _ _ _ data text).
  - by rewrite (fix_file_dry_run _ _ data text).
Qed.

Lemma files_loop_dry_run_files args success w :
  files (files_loop args true success w).2 = files w.
Proof.
  revert success w. induction args as [|filepath args IH]; intros success w;
    [done|].
  simpl. unfold mbind, cmd_bind.
  pose proof (fix_file_dry_run_files filepath w) as Hf.
  destruct (fix_file filepath true w) as [[ok|e] w']; simpl in *.
  - by rewrite IH.
  - done.
Qed.

(** C9.  With [--check] anywhere among the arguments the run is a dry run for
    every file: when [main] ends, whatever it printed, the files are those
    it found: none written, no backup made. *)
Theorem check_flag_no_effect (args : list string) (w : world) :
  "--check"%string ∈ args → files (main args w).2 = files w.
Proof.
  intros Hin. unfold main. destruct args as [|a args]; [by apply elem_of_nil in Hin|].
  rewrite bool_decide_true by done.
  unfold mbind, cmd_bind, print. simpl.
  pose proof (files_loop_dry_run_files
    (remove_first "--check" (a :: args)) true
    (World (files w) (console w ++ [DryRunMode]))) as Hf.
  simpl in Hf.
  destruct (files_loop _ true true _) as [[ok|e] w']; simpl in *; done.
Qed.

(** The theorem on a run with the flag after the file name. *)
Lemma check_flag_no_effect_witness :
  files (main ["a.txt"%string; "--check"%string]
           (World {[ "a.txt"%string := [0xC3; 0xA2; 0xE2; 0x82; 0xAC; 0xE2; 0x84; 0xA2] ]} [])).2
  = {[ "a.txt"%string := [0xC3; 0xA2; 0xE2; 0x82; 0xAC; 0xE2; 0x84; 0xA2] ]}.
Proof.
  assert (Hin : "--check"%string ∈ ["a.txt"%string; "--check"%string]).
  { apply elem_of_cons. right. apply elem_of_cons. by left. }
  exact (check_flag_no_effect ["a.txt"%string; "--check"%string]
    (World {[ "a.txt"%string := [0xC3; 0xA2; 0xE2; 0x82; 0xAC; 0xE2; 0x84; 0xA2] ]} [])
    Hin).
Defined.

(** ** Repetitions of a garbled string *)

Lemma reverse_codec_times cd g c n :
  reverse_codec cd g = Some c →
  reverse_codec cd (times n g) = Some (times n c).
Proof.
  intros H. induction n as [|n IH]; [done|].
  rewrite !times_S. by apply reverse_codec_app.
Qed.

Lemma never_in_table {A} (f : A → list N) (table : list A) g n :
  forallb (λ e, never_in (f e) g) table = true →
  Forall (λ e, contains (f e) (times n g) = false) table.
Proof.
  intros H. apply Forall_forall. intros e Hin%list_elem_of_In.
  apply never_in_times. by apply (proj1 (forallb_forall _ _) H).
Qed.

(** A repetition that Windows-1252 reverses to something shorter, in which
    no table finds anything. *)
Lemma repair_times_reversed g c n :
  reverse_codec cp1252 g = Some c →
  (length c < length g)%nat →
  forallb (λ e, never_in e.1 c) control_char_fixes = true →
  forallb (λ p, never_in p c) known_garbled = true →
  repair (times (S n) g) = (times (S n) c, [MethodFullFile cp1252]).
Proof.
  intros Hr Hlen Hcontrol Hscan. unfold repair.
  rewrite (fix_encoding_cp1252 _ (times (S n) c)).
  2:{ split; [by apply reverse_codec_times|]. rewrite !times_length. nia. }
  rewrite control_char_loop_none by (by apply (never_in_table fst)).
  unfold scan_remaining_issues.
  by rewrite scan_loop_none by (by apply (never_in_table id)).
Qed.

(** A repetition that neither codec can encode goes through Pass 1 as it
    is: Strategy 1 and 2 do not apply, Strategy 3 makes one segment of the
    line and the primitive returns it unchanged. *)
Lemma fix_encoding_times_stuck a p c1 c2 n :
  0xC0 ≤ a → Forall (λ c, 0x80 ≤ c) p →
  c1 ∈ a :: p → encode_char cp1252 c1 = None →
  c2 ∈ a :: p → encode_char latin_1 c2 = None →
  fix_encoding (times (S n) (a :: p)) = (times (S n) (a :: p), []).
Proof.
  intros Ha Hp Hc1 He1 Hc2 He2.
  set (l := times (S n) (a :: p)).
  assert (H1 : reverse_codec cp1252 l = None).
  { apply (reverse_codec_None _ _ c1); [by apply times_elem_S|done]. }
  assert (H2 : reverse_codec latin_1 l = None).
  { apply (reverse_codec_None _ _ c2); [by apply times_elem_S|done]. }
  assert (Hhigh : Forall (λ c, 0x80 ≤ c) l).
  { apply Forall_forall. intros x Hx%times_elem.
    apply elem_of_cons in Hx as [->|Hx]; [lia|].
    rewrite Forall_forall in Hp. by apply Hp. }
  assert (Hseg : fix_line_segments l = l).
  { unfold l. rewrite times_S. rewrite <- app_comm_cons.
    rewrite <- (app_nil_r (p ++ times n (a :: p))).
    rewrite fix_line_segments_segment; [| done | | done].
    - rewrite fix_line_segments_nil, !app_nil_r.
      change (a :: p ++ times n (a :: p)) with l.
      unfold fix_mojibake_segment. simpl. by rewrite H1, H2.
    - apply Forall_app. split; [done|].
      apply Forall_forall. intros x Hx%times_elem.
      apply elem_of_cons in Hx as [->|Hx]; [lia|].
      rewrite Forall_forall in Hp. by apply Hp. }
  unfold fix_encoding. simpl full_file_fix. rewrite H1, H2.
  rewrite split_no_sep by (apply high_not_ascii; [unfold NL; lia|done]).
  simpl. unfold fix_one_line. simpl line_fix. rewrite H1, H2, Hseg.
  by rewrite bool_decide_false by auto.
Qed.

(** The loops over the tables, one step at a time. *)
Lemma control_char_loop_app before table fixed out :
  Forall (λ e, contains e.1 fixed = false) before →
  control_char_loop (before ++ table) fixed out
  = control_char_loop table fixed out.
Proof.
  induction 1 as [|[g c] before He _ IH]; [done|].
  simpl in *. by rewrite He.
Qed.

Lemma replacements_loop_app before table result total out :
  Forall (λ e, contains e.1.1 result = false) before →
  replacements_loop (before ++ table) result total out
  = replacements_loop table result total out.
Proof.
  induction 1 as [|[[g c] d] before He _ IH]; [done|].
  simpl in *. by rewrite He.
Qed.

Lemma scan_loop_app before patterns content found :
  Forall (λ pattern, contains pattern content = false) before →
  scan_loop (before ++ patterns) content found
  = scan_loop patterns content found.
Proof.
  induction 1 as [|pattern before Hp _ IH]; [done|].
  simpl. by rewrite Hp.
Qed.

(** The control-character pass on repetitions of the garbled string of one
    of its entries. *)
Lemma control_char_loop_entry before a p c after n :
  forallb (λ e, never_in e.1 (a :: p)) before = true →
  forallb (λ e, never_in e.1 c) after = true →
  control_char_loop (before ++ (a :: p, c) :: after) (times (S n) (a :: p)) []
  = (times (S n) c, [ControlCharFix c (S n)]).
Proof.
  intros Hb Ha.
  rewrite control_char_loop_app by (by apply (never_in_table fst)).
  cbn [control_char_loop].
  rewrite contains_times_self, count_times_self, replace_times.
  by rewrite control_char_loop_none by (by apply (never_in_table fst)).
Qed.

(** The known-replacement pass on repetitions of the garbled string of one
    of its entries. *)
Lemma replacements_loop_entry before a p c desc after n :
  forallb (λ e, never_in e.1.1 (a :: p)) before = true →
  forallb (λ e, never_in e.1.1 c) after = true →
  replacements_loop (before ++ (a :: p, c, desc) :: after)
                    (times (S n) (a :: p)) 0 []
  = (times (S n) c, S n, [Replaced desc (S n)]).
Proof.
  intros Hb Ha.
  rewrite replacements_loop_app
    by (by apply (never_in_table (λ e, e.1.1))).
  cbn [replacements_loop].
  rewrite contains_times_self, count_times_self, replace_times.
  by rewrite replacements_loop_none
    by (by apply (never_in_table (λ e, e.1.1))).
Qed.

(** The residual scan on repetitions of a string that starts with one of
    the patterns. *)
Lemma scan_loop_entry before a p t after n :
  a ∉ t →
  forallb (λ q, never_in q ((a :: p) ++ t)) before = true →
  forallb (λ q, never_in q ((a :: p) ++ t)) after = true →
  scan_loop (before ++ (a :: p) :: after) (times (S n) ((a :: p) ++ t)) []
  = [(a :: p, S n)].
Proof.
  intros Ht Hb Ha.
  rewrite scan_loop_app by (by apply (never_in_table id)).
  cbn [scan_loop].
  rewrite contains_times, count_times by done.
  by rewrite scan_loop_none by (by apply (never_in_table id)).
Qed.

(** ** The entries of the known-replacement table through the passes *)

(** The left arrow: no codec applies (U+0090 is not in Windows-1252, U+2020
    not in Latin-1) and the control-character pass replaces it. *)
Lemma repair_left_arrow n :
  repair (times (S n) [0xE2; 0x2020; 0x90])
  = (times (S n) [0x2190], [ControlCharFix [0x2190] (S n)]).
Proof.
  unfold repair.
  rewrite (fix_encoding_times_stuck 0xE2 [0x2020; 0x90] 0x90 0x2020).
  2: lia.
  2: repeat constructor; lia.
  2,4: repeat (apply elem_of_cons; first [by left | right]).
  2,3: reflexivity.
  change control_char_fixes
    with ([] ++ ([0xE2; 0x2020; 0x90], [0x2190]) :: tail control_char_fixes).
  rewrite control_char_loop_entry by reflexivity.
  unfold scan_remaining_issues.
  by rewrite scan_loop_none by (by apply (never_in_table id)).
Qed.

Lemma scan_right_double_quote n :
  scan_remaining_issues (times (S n) [0xE2; 0x20AC; 0x9D])
  = [([0xE2; 0x20AC], S n)].
Proof.
  unfold scan_remaining_issues.
  change known_garbled
    with (take 1 known_garbled ++ [0xE2; 0x20AC] :: drop 2 known_garbled).
  change [0xE2; 0x20AC; 0x9D] with ([0xE2; 0x20AC] ++ [0x9D]).
  apply scan_loop_entry; [|reflexivity..].
  intros [?|[]%elem_of_nil]%elem_of_cons. done.
Qed.

Lemma apply_known_replacements_right_double_quote n :
  apply_known_replacements (times (S n) [0xE2; 0x20AC; 0x9D])
  = (times (S n) [0x201D],
     [Replaced "right double quote" (S n); FallbackTotal (S n)]).
Proof.
  unfold apply_known_replacements.
  change replacements
    with (take 11 replacements
          ++ ([0xE2; 0x20AC; 0x9D], [0x201D], "right double quote"%string)
          :: drop 12 replacements).
  by rewrite replacements_loop_entry by reflexivity.
Qed.

(** The right double quote: no codec applies (U+009D is not in Windows-1252,
    U+20AC not in Latin-1), the control-character pass does not know it,
    the residual scan finds its first two characters [n] times, and the
    known-replacement pass replaces it. *)
Lemma repair_right_double_quote n :
  repair (times (S n) [0xE2; 0x20AC; 0x9D])
  = (times (S n) [0x201D],
     [Pass2Left (S n); Replaced "right double quote" (S n);
      FallbackTotal (S n)]).
Proof.
  unfold repair.
  rewrite (fix_encoding_times_stuck 0xE2 [0x20AC; 0x9D] 0x9D 0x20AC).
  2: lia.
  2: repeat constructor; lia.
  2,4: repeat (apply elem_of_cons; first [by left | right]).
  2,3: reflexivity.
  rewrite control_char_loop_none by (by apply (never_in_table fst)).
  cbv zeta. rewrite scan_right_double_quote.
  rewrite apply_known_replacements_right_double_quote.
  unfold sum_counts. cbn [foldr snd app]. by rewrite Nat.add_0_r.
Qed.

(** C5, amended.  For every entry of the known-replacement table but the
    checkmark variant, the three passes turn [n ≥ 1] copies of the garbled
    string into [n] copies of the correct character.  The count [n] is
    printed where a table does the repair: by the control-character pass
    for the left arrow, by the known-replacement pass (after the residual
    scan counted [n]) for the right double quote.  The other entries are
    repaired by the reversal of the whole content with Windows-1252, which
    prints no count. *)
Theorem known_patterns_repaired (garbled correct : list N) (desc : string)
    (n : nat) :
  (garbled, correct, desc) ∈ replacements →
  desc ≠ "checkmark variant"%string →
  (1 ≤ n)%nat →
  repair (times n garbled) = (times n correct, expected_report desc correct n).
Proof.
  intros Hin Hdesc Hn. destruct n as [|n]; [lia|]. clear Hn.
  unfold replacements in Hin.
  repeat (apply elem_of_cons in Hin as [[= -> -> ->]|Hin];
          [lazymatch goal with
           | |- context [expected_report "checkmark variant"] => done
           | |- context [expected_report "left arrow"] =>
             apply repair_left_arrow
           | |- context [expected_report "right double quote"] =>
             apply repair_right_double_quote
           | _ => apply repair_times_reversed;
                  [reflexivity | simpl; lia | reflexivity | reflexivity]
           end
          |]).
  by apply elem_of_nil in Hin.
Qed.

(** The theorem on three garbled bullets. *)
Lemma known_patterns_repaired_witness :
  repair (times 3 [0xE2; 0x20AC; 0xA2])
  = (times 3 [0x2022], [MethodFullFile cp1252]).
Proof.
  apply (known_patterns_repaired [0xE2; 0x20AC; 0xA2] [0x2022] "bullet" 3).
  - unfold replacements. repeat (apply elem_of_cons; first [by left | right]).
  - discriminate.
  - lia.
Defined.

(** C5 as stated fails.  The checkmark variant is an entry of the table
    with U+2713 as its correct character, and the passes turn its garbled
    string into U+2714, by codec reversal.  And where codec reversal does
    the repair, as for the right single quote, nothing is replaced from the
    table and no count of replaced occurrences is printed. *)
Lemma known_patterns_counterexample :
  ([0xE2; 0x153; 0x201D], [0x2713], "checkmark variant"%string) ∈ replacements ∧
  repair (times 1 [0xE2; 0x153; 0x201D]) = ([0x2714], [MethodFullFile cp1252]) ∧
  (repair (times 1 [0xE2; 0x153; 0x201D])).1 ≠ times 1 [0x2713] ∧
  ([0xE2; 0x20AC; 0x2122], [0x2019], "right single quote"%string) ∈ replacements ∧
  repair (times 1 [0xE2; 0x20AC; 0x2122]) = ([0x2019], [MethodFullFile cp1252]).
Proof.
  split.
  { unfold replacements. repeat (apply elem_of_cons; first [by left | right]). }
  split; [reflexivity|]. split; [by vm_compute|]. split; [|reflexivity].
  unfold replacements. repeat (apply elem_of_cons; first [by left | right]).
Qed.

(** * Further properties of the program *)

(** ** A repair never makes the text longer *)

Lemma shrunk_refl s : shrunk s s.
Proof. by left. Qed.

Lemma shrunk_length s s' : shrunk s s' → (length s' ≤ length s)%nat.
Proof. intros [->|?]; lia. Qed.

Lemma shrunk_trans s1 s2 s3 : shrunk s1 s2 → shrunk s2 s3 → shrunk s1 s3.
Proof.
  intros [->|H1] [->|H2]; [by left|by right|by right|right; lia].
Qed.

Lemma shrunk_app s s' t t' : shrunk s s' → shrunk t t' → shrunk (s ++ t) (s' ++ t').
Proof.
  intros [->|H1] [->|H2]; [by left|right..]; rewrite !length_app; lia.
Qed.

Lemma shrunk_cons c s s' : shrunk s s' → shrunk (c :: s) (c :: s').
Proof. intros [->|H]; [by left|right; simpl; lia]. Qed.

(** A character of several bytes makes the text shorter than the bytes. *)
Lemma utf8_decode_shorter bs s :
  utf8_decode bs = Some s →
  Exists (λ b, 0x80 ≤ b) bs → (length s < length bs)%nat.
Proof.
  intros H. pose proof (utf8_decode_length bs s H) as Hle. revert bs s H Hle.
  apply (utf8_decode_ind (λ bs s, (length s ≤ length bs)%nat →
    Exists (λ b, 0x80 ≤ b) bs → (length s < length bs)%nat)).
  - intros _ H. inversion H.
  - intros b0 r s Hb Hd IH _ [Hh|Hh]%Exists_cons; [lia|]. simpl.
    apply utf8_decode_length in Hd. specialize (IH Hd Hh). lia.
  - intros b0 b1 r s _ _ Hd _ _ _. apply utf8_decode_length in Hd. simpl. lia.
  - intros b0 b1 b2 r s _ _ _ _ _ Hd _ _ _.
    apply utf8_decode_length in Hd. simpl. lia.
  - intros b0 b1 b2 b3 r s _ _ _ _ _ Hd _ _ _.
    apply utf8_decode_length in Hd. simpl. lia.
Qed.

Lemma ascii_or_high (s : list N) :
  Forall (λ c, c < 0x80) s ∨ Exists (λ c, 0x80 ≤ c) s.
Proof.
  induction s as [|c s [IH|IH]]; [by left| |].
  - destruct (N.ltb_spec c 0x80); [left; by constructor|right; by left].
  - right. by right.
Qed.

Lemma encode_Exists_high cd s bs :
  encode cd s = Some bs →
  Exists (λ c, 0x80 ≤ c) s → Exists (λ b, 0x80 ≤ b) bs.
Proof.
  revert bs. induction s as [|c s IH]; intros bs H Hs; [inversion Hs|].
  apply encode_Some_inv in H as (b & bs' & Hb & Hs' & ->).
  apply Exists_cons in Hs as [Hc|Hs].
  - left. apply encode_char_high in Hb; [lia|done].
  - right. by apply IH.
Qed.

(** One codec reversal returns the text or something strictly shorter. *)
Lemma reverse_codec_shrunk cd s s' :
  reverse_codec cd s = Some s' → shrunk s s'.
Proof.
  intros H. destruct (ascii_or_high s) as [Ha|Hh].
  - rewrite reverse_codec_ascii in H by done. injection H as <-. by left.
  - apply reverse_codec_Some in H as (bs & He & Hd). right.
    pose proof (length_mapM _ _ _ He).
    pose proof (utf8_decode_shorter _ _ Hd (encode_Exists_high _ _ _ He Hh)).
    lia.
Qed.

Lemma fix_mojibake_segment_shrunk text : shrunk text (fix_mojibake_segment text).
Proof.
  destruct (fix_mojibake_segment_cases text)
    as [->|[(cd & H)|(cd & once & H1 & H2)]].
  - apply shrunk_refl.
  - by eapply reverse_codec_shrunk.
  - eapply shrunk_trans; by eapply reverse_codec_shrunk.
Qed.

Lemma splice_shrunk fuel l :
  (length l ≤ fuel)%nat → shrunk l (splice fuel l).
Proof.
  revert l. induction fuel as [|fuel IH]; intros l Hl.
  - destruct l; simpl in *; [by left|lia].
  - destruct l as [|c l]; [by left|]. cbn [splice].
    destruct (N.leb_spec 0xC0 c) as [Hc|Hc].
    + rewrite <- (take_drop (run_length (c :: l)) (c :: l)) at 1.
      apply shrunk_app; [apply fix_mojibake_segment_shrunk|].
      apply IH. rewrite length_drop. simpl in *.
      replace (0x80 <=? c) with true by (symmetry; apply N.leb_le; lia). lia.
    + apply shrunk_cons, IH. simpl in *. lia.
Qed.

Lemma fix_line_segments_shrunk line : shrunk line (fix_line_segments line).
Proof. rewrite fix_line_segments_splice. by apply splice_shrunk. Qed.

Lemma fix_one_line_shrunk line : shrunk line (fix_one_line line).1.
Proof.
  destruct (fix_one_line_cases line) as [->|[(cd & H)| ->]].
  - apply shrunk_refl.
  - by eapply reverse_codec_shrunk.
  - apply fix_line_segments_shrunk.
Qed.

Lemma join_length sep piece pieces :
  length (join sep (piece :: pieces))
  = (length piece
     + match pieces with [] => 0 | _ :: _ => S (length (join sep pieces)) end)%nat.
Proof.
  destruct pieces as [|piece' pieces]; simpl; [lia|].
  rewrite length_app. simpl. lia.
Qed.

(** Lines that shrink give a joined text that shrinks; it is the same text
    only when every line is the same. *)
Lemma join_shrunk sep lines lines' :
  Forall2 shrunk lines lines' →
  lines' = lines ∨ (length (join sep lines') < length (join sep lines))%nat.
Proof.
  induction 1 as [|l l' lines lines' Hl Hls IH]; [by left|].
  rewrite !join_length.
  assert (Hn : match lines' with [] => lines = [] | _ :: _ => lines ≠ [] end).
  { by destruct Hls. }
  destruct Hl as [->|Hl], IH as [->|IH].
  - by left.
  - right. destruct lines, lines'; simpl in *; try done; lia.
  - right. destruct lines; lia.
  - right. destruct lines, lines'; simpl in *; try done; lia.
Qed.

Lemma fix_encoding_shrunk content : shrunk content (fix_encoding content).1.
Proof.
  destruct (full_file_fix [cp1252; latin_1] content) as [[cd f]|] eqn:E.
  - unfold fix_encoding. rewrite E. simpl.
    apply full_file_fix_Some in E as [_ E]. by right.
  - rewrite fix_encoding_lines by done.
    destruct (join_shrunk NL (split NL content)
                ((λ line, (fix_one_line line).1) <$> split NL content))
      as [Heq|Hlt].
    + apply Forall2_fmap_r, Forall_Forall2_diag, Forall_forall.
      intros line _. apply fix_one_line_shrunk.
    + left. by rewrite Heq, join_split.
    + right. by rewrite join_split in Hlt.
Qed.

(** Replacing by a shorter string: the text shrinks, strictly when the old
    string occurs. *)
Lemma replace_shorter a p new s :
  (length new < length (a :: p))%nat →
  (length (replace (a :: p) new s) ≤ length s)%nat ∧
  (contains (a :: p) s = true →
   (length (replace (a :: p) new s) < length s)%nat).
Proof.
  intros Hlen. induction s as [|s [IH1 IH2]|c s Hc [IH1 IH2]] using (scan_ind a p).
  - split; [done|]. by rewrite contains_nil.
  - rewrite replace_match, !length_app. split; [lia|]. intros _. lia.
  - rewrite replace_cons_skip by done. rewrite contains_cons, Hc.
    cbn [length orb].
    split; [lia|]. intros H. specialize (IH2 H). lia.
Qed.

Lemma control_char_fixes_shorter :
  Forall (λ e, entry_shorter e.1 e.2 = true) control_char_fixes.
Proof. repeat constructor. Qed.

Lemma replacements_shorter :
  Forall (λ e, entry_shorter e.1.1 e.1.2 = true) replacements.
Proof. repeat constructor. Qed.

Lemma entry_replace_shrunk garbled correct s :
  entry_ok garbled correct = true → entry_shorter garbled correct = true →
  contains garbled s = true →
  (length (replace garbled correct s) < length s)%nat.
Proof.
  intros (a & p & -> & _)%entry_ok_inv Hlen%Nat.ltb_lt Hc.
  by apply replace_shorter.
Qed.

(** Each step of the control-character pass that finds its string makes the
    text strictly shorter and prints a line. *)
Lemma control_char_loop_shrinks table fixed out :
  Forall (λ e, entry_ok e.1 e.2 = true) table →
  Forall (λ e, entry_shorter e.1 e.2 = true) table →
  control_char_loop table fixed out = (fixed, out) ∨
  (length (control_char_loop table fixed out).1 < length fixed)%nat.
Proof.
  intros Hok Hsh. revert fixed out.
  induction table as [|[g c] table IH]; intros fixed out; [by left|].
  apply Forall_cons in Hok as [Hok1 Hok], Hsh as [Hsh1 Hsh].
  simpl in *. destruct (contains g fixed) eqn:Hc; [|by apply IH].
  right. pose proof (entry_replace_shrunk g c fixed Hok1 Hsh1 Hc).
  destruct (IH Hok Hsh (replace g c fixed)
              (out ++ [ControlCharFix c (count g fixed)])) as [->|H']; simpl; lia.
Qed.

Lemma replacements_loop_shrinks table result total out :
  Forall (λ e, entry_ok e.1.1 e.1.2 = true) table →
  Forall (λ e, entry_shorter e.1.1 e.1.2 = true) table →
  replacements_loop table result total out = (result, total, out) ∨
  (length (replacements_loop table result total out).1.1 < length result)%nat.
Proof.
  intros Hok Hsh. revert result total out.
  induction table as [|[[g c] d] table IH]; intros result total out; [by left|].
  apply Forall_cons in Hok as [Hok1 Hok], Hsh as [Hsh1 Hsh].
  simpl in *. destruct (contains g result) eqn:Hc; [|by apply IH].
  right. pose proof (entry_replace_shrunk g c result Hok1 Hsh1 Hc).
  destruct (IH Hok Hsh (replace g c result) (total + count g result)%nat
              (out ++ [Replaced d (count g result)])) as [->|H']; simpl; lia.
Qed.

Lemma apply_known_replacements_shrunk content :
  shrunk content (apply_known_replacements content).1.
Proof.
  rewrite apply_known_replacements_fst.
  destruct (replacements_loop_shrinks replacements content 0 []
              replacements_ok replacements_shorter) as [->|H];
    [by left|by right].
Qed.

Lemma repair_shrunk content : shrunk content (repair content).1.
Proof.
  rewrite repair_fst. cbv zeta.
  assert (H2 : shrunk content
      (control_char_loop control_char_fixes (fix_encoding content).1 []).1).
  { eapply shrunk_trans; [apply fix_encoding_shrunk|].
    destruct (control_char_loop_shrinks control_char_fixes
                (fix_encoding content).1 []
                control_char_fixes_ok control_char_fixes_shorter) as [->|H];
      [by left|by right]. }
  destruct (scan_remaining_issues _); [done|].
  eapply shrunk_trans; [exact H2|apply apply_known_replacements_shrunk].
Qed.

(** X1.  The three passes never make the text longer: the repaired content
    is the content itself or strictly shorter.  So the number that
    [fix_file] prints as "Characters collapsed", the length of the content
    less the length of the repaired content, is positive whenever it is
    printed. *)
Theorem repair_never_longer (content : list N) :
  shrunk content (repair content).1 ∧
  ((repair content).1 ≠ content →
   (0 < Z.of_nat (length content) - Z.of_nat (length (repair content).1))%Z).
Proof.
  pose proof (repair_shrunk content) as H. split; [done|].
  intros Hne. destruct H as [?|H]; [done|]. lia.
Qed.

(** The theorem on a garbled bullet between two words. *)
Lemma repair_never_longer_witness :
  Z.lt 0%Z (Z.sub (Z.of_nat (length [0x61; 0xE2; 0x20AC; 0xA2; 0x62]))
                  (Z.of_nat (length (repair [0x61; 0xE2; 0x20AC; 0xA2; 0x62]).1))).
Proof.
  apply (repair_never_longer [0x61; 0xE2; 0x20AC; 0xA2; 0x62]).
  by vm_compute.
Defined.

(** X2.  The segment repair primitive returns its input or a strictly
    shorter string, with the characters below U+0080 of the input in
    their order; a string of such characters alone is returned as it is. *)
Theorem fix_mojibake_segment_conservative (text : list N) :
  shrunk text (fix_mojibake_segment text) ∧
  ascii_part (fix_mojibake_segment text) = ascii_part text ∧
  (Forall (λ c, c < 0x80) text → fix_mojibake_segment text = text).
Proof.
  split; [apply fix_mojibake_segment_shrunk|]. split.
  - destruct (fix_mojibake_segment_cases text)
      as [->|[(cd & H)|(cd & once & H1 & H2)]]; [done|..].
    + by eapply reverse_codec_ascii_part.
    + rewrite (reverse_codec_ascii_part _ _ _ H2).
      by eapply reverse_codec_ascii_part.
  - intros Ha. unfold fix_mojibake_segment. simpl.
    rewrite !reverse_codec_ascii by done.
    by rewrite bool_decide_false by auto.
Qed.

(** The theorem on the ASCII string [ok]. *)
Lemma fix_mojibake_segment_conservative_witness :
  fix_mojibake_segment [0x6F; 0x6B] = [0x6F; 0x6B].
Proof.
  apply (fix_mojibake_segment_conservative [0x6F; 0x6B]).
  repeat constructor; lia.
Defined.

(** ** What fix_encoding prints *)

Lemma fix_one_line_changed line :
  (fix_one_line line).2 = bool_decide ((fix_one_line line).1 ≠ line).
Proof.
  unfold fix_one_line. simpl.
  destruct (reverse_codec cp1252 line) as [c1|].
  { destruct (decide (c1 ≠ line)) as [H|H].
    - rewrite bool_decide_true by done. simpl. by rewrite bool_decide_true.
    - rewrite bool_decide_false by done. simpl.
      by rewrite bool_decide_false by auto. }
  destruct (reverse_codec latin_1 line) as [c2|]; [|done].
  destruct (decide (c2 ≠ line)) as [H|H].
  - rewrite bool_decide_true by done. simpl. by rewrite bool_decide_true.
  - rewrite bool_decide_false by done. simpl.
    by rewrite bool_decide_false by auto.
Qed.

(** The counter of the loop over the lines counts the lines changed. *)
Lemma fix_lines_snd lines fixed_lines changes :
  (fix_lines lines fixed_lines changes).2
  = (changes + length (filter (λ line, (fix_one_line line).1 ≠ line) lines))%nat.
Proof.
  revert fixed_lines changes.
  induction lines as [|line lines IH]; intros fixed_lines changes.
  - simpl. lia.
  - cbn [fix_lines]. rewrite filter_cons.
    pose proof (fix_one_line_changed line) as Hch.
    destruct (fix_one_line line) as [fixed_line changed]. cbn [fst snd] in *.
    rewrite IH. subst changed.
    destruct (decide (fixed_line ≠ line)) as [H|H].
    + rewrite bool_decide_true by done. cbn [length]. lia.
    + rewrite bool_decide_false by done. lia.
Qed.

Lemma fix_encoding_lines_snd content :
  full_file_fix [cp1252; latin_1] content = None →
  (fix_encoding content).2
  = if (0 <? length (changed_lines content))%nat
    then [MethodLineByLine (length (changed_lines content))] else [].
Proof.
  intros H. unfold fix_encoding. rewrite H.
  pose proof (fix_lines_snd (split NL content) [] 0) as Hs.
  destruct (fix_lines (split NL content) [] 0) as [fixed_lines changes].
  simpl in *. by rewrite Hs.
Qed.

Lemma changed_lines_nil content :
  changed_lines content = [] ↔
  (λ line, (fix_one_line line).1) <$> split NL content = split NL content.
Proof.
  unfold changed_lines. induction (split NL content) as [|line lines IH].
  - done.
  - rewrite filter_cons, fmap_cons. destruct (decide ((fix_one_line line).1 ≠ line)).
    + split; [done|]. intros [= ? _]. done.
    + rewrite IH. split; [intros ->; f_equal; by apply dec_stable|].
      by intros [= _ ?].
Qed.

(** X3.  [fix_encoding] prints a method line exactly when it changed the
    content.  The number in the line "Line-by-line (n lines fixed)" is the
    number of lines that Strategy 2 or 3 changed, and is at least one. *)
Theorem fix_encoding_report (content : list N) :
  ((fix_encoding content).2 = [] ↔ (fix_encoding content).1 = content) ∧
  (∀ n, MethodLineByLine n ∈ (fix_encoding content).2 →
        n = length (changed_lines content) ∧ (1 ≤ n)%nat).
Proof.
  destruct (full_file_fix [cp1252; latin_1] content) as [[cd f]|] eqn:E.
  { unfold fix_encoding. rewrite E. simpl.
    apply full_file_fix_Some in E as [_ E]. split.
    - split; [done|]. intros ->. lia.
    - intros n [[=]|[]%elem_of_nil]%elem_of_cons. }
  rewrite fix_encoding_lines_snd, fix_encoding_lines by done. split.
  - destruct (Nat.ltb_spec 0 (length (changed_lines content))) as [Hn|Hn].
    + split; [done|]. intros Hj. exfalso.
      destruct (join_shrunk NL (split NL content)
                  ((λ line, (fix_one_line line).1) <$> split NL content))
        as [Heq|Hlt].
      * apply Forall2_fmap_r, Forall_Forall2_diag, Forall_forall.
        intros line _. apply fix_one_line_shrunk.
      * apply changed_lines_nil in Heq. rewrite Heq in Hn. simpl in Hn. lia.
      * rewrite Hj, join_split in Hlt. lia.
    + split; [|done]. intros _.
      assert (Hnil : changed_lines content = [])
        by (destruct (changed_lines content); [done|simpl in Hn; lia]).
      apply changed_lines_nil in Hnil. by rewrite Hnil, join_split.
  - intros n. destruct (Nat.ltb_spec 0 (length (changed_lines content))).
    + intros [[= ->]|[]%elem_of_nil]%elem_of_cons. split; [done|lia].
    + by intros ?%elem_of_nil.
Qed.

(** The theorem on two lines of which the second holds a garbled quote
    next to a character that no codec can take back. *)
Lemma fix_encoding_report_witness :
  1%nat = length (changed_lines [0x81; 0x0A; 0xE2; 0x20AC; 0x2122]).
Proof.
  destruct (fix_encoding_report [0x81; 0x0A; 0xE2; 0x20AC; 0x2122])
    as [_ H].
  apply (H 1%nat). vm_compute. apply elem_of_cons. by left.
Defined.

(** ** Garbling and repairing *)

Lemma char_of_elem table b c : char_of table b = Some c → (b, c) ∈ table.
Proof.
  induction table as [|[b' c'] table IH]; simpl; [done|].
  destruct (N.eqb_spec b b') as [->|_].
  - intros [= ->]. left.
  - intros. right. auto.
Qed.

(** No code point is twice in the table of Windows-1252. *)
Lemma cp1252_high_byte_of b c :
  (b, c) ∈ cp1252_high → byte_of cp1252_high c = Some b.
Proof.
  intros H. unfold cp1252_high in H.
  repeat (apply elem_of_cons in H as [[= -> ->]|H]; [reflexivity|]).
  by apply elem_of_nil in H.
Qed.

(** Encoding takes back what decoding one byte gave. *)
Lemma encode_decode_byte cd b c :
  decode_byte cd b = Some c → encode_char cd c = Some b.
Proof.
  destruct cd; simpl.
  - unfold cp1252_decode_byte, cp1252_encode_char.
    destruct (N.ltb_spec b 0x80) as [H1|H1].
    { intros [= <-]. apply N.ltb_lt in H1. by rewrite H1. }
    destruct ((0xA0 <=? b) && (b <=? 0xFF)) eqn:H2.
    { intros [= <-]. rewrite H2.
      by replace (b <? 0x80) with false by (symmetry; apply N.ltb_ge; lia). }
    intros H%char_of_elem. pose proof (cp1252_high_range _ _ H) as [_ Hc].
    replace (c <? 0x80) with false by (symmetry; apply N.ltb_ge; lia).
    replace ((0xA0 <=? c) && (c <=? 0xFF)) with false
      by (symmetry; apply andb_false_iff; right; apply N.leb_gt; lia).
    by apply cp1252_high_byte_of.
  - unfold latin_1_decode_byte, latin_1_encode_char.
    destruct (b <? 0x100) eqn:H; [|done]. intros [= <-]. by rewrite H.
Qed.

Lemma encode_decode cd data text :
  decode cd data = Some text → encode cd text = Some data.
Proof.
  unfold decode, encode. rewrite !mapM_Some.
  induction 1 as [|b c data text Hb _ IH]; constructor; [|done].
  by apply encode_decode_byte.
Qed.

(** One reversal with the codec of the garbling gives the text back. *)
Lemma reverse_codec_garble cd text garbled :
  garble cd text = Some garbled → reverse_codec cd garbled = Some text.
Proof.
  unfold garble. intros (bs & He & Hd)%bind_Some.
  apply reverse_codec_Some. exists bs.
  split; [by apply encode_decode|by apply utf8_decode_encode].
Qed.

Lemma garble_length cd text garbled c :
  garble cd text = Some garbled → c ∈ text → 0x80 ≤ c →
  (length text < length garbled)%nat.
Proof.
  intros H Hin Hc. pose proof (reverse_codec_garble _ _ _ H) as Hr.
  destruct (reverse_codec_shrunk _ _ _ Hr) as [->|?]; [|done].
  exfalso. apply bind_Some in H as (bs & He & Hd).
  assert (Hh : Exists (λ b, 0x80 ≤ b) bs).
  { eapply encode_Exists_high; [by apply encode_decode|].
    apply Exists_exists. eauto. }
  pose proof (utf8_decode_shorter _ _ (utf8_decode_encode _ _ He) Hh).
  apply length_mapM in Hd. lia.
Qed.

(** What Latin-1 garbled, Windows-1252 takes back as well when it can
    encode it. *)
Lemma latin_1_bytes_cp1252 data text bs :
  decode latin_1 data = Some text → encode cp1252 text = Some bs → bs = data.
Proof.
  unfold decode, encode. rewrite !mapM_Some. intros H. revert bs.
  induction H as [|b c data text Hb _ IH]; intros bs Hbs.
  - by inversion Hbs.
  - inversion Hbs as [|? b' ? bs' Hb' Hbs']; subst. f_equal; [|by apply IH].
    simpl in Hb. unfold latin_1_decode_byte in Hb.
    destruct (N.ltb_spec b 0x100); [|done]. injection Hb as <-.
    simpl in Hb'. unfold cp1252_encode_char in Hb'.
    destruct (b <? 0x80); [by injection Hb'|].
    destruct ((0xA0 <=? b) && (b <=? 0xFF)); [by injection Hb'|].
    apply byte_of_elem, cp1252_high_range in Hb'. lia.
Qed.

(** X4.  Reversing the problem.  Take a text with a character from U+0080
    up, encode it as UTF-8 and read the bytes as Windows-1252 or Latin-1.
    One codec reversal of the garbled text gives the text back, and
    [fix_encoding] returns the text by Strategy 1, printing the full-file
    method. *)
Theorem fix_encoding_reverses_garbling (cd : codec) (text garbled : list N)
    (c : N) :
  garble cd text = Some garbled → c ∈ text → 0x80 ≤ c →
  reverse_codec cd garbled = Some text ∧
  ∃ cd', fix_encoding garbled = (text, [MethodFullFile cd']).
Proof.
  intros H Hin Hc. pose proof (reverse_codec_garble _ _ _ H) as Hr.
  pose proof (garble_length _ _ _ _ H Hin Hc) as Hlen.
  split; [done|]. destruct cd.
  - exists cp1252. by apply fix_encoding_cp1252.
  - destruct (reverse_codec cp1252 garbled) as [t|] eqn:E.
    + exists cp1252. apply fix_encoding_cp1252. split; [|done].
      rewrite E. f_equal.
      apply reverse_codec_Some in E as (bs & He & Hd).
      apply bind_Some in H as (data & Hdata & Hg).
      rewrite (latin_1_bytes_cp1252 _ _ _ Hg He) in Hd.
      rewrite (utf8_decode_encode _ _ Hdata) in Hd. by injection Hd.
    + exists latin_1. apply fix_encoding_latin_1; [|done].
      intros t [Ht _]. by rewrite E in Ht.
Qed.

(** The theorem on [é’]: garbled by Windows-1252 it is [Ã © â € ™]. *)
Lemma fix_encoding_reverses_garbling_witness :
  garble cp1252 [0xE9; 0x2019] = Some [0xC3; 0xA9; 0xE2; 0x20AC; 0x2122] ∧
  reverse_codec cp1252 [0xC3; 0xA9; 0xE2; 0x20AC; 0x2122] = Some [0xE9; 0x2019] ∧
  ∃ cd', fix_encoding [0xC3; 0xA9; 0xE2; 0x20AC; 0x2122]
         = ([0xE9; 0x2019], [MethodFullFile cd']).
Proof.
  split; [reflexivity|].
  apply (fix_encoding_reverses_garbling cp1252 [0xE9; 0x2019]
           [0xC3; 0xA9; 0xE2; 0x20AC; 0x2122] 0xE9).
  - reflexivity.
  - apply elem_of_cons. by left.
  - lia.
Defined.

(** ** Text that is not garbled *)

Lemma sparse_cons2 a b s :
  sparse (a :: b :: s)
  = negb ((0x80 <=? a) && (0x80 <=? b)) && sparse (b :: s).
Proof. reflexivity. Qed.

Lemma sparse_tail c s : sparse (c :: s) = true → sparse s = true.
Proof. destruct s as [|d s]; [done|]. simpl. by intros [_ ?]%andb_true_iff. Qed.

Lemma sparse_cons_ascii c s : c < 0x80 → sparse s = true → sparse (c :: s) = true.
Proof.
  intros Hc Hs. destruct s as [|d s]; [done|].
  rewrite sparse_cons2, Hs.
  by replace (0x80 <=? c) with false by (symmetry; apply N.leb_gt; lia).
Qed.

Lemma sparse_high_next c d s :
  sparse (c :: d :: s) = true → 0x80 ≤ c → d < 0x80.
Proof.
  rewrite sparse_cons2. intros [H _]%andb_true_iff Hc.
  apply negb_true_iff, andb_false_iff in H as [H|H]; unbool; lia.
Qed.

(** Encoding keeps a text sparse. *)
Lemma encode_sparse cd s bs :
  encode cd s = Some bs → sparse s = true → sparse bs = true.
Proof.
  revert bs. induction s as [|c s IH]; intros bs H Hs.
  - by injection H as <-.
  - apply encode_Some_inv in H as (b & bs' & Hb & Hs' & ->).
    specialize (IH bs' Hs' (sparse_tail _ _ Hs)).
    destruct s as [|d s].
    { by injection Hs' as <-. }
    apply encode_Some_inv in Hs' as (b' & bs'' & Hb' & Hs'' & ->).
    rewrite sparse_cons2, IH, andb_true_r.
    destruct (N.ltb_spec c 0x80) as [Hc|Hc].
    + rewrite encode_char_ascii in Hb by done. injection Hb as <-.
      by replace (0x80 <=? c) with false by (symmetry; apply N.leb_gt; lia).
    + pose proof (sparse_high_next _ _ _ Hs Hc) as Hd.
      rewrite encode_char_ascii in Hb' by done. injection Hb' as <-.
      replace (0x80 <=? d) with false by (symmetry; apply N.leb_gt; lia).
      by rewrite andb_false_r.
Qed.

(** Sparse bytes that decode are ASCII: a character of several bytes needs
    two bytes from 0x80 up in a row. *)
Lemma utf8_decode_sparse bs s :
  utf8_decode bs = Some s → sparse bs = true → Forall (λ b, b < 0x80) bs.
Proof.
  revert bs s. apply (utf8_decode_ind
    (λ bs s, sparse bs = true → Forall (λ b, b < 0x80) bs)).
  - done.
  - intros b0 r s Hb _ IH Hs. constructor; [done|].
    by apply IH, (sparse_tail b0).
  - intros b0 b1 r s Hb C1%is_cont_range _ _ Hs.
    pose proof (sparse_high_next _ _ _ Hs). lia.
  - intros b0 b1 b2 r s Hb C1%is_cont_range _ _ _ _ _ Hs.
    pose proof (sparse_high_next _ _ _ Hs). lia.
  - intros b0 b1 b2 b3 r s Hb C1%is_cont_range _ _ _ _ _ Hs.
    pose proof (sparse_high_next _ _ _ Hs). lia.
Qed.

Lemma encode_ascii_inv cd s bs :
  encode cd s = Some bs → Forall (λ b, b < 0x80) bs → Forall (λ c, c < 0x80) s.
Proof.
  revert bs. induction s as [|c s IH]; intros bs H Hbs; [done|].
  apply encode_Some_inv in H as (b & bs' & Hb & Hs' & ->).
  apply Forall_cons in Hbs as [Hb' Hbs]. constructor; [|by eapply IH].
  destruct (N.ltb_spec c 0x80); [done|].
  apply encode_char_high in Hb; [lia|done].
Qed.

(** A codec reversal that succeeds on sparse text changes nothing. *)
Lemma reverse_codec_sparse cd s s' :
  sparse s = true → reverse_codec cd s = Some s' → s' = s.
Proof.
  intros Hs H. pose proof H as (bs & He & Hd)%reverse_codec_Some.
  assert (Ha : Forall (λ c, c < 0x80) s).
  { eapply encode_ascii_inv; [done|].
    eapply utf8_decode_sparse; [done|]. by eapply encode_sparse. }
  rewrite reverse_codec_ascii in H by done. by injection H.
Qed.

Lemma fix_mojibake_segment_sparse s :
  sparse s = true → fix_mojibake_segment s = s.
Proof.
  intros Hs. destruct (fix_mojibake_segment_cases s)
    as [H|[(cd & H)|(cd & once & H1 & H2)]]; [done|..].
  - by apply (reverse_codec_sparse cd).
  - pose proof (reverse_codec_sparse _ _ _ Hs H1) as ->.
    by apply (reverse_codec_sparse cd).
Qed.

Lemma splice_sparse fuel l :
  (length l ≤ fuel)%nat → sparse l = true → splice fuel l = l.
Proof.
  revert l. induction fuel as [|fuel IH]; intros l Hl Hs.
  - destruct l; simpl in *; [done|lia].
  - destruct l as [|c l]; [done|]. cbn [splice].
    destruct (N.leb_spec 0xC0 c) as [Hc|Hc].
    + assert (Hrun : run_length (c :: l) = 1%nat).
      { cbn [run_length].
        replace (0x80 <=? c) with true by (symmetry; apply N.leb_le; lia).
        destruct l as [|d l]; [done|].
        pose proof (sparse_high_next _ _ _ Hs). simpl.
        by replace (0x80 <=? d) with false by (symmetry; apply N.leb_gt; lia). }
      rewrite Hrun. cbn [take drop].
      rewrite fix_mojibake_segment_sparse by done. simpl. f_equal.
      apply IH; [simpl in *; lia|by eapply sparse_tail].
    + f_equal. apply IH; [simpl in *; lia|by eapply sparse_tail].
Qed.

Lemma fix_one_line_sparse line :
  sparse line = true → fix_one_line line = (line, false).
Proof.
  intros Hs. unfold fix_one_line. simpl.
  destruct (reverse_codec cp1252 line) as [c1|] eqn:E1.
  { rewrite (reverse_codec_sparse _ _ _ Hs E1).
    by rewrite bool_decide_false by auto. }
  destruct (reverse_codec latin_1 line) as [c2|] eqn:E2.
  { rewrite (reverse_codec_sparse _ _ _ Hs E2).
    by rewrite bool_decide_false by auto. }
  rewrite fix_line_segments_splice, splice_sparse by done.
  by rewrite bool_decide_false by auto.
Qed.

Lemma split_sparse sep s :
  sep < 0x80 → sparse s = true → Forall (λ l, sparse l = true) (split sep s).
Proof.
  intros Hsep. induction s as [|c s IH]; intros Hs; [by repeat constructor|].
  specialize (IH (sparse_tail _ _ Hs)).
  destruct (N.eqb_spec c sep) as [->|Hne].
  - rewrite split_cons_sep. by constructor.
  - destruct (split_cons_other sep c s Hne) as (piece & pieces & E1 & E2).
    rewrite E2. rewrite E1 in IH. apply Forall_cons in IH as [Hp Hps].
    constructor; [|done].
    destruct s as [|d s]; [by injection E1 as <- <-|].
    destruct (N.eqb_spec d sep) as [->|Hd].
    + rewrite split_cons_sep in E1. by injection E1 as <- <-.
    + destruct (split_cons_other sep d s Hd) as (p' & ps' & E3 & E4).
      rewrite E4 in E1. injection E1 as <- <-.
      rewrite sparse_cons2 in Hs |- *. apply andb_true_iff in Hs as [Hs _].
      by rewrite Hs, Hp.
Qed.

Lemma fix_lines_fixed lines fixed_lines changes :
  Forall (λ line, fix_one_line line = (line, false)) lines →
  fix_lines lines fixed_lines changes = (fixed_lines ++ lines, changes).
Proof.
  intros H. revert fixed_lines.
  induction H as [|line lines Hl _ IH]; intros fixed_lines; simpl.
  - by rewrite app_nil_r.
  - by rewrite Hl, IH, <- app_assoc.
Qed.

Lemma fix_encoding_sparse content :
  sparse content = true → fix_encoding content = (content, []).
Proof.
  intros Hs. unfold fix_encoding.
  rewrite !full_file_fix_skip.
  2,3: intros f Hf; by rewrite (reverse_codec_sparse _ _ _ Hs Hf).
  simpl. rewrite fix_lines_fixed.
  - simpl. by rewrite join_split.
  - eapply Forall_impl; [apply split_sparse; [unfold NL; lia|done]|].
    intros line Hl. by apply fix_one_line_sparse.
Qed.

(** No string that starts with two characters from U+0080 up occurs in
    sparse text. *)
Lemma contains_sparse p s :
  two_high p = true → sparse s = true → contains p s = false.
Proof.
  destruct p as [|a [|b p]]; try done. cbn [two_high].
  intros [Ha Hb]%andb_true_iff. unbool.
  induction s as [|c s IH]; intros Hs; [done|].
  rewrite contains_cons, IH by (by eapply sparse_tail).
  rewrite orb_false_r. cbn [starts_with].
  destruct (N.eqb_spec a c) as [->|]; [|done].
  destruct s as [|d s]; [done|]. cbn [starts_with].
  destruct (N.eqb_spec b d) as [->|]; [|done].
  pose proof (sparse_high_next _ _ _ Hs). lia.
Qed.

Lemma tables_two_high :
  Forall (λ e, two_high e.1 = true) control_char_fixes ∧
  Forall (λ p, two_high p = true) known_garbled.
Proof. split; repeat constructor. Qed.

Lemma repair_sparse content :
  sparse content = true → repair content = (content, []).
Proof.
  intros Hs. unfold repair. rewrite fix_encoding_sparse by done.
  destruct tables_two_high as [H1 H2].
  rewrite control_char_loop_none.
  2:{ eapply Forall_impl; [exact H1|]. intros [g c] Hg.
      by apply contains_sparse. }
  unfold scan_remaining_issues. rewrite scan_loop_none; [done|].
  eapply Forall_impl; [exact H2|]. intros p Hp. by apply contains_sparse.
Qed.

(** X5.  Text in which no two characters from U+0080 up stand next to each
    other is not garbled UTF-8, and the program leaves it alone: the three
    passes return it unchanged and print nothing, and [fix_file] on a file
    that reads as such text reports that there are no issues and changes
    no file, dry run or not. *)
Theorem sparse_text_untouched :
  (∀ content, sparse content = true → repair content = (content, [])) ∧
  (∀ filepath dry_run w data text,
     files w !! filepath = Some data → utf8_decode data = Some text →
     sparse (universal_newlines text) = true →
     fix_file filepath dry_run w
     = (Val true,
        World (files w) (console w ++ [Processing filepath; NoIssuesFound]))).
Proof.
  split; [apply repair_sparse|].
  intros filepath dry_run w data text H Hd Hs.
  rewrite (fix_file_unchanged filepath dry_run w data text H Hd).
  - rewrite repair_sparse by done. simpl. by rewrite app_nil_r, <- app_assoc.
  - by rewrite repair_sparse.
Qed.

(** The theorem on [café au lait]. *)
Lemma sparse_text_untouched_witness :
  repair [0x63; 0x61; 0x66; 0xE9; 0x20; 0x61; 0x75; 0x20; 0x6C; 0x61; 0x69; 0x74]
  = ([0x63; 0x61; 0x66; 0xE9; 0x20; 0x61; 0x75; 0x20; 0x6C; 0x61; 0x69; 0x74], []).
Proof.
  destruct sparse_text_untouched as [H _]. apply H. reflexivity.
Defined.

(** ** fix_file: every way it can end *)




(** ** Reading back what was written *)

Lemma universal_newlines_no_CR s : occurrences CR (universal_newlines s) = 0%nat.
Proof.
  remember (length s) as n eqn:Hn. revert s Hn.
  induction n as [n IH] using lt_wf_ind. intros s Hn.
  destruct s as [|c s]; [done|]. simpl.
  destruct (N.eqb_spec c CR) as [->|Hc].
  - simpl. destruct s as [|d s]; [done|].
    destruct (d =? NL); eapply IH; try reflexivity; subst n; simpl; lia.
  - simpl. apply N.eqb_neq in Hc. rewrite Hc.
    eapply IH; [|reflexivity]. subst n. simpl. lia.
Qed.

Lemma universal_newlines_id s :
  occurrences CR s = 0%nat → universal_newlines s = s.
Proof.
  induction s as [|c s IH]; [done|]. simpl.
  destruct (c =? CR); [done|]. intros H. by rewrite IH.
Qed.

(** X9.  What [fix_file] wrote reads back as the repaired content: after a
    run that changed the file, reading the file in text mode gives the
    repaired content, character for character. *)
Theorem written_file_reads_back (filepath : string) (w : world)
    (data text : list N) :
  files w !! filepath = Some data →
  utf8_decode data = Some text →
  (repair (universal_newlines text)).1 ≠ universal_newlines text →
  (read_text filepath (fix_file filepath false w).2).1
  = Val (repair (universal_newlines text)).1.
Proof.
  intros H Hd Hr.
  destruct (repair_encodable data text Hd) as [fixed_data He].
  rewrite (fix_file_written filepath w data text fixed_data H Hd Hr He).
  unfold read_text. simpl. rewrite lookup_insert_eq.
  rewrite (utf8_decode_encode _ _ He). simpl. f_equal.
  apply universal_newlines_id.
  rewrite repair_occurrences by (unfold CR; lia).
  apply universal_newlines_no_CR.
Qed.

(** The theorem on a file with a garbled right single quote and a line
    end of two bytes. *)
Lemma written_file_reads_back_witness :
  (read_text "a.txt"
     (fix_file "a.txt" false
        (World {[ "a.txt"%string :=
                  [0xC3; 0xA2; 0xE2; 0x82; 0xAC; 0xE2; 0x84; 0xA2; 0x0D; 0x0A] ]}
               [])).2).1
  = Val [0x2019; 0x0A].
Proof.
  rewrite (written_file_reads_back "a.txt" _
    [0xC3; 0xA2; 0xE2; 0x82; 0xAC; 0xE2; 0x84; 0xA2; 0x0D; 0x0A]
    [0xE2; 0x20AC; 0x2122; 0x0D; 0x0A]).
  - reflexivity.
  - apply lookup_singleton_eq.
  - reflexivity.
  - by vm_compute.
Defined.

(** ** main *)







(** ** The residual scan and the known-replacement pass *)

(** A string that occurs is counted at least once. *)
Lemma contains_count a p s :
  contains (a :: p) s = true → (1 ≤ count (a :: p) s)%nat.
Proof.
  induction s as [|s IH|c s Hc IH] using (scan_ind a p).
  - by rewrite contains_nil.
  - intros _. rewrite count_match. lia.
  - rewrite contains_cons, Hc, count_cons_skip by done. exact IH.
Qed.

(** The scan keeps, in the order of the list, the signatures that occur,
    each with its count. *)
Lemma scan_loop_filter patterns content found :
  scan_loop patterns content found
  = found ++ ((λ p, (p, count p content))
              <$> filter (λ p, contains p content = true) patterns).
Proof.
  revert found. induction patterns as [|p patterns IH]; intros found.
  - simpl. by rewrite app_nil_r.
  - cbn [scan_loop]. rewrite filter_cons.
    destruct (contains p content) eqn:E.
    + rewrite decide_True by done. rewrite IH, fmap_cons, <- app_assoc. done.
    + rewrite decide_False by done. apply IH.
Qed.

Lemma filter_contains_nil (patterns : list (list N)) content :
  filter (λ p, contains p content = true) patterns = [] ↔
  Forall (λ p, contains p content = false) patterns.
Proof.
  induction patterns as [|p patterns IH]; [done|].
  rewrite filter_cons, Forall_cons. destruct (contains p content) eqn:E.
  - rewrite decide_True by done. split; [done|]. by intros [? _].
  - rewrite decide_False by done. rewrite IH. split; [done|]. by intros [_ ?].
Qed.

(** X12.  [scan_remaining_issues] returns the empty list exactly when none
    of its ten signatures occurs in the content.  Every pair it returns is
    a signature of the list that occurs, with the number of its
    occurrences, which is at least one; so the number printed as "Pass 2
    left n garbled sequences" is zero for the empty list only. *)
Theorem scan_remaining_issues_spec (content : list N) :
  (scan_remaining_issues content = [] ↔
   Forall (λ p, contains p content = false) known_garbled) ∧
  (∀ p n, (p, n) ∈ scan_remaining_issues content →
     p ∈ known_garbled ∧ contains p content = true ∧
     n = count p content ∧ (1 ≤ n)%nat) ∧
  (sum_counts (scan_remaining_issues content) = 0%nat ↔
   scan_remaining_issues content = []).
Proof.
  unfold scan_remaining_issues. rewrite scan_loop_filter. simpl app.
  assert (Hall : ∀ p n,
    (p, n) ∈ (λ p, (p, count p content))
             <$> filter (λ p, contains p content = true) known_garbled →
    p ∈ known_garbled ∧ contains p content = true ∧
    n = count p content ∧ (1 ≤ n)%nat).
  { intros p n (q & [= -> ->] & [Hc Hq]%list_elem_of_filter)%list_elem_of_fmap.
    repeat (split; [done|]).
    pose proof known_garbled_ok as Hok. rewrite Forall_forall in Hok.
    destruct (entry_ok_inv _ _ (Hok q Hq)) as (a & t & -> & _).
    by apply contains_count. }
  split; [|split; [exact Hall|]].
  - rewrite <- filter_contains_nil. split; [apply fmap_nil_inv|by intros ->].
  - split; [|by intros ->].
    destruct ((λ p, (p, count p content))
              <$> filter (λ p, contains p content = true) known_garbled)
      as [|[p n] found]; [done|].
    destruct (Hall p n) as (_ & _ & _ & Hn); [left|].
    unfold sum_counts. simpl. lia.
Qed.

(** The theorem on a text that holds the signature [â €] twice. *)
Lemma scan_remaining_issues_spec_witness :
  2%nat = count [0xE2; 0x20AC] [0xE2; 0x20AC; 0x9D; 0x20; 0xE2; 0x20AC; 0x9D].
Proof.
  destruct (scan_remaining_issues_spec
              [0xE2; 0x20AC; 0x9D; 0x20; 0xE2; 0x20AC; 0x9D]) as (_ & H & _).
  apply (H [0xE2; 0x20AC] 2%nat). vm_compute. apply elem_of_cons. by left.
Defined.

(** What the loop of [apply_known_replacements] does to the text, the total
    and the lines printed. *)
Lemma replacements_loop_replaced_in table result total0 out :
  ∃ result' counts,
    replaced_in table result result' counts ∧
    replacements_loop table result total0 out
    = (result', (total0 + total (snd <$> counts))%nat,
       out ++ ((λ dn, Replaced dn.1 dn.2) <$> counts)).
Proof.
  revert result total0 out.
  induction table as [|[[g c] d] table IH]; intros result total0 out.
  - exists result, []. split; [constructor|]. simpl.
    by rewrite app_nil_r, Nat.add_0_r.
  - cbn [replacements_loop]. destruct (contains g result) eqn:Hc.
    + destruct (IH (replace g c result) (total0 + count g result)%nat
                  (out ++ [Replaced d (count g result)]))
        as (result' & counts & Hin & ->).
      exists result', ((d, count g result) :: counts).
      split; [by constructor|].
      rewrite fmap_cons, total_cons, fmap_cons, <- app_assoc. simpl.
      do 2 f_equal. lia.
    + destruct (IH result total0 out) as (result' & counts & Hin & ->).
      exists result', counts. split; [by constructor|done].
Qed.

(** Every count of a replaced entry is at least one; without a replaced
    entry the text is as it was. *)
Lemma replaced_in_counts table content result counts :
  Forall (λ e, entry_ok e.1.1 e.1.2 = true) table →
  replaced_in table content result counts →
  Forall (λ dn, (1 ≤ dn.2)%nat) counts ∧ (counts = [] → result = content).
Proof.
  intros Htable Hin. induction Hin as
    [content|g c d table content result counts Hc Hin IH
    |g c d table content result counts Hc Hin IH].
  - done.
  - apply Forall_cons in Htable as [_ Htable]. by apply IH.
  - apply Forall_cons in Htable as [He Htable].
    destruct (IH Htable) as [IH1 _]. split; [|done].
    constructor; [|done]. simpl.
    destruct (entry_ok_inv _ _ He) as (a & t & Hg & _). simpl in Hg.
    subst g. by apply contains_count.
Qed.

(** X13.  What [apply_known_replacements] does and prints.  It goes through
    the table in its order; an entry whose garbled string occurs in the
    text as it then is has every occurrence replaced and gets one line
    "Replaced desc: xn", with the number of occurrences, which is at least
    one; an entry whose garbled string does not occur gets no line.  After
    these lines comes the line of the total, which is the sum of the
    counts, and it is there exactly when a line of an entry is.  When
    nothing is printed the content is returned as it is, as it is when no
    garbled string of the table occurs in it; and the result is never
    longer than the content. *)
Theorem apply_known_replacements_report (content : list N) :
  (∃ counts,
     replaced_in replacements content (apply_known_replacements content).1
                 counts ∧
     (apply_known_replacements content).2 = replaced_report counts ∧
     Forall (λ dn, (1 ≤ dn.2)%nat) counts) ∧
  ((apply_known_replacements content).2 = [] →
     (apply_known_replacements content).1 = content) ∧
  (Forall (λ e, contains e.1.1 content = false) replacements →
     apply_known_replacements content = (content, [])) ∧
  shrunk content (apply_known_replacements content).1.
Proof.
  destruct (replacements_loop_replaced_in replacements content 0 [])
    as (result & counts & Hin & Hloop).
  destruct (replaced_in_counts _ _ _ _ replacements_ok Hin) as [Hpos Hnil].
  assert (Hrun : apply_known_replacements content
                 = (result, replaced_report counts)).
  { unfold apply_known_replacements, replaced_report. rewrite Hloop.
    simpl. f_equal.
    destruct counts as [|[d n] counts]; [done|].
    apply Forall_cons in Hpos as [Hn _]. simpl in Hn.
    replace (0 <? total (snd <$> (d, n) :: counts))%nat with true; [done|].
    symmetry. apply Nat.ltb_lt. rewrite fmap_cons, total_cons. simpl. lia. }
  split; [|split; [|split]].
  - exists counts. by rewrite Hrun.
  - rewrite Hrun. simpl. intros Hout. apply Hnil.
    destruct counts; [done|]. discriminate.
  - intros Hnone. unfold apply_known_replacements.
    by rewrite replacements_loop_none.
  - apply apply_known_replacements_shrunk.
Qed.

(** The theorem on plain text: nothing of the table occurs in it. *)
Lemma apply_known_replacements_report_witness :
  apply_known_replacements [0x6F; 0x6B] = ([0x6F; 0x6B], []).
Proof.
  destruct (apply_known_replacements_report [0x6F; 0x6B]) as (_ & _ & H & _).
  apply H. repeat constructor.
Defined.

(** ** fix_line_segments on lines without a lead character *)

(** X14.  [fix_line_segments] opens no segment in a line that has no
    character from U+00C0 up, and returns such a line as it is.  On every
    line its result is the line or a strictly shorter string, and a line
    without surrogates gives a result without surrogates. *)
Theorem fix_line_segments_conservative (line : list N) :
  (Forall (λ c, c < 0xC0) line → fix_line_segments line = line) ∧
  shrunk line (fix_line_segments line) ∧
  (Forall (λ c, scalar c = true) line →
   Forall (λ c, scalar c = true) (fix_line_segments line)).
Proof.
  split; [|split].
  - induction 1 as [|c line Hc _ IH]; [done|].
    by rewrite fix_line_segments_keep, IH.
  - apply fix_line_segments_shrunk.
  - apply fix_line_segments_scalar.
Qed.

(** The theorem on [£5 ©]: the pound and copyright signs are below
    U+00C0. *)
Lemma fix_line_segments_conservative_witness :
  fix_line_segments [0xA3; 0x35; 0x20; 0xA9] = [0xA3; 0x35; 0x20; 0xA9].
Proof.
  apply (fix_line_segments_conservative [0xA3; 0x35; 0x20; 0xA9]).
  repeat constructor; lia.
Defined.

(** ** show_sample_changes *)

Lemma sample_at_tail i o f orig_lines fixed_lines m :
  sample_at (S i) orig_lines fixed_lines m →
  sample_at i (o :: orig_lines) (f :: fixed_lines) m.
Proof.
  intros (n & o' & f' & Ho & Hf & Hne & -> & H1 & H2).
  exists (S n), o', f'. repeat (split; [done|]).
  split; [|done]. by rewrite Nat.add_succ_r.
Qed.

(** The loop counts every position that differs and prints samples for
    the first ones only, as long as [shown] is within [max_show]. *)
Lemma sample_loop_spec orig_lines fixed_lines i shown out :
  ∃ new,
    sample_loop i orig_lines fixed_lines shown out
    = ((shown + differing orig_lines fixed_lines)%nat, out ++ new) ∧
    (length new ≤ max_show - shown)%nat ∧
    Forall (sample_at i orig_lines fixed_lines) new.
Proof.
  revert fixed_lines i shown out.
  induction orig_lines as [|o orig_lines IH]; intros fixed_lines i shown out.
  { exists []. simpl. rewrite app_nil_r, Nat.add_0_r.
    split; [done|]. split; [lia|done]. }
  destruct fixed_lines as [|f fixed_lines].
  { exists []. simpl. rewrite app_nil_r, Nat.add_0_r.
    split; [done|]. split; [lia|done]. }
  cbn [sample_loop]. unfold differing. cbn [zip zip_with].
  rewrite filter_cons. cbn [fst snd].
  destruct (decide (o ≠ f)) as [Hne|Heq].
  - rewrite bool_decide_true by done. cbn [length].
    fold (differing orig_lines fixed_lines).
    destruct (Nat.leb_spec (S shown) max_show) as [Hle|Hgt].
    + destruct (take 80 (strip o)) as [|c1 s1] eqn:E1.
      { destruct (IH fixed_lines (S i) (S shown) out) as (new & -> & Hlen & Hall).
        exists new. split; [f_equal; lia|]. split; [lia|].
        eapply Forall_impl; [exact Hall|]. intros m. apply sample_at_tail. }
      destruct (take 80 (strip f)) as [|c2 s2] eqn:E2.
      { destruct (IH fixed_lines (S i) (S shown) out) as (new & -> & Hlen & Hall).
        exists new. split; [f_equal; lia|]. split; [lia|].
        eapply Forall_impl; [exact Hall|]. intros m. apply sample_at_tail. }
      destruct (IH fixed_lines (S i) (S shown)
                  (out ++ [SampleLine (S i) (c1 :: s1) (c2 :: s2)]))
        as (new & -> & Hlen & Hall).
      exists (SampleLine (S i) (c1 :: s1) (c2 :: s2) :: new).
      split; [rewrite <- app_assoc; f_equal; lia|].
      split; [simpl; lia|]. constructor.
      * exists 0%nat, o, f. rewrite Nat.add_0_r, E1, E2. done.
      * eapply Forall_impl; [exact Hall|]. intros m. apply sample_at_tail.
    + destruct (IH fixed_lines (S i) (S shown) out) as (new & -> & Hlen & Hall).
      exists new. split; [f_equal; lia|]. split; [lia|].
      eapply Forall_impl; [exact Hall|]. intros m. apply sample_at_tail.
  - rewrite bool_decide_false by done.
    fold (differing orig_lines fixed_lines).
    destruct (IH fixed_lines (S i) shown out) as (new & -> & Hlen & Hall).
    exists new. split; [done|]. split; [done|].
    eapply Forall_impl; [exact Hall|]. intros m. apply sample_at_tail.
Qed.

Lemma differing_same lines : differing lines lines = 0%nat.
Proof.
  unfold differing. induction lines as [|l lines IH]; [done|].
  cbn [zip zip_with]. rewrite filter_cons_False by (simpl; auto). exact IH.
Qed.

(** X15.  [show_sample_changes] prints at most ten samples, each for a
    line at which the original and the fixed text differ, with its number
    counted from one and both lines stripped, cut at 80 characters and not
    empty.  It closes with one line on the number [k] of lines that differ:
    "... and k - 10 more lines changed" when [k] is above ten, "k lines
    changed total" when [k] is from one to ten, nothing when no line
    differs.  For a text compared with itself it prints nothing. *)
Theorem show_sample_changes_spec (original fixed : list N) :
  (∃ samples,
     show_sample_changes original fixed
     = samples ++ summary (differing (split NL original) (split NL fixed)) ∧
     (length samples ≤ 10)%nat ∧
     Forall (sample_at 0 (split NL original) (split NL fixed)) samples ∧
     Forall (λ m, ∀ n was now, m = SampleLine n was now →
                  (length was ≤ 80)%nat ∧ (length now ≤ 80)%nat) samples) ∧
  (original = fixed → show_sample_changes original fixed = []).
Proof.
  assert (Hmain : ∃ samples,
     show_sample_changes original fixed
     = samples ++ summary (differing (split NL original) (split NL fixed)) ∧
     (length samples ≤ 10)%nat ∧
     Forall (sample_at 0 (split NL original) (split NL fixed)) samples).
  { unfold show_sample_changes.
    destruct (sample_loop_spec (split NL original) (split NL fixed) 0 0 [])
      as (new & -> & Hlen & Hall).
    exists new. simpl app. rewrite Nat.add_0_l. unfold summary.
    split; [|split; [unfold max_show in Hlen; lia|done]].
    destruct (max_show <? differing _ _)%nat; [done|].
    destruct (0 <? differing _ _)%nat; [done|]. by rewrite app_nil_r. }
  destruct Hmain as (samples & Heq & Hlen & Hall). split.
  - exists samples. repeat (split; [done|]).
    eapply Forall_impl; [exact Hall|].
    intros m (n & o & f & _ & _ & _ & -> & _) n' was now [= _ <- <-].
    rewrite !length_take. lia.
  - intros ->. rewrite Heq. rewrite differing_same in *. 
    rewrite app_nil_r.
    destruct samples as [|m samples]; [done|].
    apply Forall_cons in Hall as [(n & o & f & Ho & Hf & Hne & _) _].
    congruence.
Qed.

(** The theorem on a text compared with itself. *)
Lemma show_sample_changes_spec_witness :
  show_sample_changes [0x61; 0x0A; 0x62] [0x61; 0x0A; 0x62] = [].
Proof.
  by apply (show_sample_changes_spec [0x61; 0x0A; 0x62] [0x61; 0x0A; 0x62]).
Defined.

(** * Properties on a file system that can refuse *)

(** ** Paths *)

Lemma has_sep_basename p : posixpath.has_sep (posixpath.basename p) = false.
Proof.
  induction p as [|c p IH]; [done|]. simpl.
  destruct (posixpath.has_sep p) eqn:Hp; [done|].
  destruct (posixpath.is_sep c) eqn:Hc; [done|]. simpl. by rewrite Hc, Hp.
Qed.

Lemma path_join_length a b :
  posixpath.has_sep b = false →
  (String.length a ≤ String.length (posixpath.join a b))%nat.
Proof.
  intros Hb. unfold posixpath.join. destruct b as [|c b].
  - destruct (_ || _); rewrite !string_length_append; lia.
  - simpl in Hb. apply orb_false_iff in Hb as [-> _].
    destruct (_ || _); rewrite !string_length_append; lia.
Qed.

(** The backup never goes to the file itself. *)
Lemma target_ne filepath w :
  OS.target filepath (filepath +:+ ".backup") w ≠ filepath.
Proof.
  unfold OS.target. intros H. apply (f_equal String.length) in H.
  destruct (OS.nodes w !! (filepath +:+ ".backup")) as [[| ]|].
  - rewrite string_length_append in H. simpl in H. lia.
  - pose proof (path_join_length (filepath +:+ ".backup") (posixpath.basename filepath)
                  (has_sep_basename filepath)) as Hl.
    rewrite string_length_append in Hl. simpl in Hl. lia.
  - rewrite string_length_append in H. simpl in H. lia.
Qed.

(** ** OS.fix_file, case by case *)

Lemma os_fix_file_missing filepath dry_run w :
  OS.nodes w !! filepath = None →
  OS.fix_file filepath dry_run w
  = (Val false,
     OS.World (OS.nodes w) (OS.no_create w)
              (OS.console w ++ [FileNotFound filepath])).
Proof.
  intros H. unfold OS.fix_file, mbind, OS.cmd_bind, OS.path_exists. simpl.
  rewrite H. rewrite bool_decide_false by (by intros [? ?]). done.
Qed.



Lemma os_fix_file_undecodable filepath dry_run w data writable :
  OS.nodes w !! filepath = Some (OS.File data true writable) →
  utf8_decode data = None →
  OS.fix_file filepath dry_run w
  = (Exc UnicodeDecodeError,
     OS.World (OS.nodes w) (OS.no_create w)
              (OS.console w ++ [Processing filepath])).
Proof.
  intros H Hd.
  unfold OS.fix_file, mbind, OS.cmd_bind, OS.path_exists, OS.read_text. simpl.
  rewrite H. rewrite bool_decide_true by eauto. simpl. by rewrite H, Hd.
Qed.

Lemma os_fix_file_unchanged filepath dry_run w data writable text :
  OS.nodes w !! filepath = Some (OS.File data true writable) →
  utf8_decode data = Some text →
  (repair (universal_newlines text)).1 = universal_newlines text →
  OS.fix_file filepath dry_run w
  = (Val true,
     OS.World (OS.nodes w) (OS.no_create w)
       (((OS.console w ++ [Processing filepath])
         ++ (repair (universal_newlines text)).2) ++ [NoIssuesFound])).
Proof.
  intros H Hd Hr.
  unfold OS.fix_file, mbind, OS.cmd_bind, OS.path_exists, OS.read_text. simpl.
  rewrite H. rewrite bool_decide_true by eauto. simpl. rewrite H, Hd.
  destruct (repair (universal_newlines text)) as [fixed out]. simpl in *.
  subst fixed. by rewrite bool_decide_true by done.
Qed.

Lemma os_fix_file_dry_run filepath w data writable text :
  OS.nodes w !! filepath = Some (OS.File data true writable) →
  utf8_decode data = Some text →
  (repair (universal_newlines text)).1 ≠ universal_newlines text →
  OS.fix_file filepath true w
  = (Val true,
     OS.World (OS.nodes w) (OS.no_create w)
       ((((OS.console w ++ [Processing filepath])
          ++ (repair (universal_newlines text)).2)
         ++ change_report (universal_newlines text)
              (repair (universal_newlines text)).1)
        ++ [DryRunNoChanges])).
Proof.
  intros H Hd Hr.
  unfold OS.fix_file, mbind, OS.cmd_bind, OS.path_exists, OS.read_text. simpl.
  rewrite H. rewrite bool_decide_true by eauto. simpl. rewrite H, Hd.
  unfold change_report.
  destruct (repair (universal_newlines text)) as [fixed out]. simpl in *.
  rewrite bool_decide_false by done. simpl.
  destruct (scan_remaining_issues fixed); simpl; by rewrite <- !app_assoc.
Qed.



Lemma os_fix_file_written filepath w data text fixed_data :
  OS.nodes w !! filepath = Some (OS.File data true true) →
  utf8_decode data = Some text →
  (repair (universal_newlines text)).1 ≠ universal_newlines text →
  OS.can_write (OS.target filepath (filepath +:+ ".backup") w) w = true →
  utf8_encode (repair (universal_newlines text)).1 = Some fixed_data →
  OS.fix_file filepath false w
  = (Val true,
     OS.World (<[filepath := OS.File fixed_data true true]>
                 (<[OS.target filepath (filepath +:+ ".backup") w
                    := OS.File data true true]> (OS.nodes w)))
              (OS.no_create w)
       ((((OS.console w ++ [Processing filepath])
          ++ (repair (universal_newlines text)).2)
         ++ change_report (universal_newlines text)
              (repair (universal_newlines text)).1)
        ++ [BackupWritten (filepath +:+ ".backup"); FixedSuccessfully])).
Proof.
  intros H Hd Hr Hw He.
  unfold OS.fix_file, mbind, OS.cmd_bind, OS.path_exists, OS.read_text, OS.copy2,
    OS.write_text.
  simpl. rewrite H. rewrite bool_decide_true by eauto. simpl. rewrite H, Hd.
  unfold change_report.
  destruct (repair (universal_newlines text)) as [fixed out]. simpl in *.
  rewrite bool_decide_false by done. simpl.
  destruct (scan_remaining_issues fixed); simpl; rewrite H;
    rewrite bool_decide_false by (apply not_eq_sym, target_ne);
    unfold OS.can_write, OS.permissions in *; unfold OS.target in *;
    simpl in *; rewrite Hw;
    simpl; rewrite lookup_insert_ne by (apply (target_ne filepath w));
    rewrite H, He; simpl; unfold OS.put, mret, OS.cmd_ret; simpl;
    by rewrite <- !app_assoc.
Qed.














(** ** How OS.fix_file ends *)










(** ** OS.main *)




(** ** The exit status *)

















(** ** The first model is the program where nothing is refused *)

Lemma granted_lookup w path :
  OS.nodes (granted w) !! path
  = (λ data, OS.File data true true) <$> files w !! path.
Proof. unfold granted. simpl. apply lookup_fmap. Qed.

Lemma granted_target w src dst : OS.target src dst (granted w) = dst.
Proof.
  unfold OS.target. rewrite granted_lookup. by destruct (files w !! dst).
Qed.

Lemma granted_can_write w path : OS.can_write path (granted w) = true.
Proof.
  unfold OS.can_write. rewrite granted_lookup.
  destruct (files w !! path); [done|]. simpl.
  by rewrite bool_decide_false by set_solver.
Qed.

(** On a file system where every path of [files] is a file that the process
    may read and write, and where a file can be created anywhere,
    [OS.fix_file] is [fix_file]. *)
Lemma fix_file_granted filepath dry_run w :
  OS.fix_file filepath dry_run (granted w)
  = ((fix_file filepath dry_run w).1, granted (fix_file filepath dry_run w).2).
Proof.
  destruct (files w !! filepath) as [data|] eqn:H.
  2:{ rewrite fix_file_missing by done.
      rewrite os_fix_file_missing by (by rewrite granted_lookup, H). done. }
  assert (Hl : OS.nodes (granted w) !! filepath = Some (OS.File data true true))
    by (by rewrite granted_lookup, H).
  destruct (utf8_decode data) as [text|] eqn:Hd.
  2:{ rewrite (fix_file_undecodable _ _ _ data) by done.
      by rewrite (os_fix_file_undecodable _ _ _ data true) by done. }
  destruct (decide ((repair (universal_newlines text)).1 = universal_newlines text))
    as [Hr|Hr].
  { rewrite (fix_file_unchanged _ _ _ data text) by done.
    by rewrite (os_fix_file_unchanged _ _ _ data true text) by done. }
  destruct dry_run.
  { rewrite (fix_file_dry_run _ _ data text) by done.
    by rewrite (os_fix_file_dry_run _ _ data true text) by done. }
  destruct (repair_encodable data text Hd) as [fixed_data He].
  rewrite (fix_file_written _ _ data text fixed_data) by done.
  rewrite (os_fix_file_written _ _ data text fixed_data Hl Hd Hr
             (granted_can_write _ _) He).
  rewrite granted_target. unfold granted. simpl.
  by rewrite !fmap_insert.
Qed.

Lemma files_loop_granted args dry_run success w :
  OS.files_loop args dry_run success (granted w)
  = ((files_loop args dry_run success w).1,
     granted (files_loop args dry_run success w).2).
Proof.
  revert success w. induction args as [|filepath args IH]; intros success w.
  - done.
  - cbn [OS.files_loop files_loop]. unfold mbind, OS.cmd_bind, cmd_bind.
    rewrite fix_file_granted.
    destruct (fix_file filepath dry_run w) as [[ok|e] w1]; simpl; [|done].
    apply IH.
Qed.

(** And so is [OS.main]: what is proved of [main] holds of the program
    wherever the system refuses nothing. *)
Lemma main_granted args w :
  OS.main args (granted w) = ((main args w).1, granted (main args w).2).
Proof.
  destruct args as [|a args]; [done|].
  unfold OS.main, main, mbind, OS.cmd_bind, cmd_bind, OS.print, print, mret,
    OS.cmd_ret, cmd_ret.
  destruct (bool_decide ("--check"%string ∈ a :: args)); cbv beta iota.
  - change (OS.World (OS.nodes (granted w)) (OS.no_create (granted w))
              (OS.console (granted w) ++ [DryRunMode]))
      with (granted (World (files w) (console w ++ [DryRunMode]))).
    rewrite files_loop_granted.
    destruct (files_loop _ true true _) as [[ok|e] w1]; done.
  - rewrite files_loop_granted.
    destruct (files_loop _ false true _) as [[ok|e] w1]; done.
Qed.
